(** * Compose safety transformer and workspace lifecycle manager

    A shallow embedding of [scripts/safeify_compose.py] and
    [scripts/spinoff_agent.py], the properties of the two scripts that
    the specification states, and further properties of their code.

    Conventions of the embedding.
    - A Python [str] is a [string]: the sequence of bytes of its UTF-8
      encoding, so that [.encode()] is the identity.  [upper] maps the
      ASCII letters, as [str.upper] does on the service names that
      Compose accepts ([[a-zA-Z0-9._-]+]); the statements about
      generated names say where they take service names in ASCII.
    - A Python [dict] whose iteration order is observable (services, the
      generated environment variables, the top-level volumes) is an
      association list in insertion order, updated the way a [dict] is.
    - A parsed document is a tree in which every service owns its own
      mapping; [Shared.Document] is a document with a heap of service
      mappings, in which an anchored service and its aliases are bound
      to one mapping, and the two transformations are given on both. *)

From Stdlib Require Import ZArith List String Ascii Bool Lia Arith.
From Stdlib Require Import Numbers.DecimalString Numbers.DecimalNat.
Import ListNotations.

Local Open Scope string_scope.
Local Open Scope list_scope.

(* ===================================================================== *)
(** ** Python strings *)
(* ===================================================================== *)

Module PyStr.

(** [s.split(sep)] for a one-character separator. *)
Fixpoint split (sep : ascii) (s : string) : list string :=
  match s with
  | EmptyString => [EmptyString]
  | String c rest =>
      if Ascii.eqb c sep then EmptyString :: split sep rest
      else match split sep rest with
           | [] => [String c EmptyString]
           | piece :: pieces => String c piece :: pieces
           end
  end.

(** [sep.join(pieces)]. *)
Definition join (sep : string) (pieces : list string) : string :=
  String.concat sep pieces.

(** [c in s] for a one-character [c]. *)
Fixpoint contains (c : ascii) (s : string) : bool :=
  match s with
  | EmptyString => false
  | String d rest => Ascii.eqb d c || contains c rest
  end.

Definition upper_ascii (c : ascii) : ascii :=
  let n := nat_of_ascii c in
  if Nat.leb 97 n && Nat.leb n 122 then ascii_of_nat (n - 32) else c.

(** [s.upper()]. *)
Fixpoint upper (s : string) : string :=
  match s with
  | EmptyString => EmptyString
  | String c rest => String (upper_ascii c) (upper rest)
  end.

(** [str(i)] for an index [i] of [enumerate]. *)
Definition str_of_nat (n : nat) : string :=
  NilEmpty.string_of_uint (Nat.to_uint n).

(** [str(z)] for an [int]. *)
Definition str_of_Z (z : Z) : string :=
  NilEmpty.string_of_int (Z.to_int z).

(** [l[-1]] on a list of strings that [split] returned. *)
Definition last_piece (l : list string) : string := last l EmptyString.

(** [enumerate(l)]. *)
Definition enumerate {A : Type} (l : list A) : list (nat * A) :=
  combine (seq 0 (List.length l)) l.

End PyStr.

(* ===================================================================== *)
(** ** Python dictionaries with string keys, in insertion order *)
(* ===================================================================== *)

Module Dict.

Definition t (V : Type) : Type := list (string * V).

Section Ops.
Context {V : Type}.

(** [d.get(k)]. *)
Fixpoint get (k : string) (d : t V) : option V :=
  match d with
  | [] => None
  | (k', v) :: rest => if String.eqb k' k then Some v else get k rest
  end.

(** [k in d]. *)
Definition mem (k : string) (d : t V) : bool :=
  match get k d with Some _ => true | None => false end.

(** [d[k] = v]: an existing key keeps its place, a new one goes last. *)
Fixpoint set (k : string) (v : V) (d : t V) : t V :=
  match d with
  | [] => [(k, v)]
  | (k', v') :: rest =>
      if String.eqb k' k then (k', v) :: rest
      else (k', v') :: set k v rest
  end.

(** [d.update(other)], also [{**d, **other}] on a copy of [d]. *)
Definition update (d other : t V) : t V :=
  fold_left (fun acc kv => set (fst kv) (snd kv) acc) other d.

Definition keys (d : t V) : list string := map fst d.

End Ops.

End Dict.

(* ===================================================================== *)
(** ** The data model of [safeify_compose.py] *)
(* ===================================================================== *)

#[local] Set Warnings "-register-all".

(** What [yaml.safe_load] returns for the parts the transformer does not
    look into. *)
Inductive yaml : Type :=
| YNull
| YBool (b : bool)
| YInt (z : Z)
| YStr (s : string)
| YSeq (items : list yaml)
| YMap (items : list (string * yaml)).

(** A port spec of the data model: a string ("host:container" or "port")
    or an integer.  The long syntax of Compose, a mapping, is not part of
    it; [str] of a mapping has colons of its own. *)
Inductive Port : Type :=
| PortStr (s : string)
| PortInt (z : Z).

(** A volume spec: a string, or the long syntax (anything that is not a
    [str]). *)
Inductive Volume : Type :=
| VolStr (s : string)
| VolOther (y : yaml).

(** A service mapping.  [None] means that the key is absent. *)
Record ServiceConfig : Type := mkService {
  ports : option (list Port);
  volumes : option (list Volume);
  container_name : option yaml;
  service_rest : list (string * yaml)
}.

(** The parsed Compose document. *)
Record ComposeDocument : Type := mkDocument {
  services : option (list (string * ServiceConfig));
  top_volumes : option (Dict.t yaml);
  networks : option yaml;
  document_rest : list (string * yaml)
}.

(** Generated environment variables: name to default value. *)
Definition EnvVarSet : Type := Dict.t string.

Definition set_ports (c : ServiceConfig) (p : option (list Port)) :=
  mkService p (volumes c) (container_name c) (service_rest c).
Definition set_volumes (c : ServiceConfig) (v : option (list Volume)) :=
  mkService (ports c) v (container_name c) (service_rest c).
Definition del_container_name (c : ServiceConfig) :=
  mkService (ports c) (volumes c) None (service_rest c).

Definition set_services (d : ComposeDocument) s :=
  mkDocument s (top_volumes d) (networks d) (document_rest d).
Definition set_top_volumes (d : ComposeDocument) v :=
  mkDocument (services d) v (networks d) (document_rest d).
Definition pop_networks (d : ComposeDocument) :=
  mkDocument (services d) (top_volumes d) None (document_rest d).

(** [data.get("services", {})]. *)
Definition get_services (d : ComposeDocument) : list (string * ServiceConfig) :=
  match services d with Some s => s | None => [] end.

(** The services after a loop that mutated the service mappings in place:
    an absent [services] key stays absent. *)
Definition put_services (d : ComposeDocument)
    (s : list (string * ServiceConfig)) : ComposeDocument :=
  match services d with Some _ => set_services d (Some s) | None => d end.

(* ===================================================================== *)
(** ** [make_multi_instance_safe] *)
(* ===================================================================== *)

Definition colon : ascii := ":"%char.

(** [str(port).split(":")[-1] if isinstance(port, str) else str(port)]. *)
Definition container_port_of (port : Port) : string :=
  match port with
  | PortStr s => PyStr.last_piece (PyStr.split colon s)
  | PortInt z => PyStr.str_of_Z z
  end.

(** The name chosen at index [i] of a [ports] list of length [len]. *)
Definition port_env_var_name (service_name : string) (len i : nat) : string :=
  if Nat.eqb len 1 then PyStr.upper service_name ++ "_PORT"
  else PyStr.upper service_name ++ "_PORT_" ++ PyStr.str_of_nat i.

(** [f"${{{env_var_name}:-{container_port}}}:{container_port}"]. *)
Definition port_with_fallback (env_var_name container_port : string) : string :=
  "${" ++ env_var_name ++ ":-" ++ container_port ++ "}:" ++ container_port.

(** One turn of [for i, port in enumerate(ports)], on
    [(new_ports, env_vars)]. *)
Definition port_step (service_name : string) (len : nat)
    (st : list Port * EnvVarSet) (ip : nat * Port) : list Port * EnvVarSet :=
  let '(new_ports, env_vars) := st in
  let '(i, port) := ip in
  let container_port := container_port_of port in
  let env_var_name := port_env_var_name service_name len i in
  (new_ports ++ [PortStr (port_with_fallback env_var_name container_port)],
   Dict.set env_var_name container_port env_vars).

(** The body of [for service_name, service_config in services.items()]. *)
Definition port_service_step (st : list (string * ServiceConfig) * EnvVarSet)
    (item : string * ServiceConfig) : list (string * ServiceConfig) * EnvVarSet :=
  let '(done, env_vars) := st in
  let '(service_name, service_config) := item in
  let '(service_config, env_vars) :=
    match ports service_config with
    | Some ps =>
        let '(new_ports, env_vars) :=
          fold_left (port_step service_name (List.length ps))
                    (PyStr.enumerate ps) ([], env_vars) in
        (set_ports service_config (Some new_ports), env_vars)
    | None => (service_config, env_vars)
    end in
  (done ++ [(service_name, del_container_name service_config)], env_vars).

Definition make_multi_instance_safe (data : ComposeDocument)
    : ComposeDocument * EnvVarSet :=
  let '(new_services, env_vars) :=
    fold_left port_service_step (get_services data) ([], []) in
  (pop_networks (put_services data new_services), env_vars).

(* ===================================================================== *)
(** ** [hashlib.sha256], as FIPS 180-4 defines it *)
(* ===================================================================== *)

Module Sha256.

Local Open Scope Z_scope.

Definition mask32 : Z := 0xffffffff.
Definition add32 (a b : Z) : Z := (a + b) mod 2 ^ 32.
Definition not32 (a : Z) : Z := Z.lxor a mask32.
Definition shr (n a : Z) : Z := Z.shiftr a n.
Definition rotr (n a : Z) : Z :=
  Z.lor (Z.shiftr a n) (Z.land (Z.shiftl a (32 - n)) mask32).

Definition Ch (x y z : Z) : Z := Z.lxor (Z.land x y) (Z.land (not32 x) z).
Definition Maj (x y z : Z) : Z :=
  Z.lxor (Z.lxor (Z.land x y) (Z.land x z)) (Z.land y z).
Definition Sigma0 (x : Z) : Z := Z.lxor (Z.lxor (rotr 2 x) (rotr 13 x)) (rotr 22 x).
Definition Sigma1 (x : Z) : Z := Z.lxor (Z.lxor (rotr 6 x) (rotr 11 x)) (rotr 25 x).
Definition sigma0 (x : Z) : Z := Z.lxor (Z.lxor (rotr 7 x) (rotr 18 x)) (shr 3 x).
Definition sigma1 (x : Z) : Z := Z.lxor (Z.lxor (rotr 17 x) (rotr 19 x)) (shr 10 x).

(** The first 64 primes. *)
Definition primes : list Z :=
  [2; 3; 5; 7; 11; 13; 17; 19; 23; 29; 31; 37; 41; 43; 47; 53; 59; 61; 67;
   71; 73; 79; 83; 89; 97; 101; 103; 107; 109; 113; 127; 131; 137; 139;
   149; 151; 157; 163; 167; 173; 179; 181; 191; 193; 197; 199; 211; 223;
   227; 229; 233; 239; 241; 251; 257; 263; 269; 271; 277; 281; 283; 293;
   307; 311].

(** The integer cube root of [n], bit by bit from bit [i - 1] down. *)
Fixpoint cube_root (i : nat) (n r : Z) : Z :=
  match i with
  | O => r
  | S j =>
      let c := r + 2 ^ Z.of_nat j in
      cube_root j n (if c * c * c <=? n then c else r)
  end.

(** The round constants: the first 32 bits of the fractional parts of
    the cube roots of the primes. *)
Definition K : list Z :=
  Eval vm_compute in
    map (fun p => cube_root 36 (p * 2 ^ 96) 0 mod 2 ^ 32) primes.

(** The initial hash value: the first 32 bits of the fractional parts of
    the square roots of the first 8 primes. *)
Definition H0 : list Z :=
  Eval vm_compute in
    map (fun p => Z.sqrt (p * 2 ^ 64) mod 2 ^ 32) (firstn 8 primes).

Definition bytes_of_string (s : string) : list Z :=
  map (fun c => Z.of_nat (nat_of_ascii c)) (list_ascii_of_string s).

(** The big-endian bytes of [x], [n] of them. *)
Fixpoint be_bytes (n : nat) (x : Z) : list Z :=
  match n with
  | O => []
  | S m => Z.land (Z.shiftr x (8 * Z.of_nat m)) 0xff :: be_bytes m x
  end.

(** The message, a 1 bit, zeros up to 56 modulo 64, and the bit length. *)
Definition pad (msg : list Z) : list Z :=
  let len := Z.of_nat (List.length msg) in
  msg ++ [0x80] ++ repeat 0 (Z.to_nat ((55 - len) mod 64)) ++ be_bytes 8 (8 * len).

Fixpoint be_words (n : nat) (bytes : list Z) : list Z :=
  match n, bytes with
  | S m, b0 :: b1 :: b2 :: b3 :: rest =>
      (((b0 * 256 + b1) * 256 + b2) * 256 + b3) :: be_words m rest
  | _, _ => []
  end.

(** The message schedule: [w] holds the words computed so far. *)
Fixpoint schedule (n : nat) (w : list Z) : list Z :=
  match n with
  | O => w
  | S m =>
      let i := List.length w in
      let wi := add32 (add32 (sigma1 (nth (i - 2) w 0)) (nth (i - 7) w 0))
                      (add32 (sigma0 (nth (i - 15) w 0)) (nth (i - 16) w 0)) in
      schedule m (w ++ [wi])
  end.

Definition round (st : list Z) (kw : Z * Z) : list Z :=
  match st with
  | [a; b; c; d; e; f; g; h] =>
      let t1 := add32 (add32 (add32 h (Sigma1 e)) (add32 (Ch e f g) (fst kw))) (snd kw) in
      let t2 := add32 (Sigma0 a) (Maj a b c) in
      [add32 t1 t2; a; b; c; add32 d t1; e; f; g]
  | _ => st
  end.

Definition compress (h : list Z) (block : list Z) : list Z :=
  let w := schedule 48 (be_words 16 block) in
  map (fun ab => add32 (fst ab) (snd ab))
      (combine h (fold_left round (combine K w) h)).

Fixpoint blocks (n : nat) (h : list Z) (bytes : list Z) : list Z :=
  match n with
  | O => h
  | S m => blocks m (compress h (firstn 64 bytes)) (skipn 64 bytes)
  end.

Definition digest (msg : list Z) : list Z :=
  let p := pad msg in
  flat_map (be_bytes 4) (blocks (List.length p / 64) H0 p).

Definition hex_digit (n : Z) : ascii :=
  ascii_of_nat (Z.to_nat (if n <? 10 then 48 + n else 87 + n)).

Fixpoint hex (bytes : list Z) : string :=
  match bytes with
  | [] => EmptyString
  | b :: rest => String (hex_digit (b / 16)) (String (hex_digit (b mod 16)) (hex rest))
  end.

(** [hashlib.sha256(s.encode()).hexdigest()]. *)
Definition hexdigest (s : string) : string := hex (digest (bytes_of_string s)).

End Sha256.

(* ===================================================================== *)
(** ** Exceptions and results *)
(* ===================================================================== *)

(** The exceptions the two scripts raise or meet. *)
Inductive PyExc : Type :=
| ValueError (msg : string)
| AttributeError (msg : string)
| CalledProcessError (returncode : Z)
| OtherException (msg : string)
| KeyboardInterrupt
| SystemExit (code : Z).

(** A call either returns or raises. *)
Inductive outcome (A : Type) : Type :=
| Returned (a : A)
| Raised (e : PyExc).
Arguments Returned {A} a.
Arguments Raised {A} e.

(** The status of a process whose entry point ended with this outcome:
    0 on return, the argument of [sys.exit], 1 with a traceback. *)
Definition exit_status {A : Type} (o : outcome A) : Z :=
  match o with
  | Returned _ => 0%Z
  | Raised (SystemExit code) => code
  | Raised _ => 1%Z
  end.

(* ===================================================================== *)
(** ** [transform_volumes] *)
(* ===================================================================== *)

(** [isinstance(vol, str) and ":" in vol and vol[0] in "./"]. *)
Definition is_bind_mount (vol : Volume) : bool :=
  match vol with
  | VolStr s =>
      PyStr.contains colon s &&
      match s with
      | String c _ => Ascii.eqb c "."%char || Ascii.eqb c "/"%char
      | EmptyString => false
      end
  | VolOther _ => false
  end.

(** [hashlib.sha256(f"{service_name}:{vol}".encode()).hexdigest()[:8]]
    and [f"{service_name}-{vol_hash}"]. *)
Definition default_vol_name (service_name vol : string) : string :=
  let vol_hash := substring 0 8 (Sha256.hexdigest (service_name ++ ":" ++ vol)) in
  service_name ++ "-" ++ vol_hash.

(** [sum(1 for v in service_config["volumes"] if ...)]. *)
Definition total_bind_mounts (vols : list Volume) : nat :=
  List.length (filter is_bind_mount vols).

(** [':'.join(vol.split(':')[1:])]. *)
Definition after_first_colon (vol : string) : string :=
  PyStr.join ":" (tl (PyStr.split colon vol)).

(** The state of the loop over the volumes of one service. *)
Record VolLoop : Type := mkVolLoop {
  new_volumes : list Volume;
  bind_mount_count : nat;
  volume_env_vars : EnvVarSet;
  named_volumes : Dict.t yaml
}.

(** One turn of [for vol in service_config["volumes"]]; [vols] is the
    list being iterated, which the service still holds. *)
Definition volume_step (service_name : string) (vols : list Volume)
    (st : VolLoop) (vol : Volume) : VolLoop :=
  match vol with
  | VolStr s =>
      if is_bind_mount vol then
        let name := default_vol_name service_name s in
        let '(env_var_name, count) :=
          if Nat.eqb (total_bind_mounts vols) 1
          then ((PyStr.upper service_name ++ "_VOLUME")%string, bind_mount_count st)
          else ((PyStr.upper service_name ++ "_VOLUME_"
                  ++ PyStr.str_of_nat (bind_mount_count st))%string,
                S (bind_mount_count st)) in
        let vol_name_with_fallback :=
          ("${" ++ env_var_name ++ ":-" ++ name ++ "}")%string in
        mkVolLoop
          (new_volumes st
             ++ [VolStr (vol_name_with_fallback ++ ":" ++ after_first_colon s)%string])
          count
          (Dict.set env_var_name name (volume_env_vars st))
          (Dict.set name YNull (named_volumes st))
      else
        mkVolLoop (new_volumes st ++ [vol]) (bind_mount_count st)
                  (volume_env_vars st) (named_volumes st)
  | VolOther _ =>
      mkVolLoop (new_volumes st ++ [vol]) (bind_mount_count st)
                (volume_env_vars st) (named_volumes st)
  end.

(** The body of [for service_name, service_config in services.items()]
    of the [convert-to-named] branch, on the services rebuilt so far, the
    variables and the named volumes. *)
Definition convert_service_step
    (st : list (string * ServiceConfig) * EnvVarSet * Dict.t yaml)
    (item : string * ServiceConfig)
    : list (string * ServiceConfig) * EnvVarSet * Dict.t yaml :=
  let '(done, env_vars, named) := st in
  let '(service_name, service_config) := item in
  match volumes service_config with
  | None => (done ++ [(service_name, service_config)], env_vars, named)
  | Some vols =>
      let fin := fold_left (volume_step service_name vols) vols
                           (mkVolLoop [] 0 env_vars named) in
      (done ++ [(service_name, set_volumes service_config (Some (new_volumes fin)))],
       volume_env_vars fin, named_volumes fin)
  end.

(** The body of [for service_config in services.values()] of the
    [remove] branch. *)
Definition remove_service_step (item : string * ServiceConfig)
    : string * ServiceConfig :=
  (fst item, set_volumes (snd item) None).

Definition transform_volumes (data : ComposeDocument) (volumes_option : string)
    : outcome (ComposeDocument * EnvVarSet) :=
  if String.eqb volumes_option "remove" then
    let data := put_services data (map remove_service_step (get_services data)) in
    Returned (set_top_volumes data None, [])
  else if String.eqb volumes_option "convert-to-named" then
    let '(new_services, env_vars, named) :=
      fold_left convert_service_step (get_services data) ([], [], []) in
    let data := put_services data new_services in
    let data :=
      match named with
      | [] => data
      | _ :: _ =>
          (* data.setdefault("volumes", {}).update(named_volumes) *)
          let current := match top_volumes data with Some m => m | None => [] end in
          set_top_volumes data (Some (Dict.update current named))
      end in
    Returned (data, env_vars)
  else if String.eqb volumes_option "keep" then
    Returned (data, [])
  else
    Raised (ValueError ("Invalid volumes option: " ++ volumes_option)).

(* ===================================================================== *)
(** ** Service mappings that are shared *)
(* ===================================================================== *)

(** [yaml.safe_load] returns one mapping object for an anchored service
    and for every alias of it, and both transformations write into the
    service mappings of the document they are given.  A document with
    shared service mappings binds each service name to the address of
    its mapping in a heap; the documents above are those in which every
    service has a mapping of its own. *)
Module Shared.

Record Document : Type := mkShared {
  names : option (list (string * nat));
  heap : list ServiceConfig;
  volumes_key : option (Dict.t yaml);
  networks_key : option yaml;
  other_keys : list (string * yaml)
}.

(** [data.get("services", {})]. *)
Definition get_names (d : Document) : list (string * nat) :=
  match names d with Some l => l | None => [] end.

(** The mapping at an address; every address that a parsed document
    binds has one. *)
Definition lookup (a : nat) (h : list ServiceConfig) : option ServiceConfig :=
  nth_error h a.

(** Writing into the mapping at an address. *)
Fixpoint assign (a : nat) (c : ServiceConfig) (h : list ServiceConfig)
    : list ServiceConfig :=
  match h, a with
  | [], _ => []
  | _ :: rest, O => c :: rest
  | c' :: rest, S a' => c' :: assign a' c rest
  end.

(** The body of [for service_name, service_config in services.items()]
    of [make_multi_instance_safe]: it reads the mapping of the service
    as the earlier turns left it, and writes into it. *)
Definition port_service_step (st : list ServiceConfig * EnvVarSet)
    (item : string * nat) : list ServiceConfig * EnvVarSet :=
  let '(h, env_vars) := st in
  let '(service_name, a) := item in
  match lookup a h with
  | None => st
  | Some service_config =>
      let '(service_config, env_vars) :=
        match ports service_config with
        | Some ps =>
            let '(new_ports, env_vars) :=
              fold_left (port_step service_name (List.length ps))
                        (PyStr.enumerate ps) ([], env_vars) in
            (set_ports service_config (Some new_ports), env_vars)
        | None => (service_config, env_vars)
        end in
      (assign a (del_container_name service_config) h, env_vars)
  end.

Definition make_multi_instance_safe (data : Document) : Document * EnvVarSet :=
  let '(h, env_vars) :=
    fold_left port_service_step (get_names data) (heap data, []) in
  (mkShared (names data) h (volumes_key data) None (other_keys data),
   env_vars).

(** The body of [for service_name, service_config in services.items()]
    of the [convert-to-named] branch, on the heap, the variables and the
    named volumes. *)
Definition convert_service_step
    (st : list ServiceConfig * EnvVarSet * Dict.t yaml) (item : string * nat)
    : list ServiceConfig * EnvVarSet * Dict.t yaml :=
  let '(h, env_vars, named) := st in
  let '(service_name, a) := item in
  match lookup a h with
  | None => st
  | Some service_config =>
      match volumes service_config with
      | None => st
      | Some vols =>
          let fin := fold_left (volume_step service_name vols) vols
                               (mkVolLoop [] 0 env_vars named) in
          (assign a (set_volumes service_config (Some (new_volumes fin))) h,
           volume_env_vars fin, named_volumes fin)
      end
  end.

(** The body of [for service_config in services.values()] of the
    [remove] branch. *)
Definition remove_service_step (h : list ServiceConfig) (item : string * nat)
    : list ServiceConfig :=
  match lookup (snd item) h with
  | Some service_config =>
      assign (snd item) (set_volumes service_config None) h
  | None => h
  end.

Definition transform_volumes (data : Document) (volumes_option : string)
    : outcome (Document * EnvVarSet) :=
  if String.eqb volumes_option "remove" then
    let h := fold_left remove_service_step (get_names data) (heap data) in
    Returned (mkShared (names data) h None (networks_key data)
                       (other_keys data), [])
  else if String.eqb volumes_option "convert-to-named" then
    let '(h, env_vars, named) :=
      fold_left convert_service_step (get_names data) (heap data, [], []) in
    let top :=
      match named with
      | [] => volumes_key data
      | _ :: _ =>
          (* data.setdefault("volumes", {}).update(named_volumes) *)
          let current :=
            match volumes_key data with Some m => m | None => [] end in
          Some (Dict.update current named)
      end in
    Returned (mkShared (names data) h top (networks_key data)
                       (other_keys data), env_vars)
  else if String.eqb volumes_option "keep" then
    Returned (data, [])
  else
    Raised (ValueError ("Invalid volumes option: " ++ volumes_option)).

(** The services of a document, each name with the mapping it is bound
    to. *)
Definition read_bindings (h : list ServiceConfig) (l : list (string * nat))
    : list (string * ServiceConfig) :=
  flat_map (fun item => match lookup (snd item) h with
                        | Some c => [(fst item, c)]
                        | None => []
                        end) l.

Definition services_of (d : Document) : list (string * ServiceConfig) :=
  read_bindings (heap d) (get_names d).

(** The document as it is dumped: every name with the content of its
    mapping. *)
Definition read (d : Document) : ComposeDocument :=
  mkDocument (option_map (read_bindings (heap d)) (names d))
             (volumes_key d) (networks_key d) (other_keys d).

(** A document in which every service has a mapping of its own. *)
Definition own (d : ComposeDocument) : Document :=
  mkShared
    (option_map (fun l => combine (map fst l) (seq 0 (List.length l)))
                (services d))
    (map snd (get_services d))
    (top_volumes d) (networks d) (document_rest d).

End Shared.

(* ===================================================================== *)
(** ** [safeify_compose] *)
(* ===================================================================== *)

(** [PurePath.stem] of a path: the final component without its last
    suffix. *)
Definition path_stem (path : string) : string :=
  let name := PyStr.last_piece (PyStr.split "/"%char path) in
  let pieces := PyStr.split "."%char name in
  let before := PyStr.join "." (removelast pieces) in
  if String.eqb before "" || String.eqb (PyStr.last_piece pieces) ""
  then name else before.

(** What one run leaves behind: the document dumped to [output_path], and
    the lines appended to [.env] and written to [.safecompose.env] (none
    when no variable was generated). *)
Record Safeified : Type := mkSafeified {
  output_path : string;
  written : ComposeDocument;
  env_vars : EnvVarSet;
  env_lines : list string
}.

(** [{**volume_env_vars, **port_env_vars}]. *)
Definition combine_env_vars (volume_env_vars port_env_vars : EnvVarSet)
    : EnvVarSet :=
  Dict.update volume_env_vars port_env_vars.

(** [load] stands for [open(input_path)] and [yaml.safe_load]. *)
Definition safeify_compose (load : string -> outcome ComposeDocument)
    (input_path : string) (volumes_option : string)
    (output_path : option string) : outcome Safeified :=
  let output_path :=
    match output_path with
    | Some p =>
        if String.eqb p "" then (path_stem input_path ++ ".safe.yml")%string else p
    | None => (path_stem input_path ++ ".safe.yml")%string
    end in
  match load input_path with
  | Raised e => Raised e
  | Returned data =>
      match transform_volumes data volumes_option with
      | Raised e => Raised e
      | Returned (data, volume_env_vars) =>
          let '(data, port_env_vars) := make_multi_instance_safe data in
          let env_vars := combine_env_vars volume_env_vars port_env_vars in
          let env_lines :=
            map (fun kv => (fst kv ++ "=" ++ snd kv)%string) env_vars in
          Returned (mkSafeified output_path data env_vars env_lines)
      end
  end.

(** The body of [safeify_compose] over the two functions it calls,
    which it looks up by name when it runs. *)
Definition safeify_compose_with
    (transform_volumes :
       ComposeDocument -> string -> outcome (ComposeDocument * EnvVarSet))
    (make_multi_instance_safe : ComposeDocument -> ComposeDocument * EnvVarSet)
    (load : string -> outcome ComposeDocument)
    (input_path : string) (volumes_option : string)
    (output_path : option string) : outcome Safeified :=
  let output_path :=
    match output_path with
    | Some p =>
        if String.eqb p "" then (path_stem input_path ++ ".safe.yml")%string else p
    | None => (path_stem input_path ++ ".safe.yml")%string
    end in
  match load input_path with
  | Raised e => Raised e
  | Returned data =>
      match transform_volumes data volumes_option with
      | Raised e => Raised e
      | Returned (data, volume_env_vars) =>
          let '(data, port_env_vars) := make_multi_instance_safe data in
          let env_vars := combine_env_vars volume_env_vars port_env_vars in
          let env_lines :=
            map (fun kv => (fst kv ++ "=" ++ snd kv)%string) env_vars in
          Returned (mkSafeified output_path data env_vars env_lines)
      end
  end.

(* ===================================================================== *)
(** ** [cli] of [safeify_compose.py] *)
(* ===================================================================== *)

(** The options given on the command line. *)
Record CommandLine : Type := mkCommandLine {
  opt_input : option string;
  opt_volumes : option string;
  opt_output : option string
}.

(** What the script sees of the file system. *)
Record FileSystem : Type := mkFileSystem {
  glob : string -> list string;
  path_exists : string -> bool;
  load_yaml : string -> outcome ComposeDocument
}.

Definition Namespace : Type := Dict.t string.

Definition volumes_choices : list string := ["remove"; "keep"; "convert-to-named"].

(** [parser.parse_args()] for the three [add_argument] calls: each option
    is stored under its [dest] ([compose_file], [volumes], [output]); a
    [--volumes] outside the choices ends the process with status 2. *)
Definition parse_args (cl : CommandLine) : outcome Namespace :=
  let compose_file := match opt_input cl with Some i => i | None => "*compose.*ml" end in
  let vols := match opt_volumes cl with Some v => v | None => "keep" end in
  let output := match opt_output cl with Some o => o | None => "{input_stem}.safe.yml" end in
  if existsb (String.eqb vols) volumes_choices
  then Returned [("compose_file", compose_file); ("volumes", vols); ("output", output)]
  else Raised (SystemExit 2).

(** [args.name]. *)
Definition getattr (args : Namespace) (name : string) : outcome string :=
  match Dict.get name args with
  | Some v => Returned v
  | None =>
      Raised (AttributeError ("'Namespace' object has no attribute '" ++ name ++ "'"))
  end.

Definition cli (cl : CommandLine) (fs : FileSystem) : outcome Safeified :=
  match parse_args cl with
  | Raised e => Raised e
  | Returned args =>
      match getattr args "compose_file" with
      | Raised e => Raised e
      | Returned pattern =>
          match glob fs pattern with
          | [] => Raised (SystemExit 1)
          | first :: others =>
              if Nat.ltb 1 (List.length (first :: others)) then Raised (SystemExit 1)
              else
                let input_path := first in
                if negb (path_exists fs input_path) then Raised (SystemExit 1)
                else
                  (* safeify_compose(input_path, args.output_path, args.volumes) *)
                  match getattr args "output_path" with
                  | Raised e => Raised e
                  | Returned second =>
                      match getattr args "volumes" with
                      | Raised e => Raised e
                      | Returned third =>
                          safeify_compose (load_yaml fs) input_path second (Some third)
                      end
                  end
          end
      end
  end.

(* ===================================================================== *)
(** ** The workspace lifecycle manager, [spinoff_agent.py] *)
(* ===================================================================== *)

Module Spinoff.

Inductive Executable : Type := Git | Docker | Agent.

(** The commands the script runs. *)
Inductive Command : Type :=
| GitAbbrevRefHead        (* git rev-parse --abbrev-ref HEAD *)
| GitShowToplevel         (* git rev-parse --show-toplevel *)
| GitVerifyBranch         (* git rev-parse --verify <branch> *)
| GitCheckout             (* git checkout <branch> *)
| GitCheckoutNew          (* git checkout -b <branch> <base> *)
| ComposeUp               (* docker compose ... up --build --force-recreate -d *)
| ComposePs               (* docker compose ... ps *)
| ComposeDown             (* docker compose ... down -v *)
| AgentRun.               (* <agent> <prompt> *)

Definition executable_of (c : Command) : Executable :=
  match c with
  | GitAbbrevRefHead | GitShowToplevel | GitVerifyBranch
  | GitCheckout | GitCheckoutNew => Git
  | ComposeUp | ComposePs | ComposeDown => Docker
  | AgentRun => Agent
  end.

Inductive Signal : Type := SIGINT | SIGTERM.

Definition signum (s : Signal) : Z :=
  match s with SIGINT => 2%Z | SIGTERM => 15%Z end.

Inductive CopyResult : Type :=
| Copied
| CopyFailedEarly         (* before the workspace directory was made *)
| CopyFailedPartial.      (* with a part of the tree on disk *)

(** What is observable of a run. *)
Inductive Event : Type :=
| Ran (c : Command)
| Mkdir
| Copytree
| Safeify
| Rmtree
| Summary
| CleaningUp
| CleanupCompleted
| Handler (s : Signal).

(** Everything outside the script that decides a run: which executables
    exist, what each command returns and whether it deletes the safe
    Compose file from the workspace it runs in, what the file system
    does (a Compose file that cannot be read or parsed is [None]; an
    [rmtree] that fails leaves the directory, with or without the safe
    Compose file), and the one signal that may arrive, at the [n]-th
    point where the script can be interrupted. *)
Record Scenario : Type := mkScenario {
  input_dir_given : bool;
  docker_services_given : bool;
  installed : Executable -> bool;
  returncode : Command -> Z;
  mkdir_fails : bool;
  copytree : CopyResult;
  workspace_path : string;
  compose_file : option string;
  load_compose : string -> option ComposeDocument;
  rmtree_fails : bool;
  rmtree_takes_safe_compose : bool;
  removes_safe_compose : Command -> bool;
  signal : option (nat * Signal)
}.

(** The workspace on disk, [docker_started] of [main], the number of
    interruption points passed, and the events so far. *)
Record World : Type := mkWorld {
  workspace_exists : bool;
  safe_compose_exists : bool;
  docker_started : bool;
  clock : nat;
  trace : list Event
}.

Definition initial : World := mkWorld false false false 0 [].

(** Computations on the world that return or raise. *)
Definition M (A : Type) : Type := World -> outcome A * World.

Definition ret {A : Type} (a : A) : M A := fun w => (Returned a, w).
Definition raise {A : Type} (e : PyExc) : M A := fun w => (Raised e, w).
Definition bind {A B : Type} (m : M A) (f : A -> M B) : M B :=
  fun w => match m w with
           | (Returned a, w') => f a w'
           | (Raised e, w') => (Raised e, w')
           end.

(** [try: body except ...: handler]; [handler] re-raises what no
    clause names. *)
Definition try_except {A : Type} (body : M A) (handler : PyExc -> M A) : M A :=
  fun w => match body w with
           | (Returned a, w') => (Returned a, w')
           | (Raised e, w') => handler e w'
           end.

Notation "x <- m ;; k" := (bind m (fun x => k))
  (at level 61, m at next level, right associativity).
Notation "m ;; k" := (bind m (fun _ => k))
  (at level 61, right associativity).

Definition log (ev : Event) : M unit :=
  fun w => (Returned tt,
            mkWorld (workspace_exists w) (safe_compose_exists w)
                    (docker_started w) (clock w) (trace w ++ [ev])).
Definition set_docker_started (b : bool) : M unit :=
  fun w => (Returned tt,
            mkWorld (workspace_exists w) (safe_compose_exists w) b
                    (clock w) (trace w)).
Definition set_workspace_exists (b : bool) : M unit :=
  fun w => (Returned tt,
            mkWorld b (safe_compose_exists w && b) (docker_started w)
                    (clock w) (trace w)).
Definition set_safe_compose_exists (b : bool) : M unit :=
  fun w => (Returned tt,
            mkWorld (workspace_exists w) b (docker_started w)
                    (clock w) (trace w)).
Definition tick : M unit :=
  fun w => (Returned tt,
            mkWorld (workspace_exists w) (safe_compose_exists w)
                    (docker_started w) (S (clock w)) (trace w)).
Definition get_world : M World := fun w => (Returned w, w).

Section Run.

Variable sc : Scenario.

(** The teardown and everything it calls, over [interruptible], the
    action taken at a point where a signal can arrive. *)
Section Interruptible.

Variable interruptible : M unit.

(** [run_cmd(cmd, check=...)]: the command is started, does what it
    does to the workspace, and the script waits for it. *)
Definition run_cmd (c : Command) (check : bool) : M Z :=
  log (Ran c) ;;
  if installed sc (executable_of c) then
    (if removes_safe_compose sc c then set_safe_compose_exists false
     else ret tt) ;;
    interruptible ;;
    let rc := returncode sc c in
    if check && negb (Z.eqb rc 0) then raise (CalledProcessError rc)
    else ret rc
  else raise (OtherException "FileNotFoundError").

Definition cleanup_docker : M unit :=
  w <- get_world ;;
  if safe_compose_exists w then
    _ <- run_cmd ComposeDown false ;; ret tt
  else ret tt.

Definition cleanup_workspace : M unit :=
  w <- get_world ;;
  if workspace_exists w then
    log Rmtree ;;
    interruptible ;;
    if rmtree_fails sc then
      (if rmtree_takes_safe_compose sc then set_safe_compose_exists false
       else ret tt) ;;
      raise (OtherException "OSError")
    else set_workspace_exists false
  else ret tt.

(** [cleanup_handler(signum=None, frame=None)]; it reads the
    [docker_started] of [main]. *)
Definition cleanup_handler (sig : option Signal) : M unit :=
  log CleaningUp ;;
  w <- get_world ;;
  (if docker_started w then cleanup_docker else ret tt) ;;
  cleanup_workspace ;;
  log CleanupCompleted ;;
  raise (SystemExit (match sig with
                     | None => 0
                     | Some s => 128 + signum s
                     end)%Z).

End Interruptible.

(** An interruption point: the signal of the scenario, if this is its
    point, runs the registered handler, during which no other signal
    arrives. *)
Definition checkpoint : M unit :=
  w <- get_world ;;
  tick ;;
  match signal sc with
  | Some (n, s) =>
      if Nat.eqb n (clock w)
      then log (Handler s) ;; cleanup_handler (ret tt) (Some s)
      else ret tt
  | None => ret tt
  end.

Definition get_repo_root : M unit :=
  _ <- run_cmd checkpoint GitShowToplevel true ;; ret tt.

Definition checkout_branch : M unit :=
  rc <- run_cmd checkpoint GitVerifyBranch false ;;
  if Z.eqb rc 0 then _ <- run_cmd checkpoint GitCheckout true ;; ret tt
  else _ <- run_cmd checkpoint GitCheckoutNew true ;; ret tt.

(** [open(input_path)] and [yaml.safe_load] of [safeify_compose]. *)
Definition load (path : string) : outcome ComposeDocument :=
  match load_compose sc path with
  | Some data => Returned data
  | None => Raised (OtherException "yaml.YAMLError")
  end.

Definition setup_docker : M bool :=
  match compose_file sc with
  | None => ret false
  | Some name =>
      log Safeify ;;
      checkpoint ;;
      match safeify_compose load
              (workspace_path sc ++ "/" ++ name)%string "convert-to-named"
              (Some (workspace_path sc ++ "/docker-compose.safe.yml")%string) with
      | Raised e => raise e
      | Returned _ =>
          set_safe_compose_exists true ;;
          _ <- run_cmd checkpoint ComposeUp true ;;
          _ <- run_cmd checkpoint ComposePs true ;;
          ret true
      end
  end.

Definition run_agent : M unit :=
  _ <- run_cmd checkpoint AgentRun true ;; ret tt.

Definition show_summary : M unit := log Summary.

(** [shutil.copytree(repo_root, workspace_path, symlinks=True)]. *)
Definition copy_repo : M unit :=
  log Copytree ;;
  match copytree sc with
  | CopyFailedEarly => raise (OtherException "OSError")
  | CopyFailedPartial =>
      set_workspace_exists true ;; checkpoint ;;
      raise (OtherException "shutil.Error")
  | Copied => set_workspace_exists true ;; checkpoint
  end.

(** The body of the [try] statement of [main]. *)
Definition lifecycle : M unit :=
  checkpoint ;;
  (if input_dir_given sc then ret tt else get_repo_root) ;;
  log Mkdir ;;
  (if mkdir_fails sc then raise (OtherException "OSError") else ret tt) ;;
  copy_repo ;;
  checkout_branch ;;
  (if docker_services_given sc
   then started <- setup_docker ;; set_docker_started started
   else ret tt) ;;
  run_agent ;;
  show_summary.

(** The [except] clauses of [main]. *)
Definition except_clauses (e : PyExc) : M unit :=
  match e with
  | KeyboardInterrupt => cleanup_handler checkpoint None
  | CalledProcessError rc =>
      cleanup_handler checkpoint None ;; raise (SystemExit rc)
  | SystemExit _ => raise e
  | ValueError _ | AttributeError _ | OtherException _ =>
      cleanup_handler checkpoint None ;; raise (SystemExit 1)
  end.

(** [main], once its first statement has parsed the command line. *)
Definition main : M unit :=
  (* base_branch = subprocess.run([...], check=True), before the
     handlers are registered *)
  log (Ran GitAbbrevRefHead) ;;
  (if installed sc Git then
     let rc := returncode sc GitAbbrevRefHead in
     if negb (Z.eqb rc 0) then raise (CalledProcessError rc) else ret tt
   else raise (OtherException "FileNotFoundError")) ;;
  set_docker_started false ;;
  try_except lifecycle except_clauses ;;
  cleanup_handler checkpoint None.

End Run.

(** The run of a scenario: how [main] ends, and the world it leaves. *)
Definition run (sc : Scenario) : outcome unit * World := main sc initial.
Definition status (sc : Scenario) : Z := exit_status (fst (run sc)).
Definition final (sc : Scenario) : World := snd (run sc).



End Spinoff.

(* ===================================================================== *)
(** ** The port rewrite, as the specification words it *)
(* ===================================================================== *)

Module Spec.

(** The substring after the last [sep], or the whole string if it has
    no [sep]. *)
Fixpoint after_last (sep : ascii) (s : string) : string :=
  match s with
  | EmptyString => EmptyString
  | String c rest =>
      if PyStr.contains sep rest then after_last sep rest
      else if Ascii.eqb c sep then rest else s
  end.

Definition container_port (p : Port) : string :=
  match p with
  | PortStr s => after_last colon s
  | PortInt z => PyStr.str_of_Z z
  end.

(** [{SERVICE_NAME_UPPER}_PORT] for a single entry, else suffixed by
    the index. *)
Definition env_var_name (service_name : string) (ps : list Port) (i : nat)
    : string :=
  match ps with
  | [_] => PyStr.upper service_name ++ "_PORT"
  | _ => PyStr.upper service_name ++ "_PORT_" ++ PyStr.str_of_nat i
  end.

Definition rewritten_port (service_name : string) (ps : list Port)
    (ip : nat * Port) : Port :=
  PortStr ("${" ++ env_var_name service_name ps (fst ip) ++ ":-"
             ++ container_port (snd ip) ++ "}:" ++ container_port (snd ip)).

Definition rewritten_ports (service_name : string) (ps : list Port)
    : list Port :=
  map (rewritten_port service_name ps) (PyStr.enumerate ps).

Definition port_var (service_name : string) (ps : list Port)
    (ip : nat * Port) : string * string :=
  (env_var_name service_name ps (fst ip), container_port (snd ip)).

(** The variables of one service, in the order of its entries. *)
Definition service_port_vars (item : string * ServiceConfig)
    : list (string * string) :=
  match ports (snd item) with
  | Some ps => map (port_var (fst item) ps) (PyStr.enumerate ps)
  | None => []
  end.

(** The variables of a document, service after service. *)
Definition port_vars (svcs : list (string * ServiceConfig))
    : list (string * string) :=
  flat_map service_port_vars svcs.

(** What [make_multi_instance_safe] leaves of a service. *)
Definition safe_service (item : string * ServiceConfig)
    : string * ServiceConfig :=
  (fst item,
   del_container_name
     match ports (snd item) with
     | Some ps => set_ports (snd item) (Some (rewritten_ports (fst item) ps))
     | None => snd item
     end).

(** A bind mount: a string that contains [':'] and whose first character
    is ['.'] or ['/']. *)
Definition bind_mount (s : string) : Prop :=
  In colon (list_ascii_of_string s)
  /\ exists c rest, s = String c rest /\ (c = "."%char \/ c = "/"%char).

End Spec.

(** A dictionary filled by assigning the pairs in order. *)
Definition dict_of_assignments {V : Type} (pairs : list (string * V)) : Dict.t V :=
  Dict.update [] pairs.

(** ** Which service a generated name belongs to *)

Definition is_digit (c : ascii) : bool :=
  let n := nat_of_ascii c in Nat.leb 48 n && Nat.leb n 57.

Fixpoint drop_digits (l : list ascii) : list ascii :=
  match l with
  | c :: rest => if is_digit c then drop_digits rest else l
  | [] => []
  end.

(** The upper-cased service name of a port variable, read off the
    reversed name: the index and its underscore, if any, then [_PORT]. *)
Definition owner_reversed (l : list ascii) : list ascii :=
  let l1 := drop_digits l in
  let l2 := match l1 with
            | c :: rest => if Ascii.eqb c "_" then rest else l1
            | [] => l1
            end in
  skipn 5 l2.

Definition owner (name : string) : string :=
  string_of_list_ascii (rev (owner_reversed (rev (list_ascii_of_string name)))).

(** ** What the transformations make of a document *)

(** The ports of every service of a document, in order. *)
Definition ports_of (data : ComposeDocument) : list (option (list Port)) :=
  map (fun item => ports (snd item)) (get_services data).

(** ** Documents, files and command lines of the examples *)

(** Two services whose names differ only in case, one port each. *)
Definition case_clash_document : ComposeDocument :=
  mkDocument
    (Some [("web", mkService (Some [PortStr "8080:80"]) None None []);
           ("WEB", mkService (Some [PortStr "9090:90"]) None None [])])
    None None [].

(** The document of the specification's examples: [web] with one port,
    [api] with two. *)
Definition web_api_document : ComposeDocument :=
  mkDocument
    (Some [("web", mkService (Some [PortStr "8080:80"]) None None []);
           ("api", mkService (Some [PortStr "8080:80"; PortStr "8443:443"])
                     None None [])])
    None None [].

(** A document with every kind of volume spec: a bind mount, a named
    volume, the long syntax, and a top-level [volumes] mapping. *)
Definition db_document : ComposeDocument :=
  mkDocument
    (Some [("db", mkService None
                    (Some [VolStr "./data:/var/lib/data"; VolStr "pgdata:/pg";
                           VolOther (YMap [("type", YStr "tmpfs")])])
                    None []);
           ("cache", mkService (Some [PortInt 6379]) None None [])])
    (Some [("pgdata", YNull)]) None [].

(** A run of [safeify_compose] on [web_api_document]. *)
Definition load_web_api (path : string) : outcome ComposeDocument :=
  Returned web_api_document.

Definition web_api_safeified : Safeified :=
  mkSafeified "docker-compose.safe.yml"
    (fst (make_multi_instance_safe web_api_document))
    [("WEB_PORT", "80"); ("API_PORT_0", "80"); ("API_PORT_1", "443")]
    ["WEB_PORT=80"; "API_PORT_0=80"; "API_PORT_1=443"].

(** Two transformations that return the key [SHARED] both. *)
Definition colliding_volumes (data : ComposeDocument) (volumes_option : string)
    : outcome (ComposeDocument * EnvVarSet) :=
  Returned (data, [("A_VOLUME", "a-0123abcd"); ("SHARED", "volume")]).

Definition colliding_ports (data : ComposeDocument)
    : ComposeDocument * EnvVarSet :=
  (data, [("SHARED", "port"); ("A_PORT", "80")]).

(** A directory with one Compose file, which exists and parses. *)
Definition one_compose_file : FileSystem :=
  mkFileSystem (fun _ => ["docker-compose.yml"]) (fun _ => true)
               (fun _ => Returned web_api_document).

Definition no_options : CommandLine := mkCommandLine None None None.

(* ===================================================================== *)
(** ** The workspace lifecycle manager: scenarios and assertions *)
(* ===================================================================== *)

Import Spinoff.

(** A run in which everything succeeds: one Compose file, a new branch. *)
Definition all_good : Scenario :=
  mkScenario true true (fun _ => true)
    (fun c => match c with GitVerifyBranch => 1%Z | _ => 0%Z end)
    false Copied "workspaces/feature_1_2" (Some "docker-compose.yml")
    (fun _ => Some web_api_document) false false (fun _ => false) None.


(** The same as [all_good], but [down] returns 1 and the signal [s]
    arrives at the interruption point [n]. *)
Definition interrupted_at (n : nat) (s : Signal) : Scenario :=
  mkScenario true true (fun _ => true)
    (fun c => match c with
              | GitVerifyBranch | ComposeDown => 1%Z
              | _ => 0%Z
              end)
    false Copied "workspaces/feature_1_2" (Some "docker-compose.yml")
    (fun _ => Some web_api_document) false false (fun _ => false)
    (Some (n, s)).

(** The same as [all_good], but the agent deletes the safe Compose file
    from its workspace. *)
Definition agent_deletes_safe_compose : Scenario :=
  mkScenario true true (fun _ => true)
    (fun c => match c with GitVerifyBranch => 1%Z | _ => 0%Z end)
    false Copied "workspaces/feature_1_2" (Some "docker-compose.yml")
    (fun _ => Some web_api_document) false false
    (fun c => match c with AgentRun => true | _ => false end) None.


Module Logic.

Section Assertions.

Variable sc : Scenario.

(** The signal of the scenario has arrived. *)
Definition delivered (w : World) : Prop :=
  exists n s, signal sc = Some (n, s) /\ n < clock w.

(** The teardown ran to its end and the workspace is gone. *)
Definition torn_down (w : World) : Prop :=
  workspace_exists w = false
  /\ In CleaningUp (trace w)
  /\ In CleanupCompleted (trace w).

(** The events after which the safe Compose file is gone: a command
    that deletes it was run, [docker] or the agent; the [git] commands
    are run before the file is written. *)
Definition deletes (ev : Event) : bool :=
  match ev with
  | Ran c =>
      match executable_of c with
      | Git => false
      | Docker | Agent =>
          installed sc (executable_of c) && removes_safe_compose sc c
      end
  | _ => false
  end.

(** A command that was run has deleted the safe Compose file. *)
Definition taken (w : World) : Prop := existsb deletes (trace w) = true.

(** If [docker_started] says the stack was started, it was taken down,
    unless a command had deleted the safe Compose file. *)
Definition down_if_started (w : World) : Prop :=
  docker_started w = true -> In (Ran ComposeDown) (trace w) \/ taken w.

(** What every reachable world satisfies: [docker_started] is set only
    after [docker compose up] returned 0; [down] is run only then; a
    started stack either still has its Compose file, or was taken down,
    or a command has deleted the file; and an [rmtree] that fails leaves
    the workspace directory. *)
Record Inv (w : World) : Prop := mkInv {
  inv_started :
    docker_started w = true ->
    installed sc Docker = true /\ returncode sc ComposeUp = 0%Z;
  inv_down :
    In (Ran ComposeDown) (trace w) ->
    installed sc Docker = true /\ returncode sc ComposeUp = 0%Z;
  inv_safe :
    docker_started w = true ->
    safe_compose_exists w = true \/ In (Ran ComposeDown) (trace w)
    \/ taken w;
  inv_kept :
    rmtree_fails sc = true -> In Rmtree (trace w) ->
    workspace_exists w = true
}.

(** [m], started in a world of [P], ends in a world of [Q] if it returns
    and of [E] if it raises; the invariant is kept. *)
Definition triple {A : Type} (P : World -> Prop) (m : M A)
    (Q : A -> World -> Prop) (E : PyExc -> World -> Prop) : Prop :=
  forall w, Inv w -> P w ->
    Inv (snd (m w))
    /\ match fst (m w) with
       | Returned a => Q a (snd (m w))
       | Raised e => E e (snd (m w))
       end.

(** The events that the invariant does not speak of. *)
Definition plain (ev : Event) : Prop :=
  ev <> Ran ComposeDown /\ ev <> Rmtree.

(** The status [cleanup_handler] exits with. *)
Definition handler_status (sig : option Signal) : Z :=
  match sig with None => 0%Z | Some s => (128 + signum s)%Z end.

(** No signal has arrived, and [G] holds. *)
Definition calm (G : World -> Prop) (w : World) : Prop :=
  ~ delivered w /\ G w.

(** No teardown has completed. *)
Definition unfinished (w : World) : Prop :=
  ~ In CleanupCompleted (trace w).

(** No teardown has completed and the stack is not started: the state
    in which the [git] commands are run. *)
Definition not_started (w : World) : Prop :=
  unfinished w /\ docker_started w = false.

(** [T] is kept by every event but the end of a teardown. *)
Definition grows (T : list Event -> Prop) : Prop :=
  forall tr ev, ev <> CleanupCompleted -> T tr -> T (tr ++ [ev]).

(** [G] looks at neither the clock, nor the events other than the end of
    a teardown, nor the safe Compose file once a command has deleted
    it. *)
Definition stable (G : World -> Prop) : Prop :=
  forall w, G w ->
    G (snd (tick w))
    /\ (forall ev, ev <> CleanupCompleted -> G (snd (log ev w)))
    /\ (taken w -> G (snd (set_safe_compose_exists false w))).

(** How the signal handler ends a step: with the status of the signal,
    after the teardown; or, when [rmtree] fails in it, with that
    failure and the workspace left. *)
Definition by_signal (e : PyExc) (w : World) : Prop :=
  In CleaningUp (trace w) /\ down_if_started w
  /\ match e with
     | SystemExit code =>
         (exists n s, signal sc = Some (n, s) /\ n < clock w
                      /\ code = (128 + signum s)%Z)
         /\ torn_down w
     | _ => rmtree_fails sc = true /\ delivered w /\ workspace_exists w = true
            /\ e = OtherException "OSError"
     end.

(** How a step of the lifecycle may raise: through the handler, or by a
    failure of its own, which is never [SystemExit]. *)
Definition interrupted (e : PyExc) (w : World) : Prop :=
  by_signal e w
  \/ (calm unfinished w /\ forall code, e <> SystemExit code).

(** How [main] may end once the [try] statement is entered: the teardown
    was started, with [down] if the stack was started; [SystemExit] has
    status 0 without a signal and the status of the signal with one,
    after the workspace was removed; anything else is the failure of
    [rmtree], which leaves the workspace. *)
Definition finished (e : PyExc) (w : World) : Prop :=
  In CleaningUp (trace w) /\ down_if_started w
  /\ match e with
     | SystemExit code =>
         torn_down w
         /\ ((code = 0%Z /\ ~ delivered w)
             \/ exists n s, signal sc = Some (n, s) /\ n < clock w
                            /\ code = (128 + signum s)%Z)
     | _ => rmtree_fails sc = true /\ (delivered w \/ unfinished w)
            /\ workspace_exists w = true
            /\ e = OtherException "OSError"
     end.

(** [main] from the [try] statement on. *)
Definition after_base_branch : M unit :=
  try_except (lifecycle sc) (except_clauses sc) ;;
  cleanup_handler sc (checkpoint sc) None.

(** The world in which the [try] statement is entered. *)
Definition at_try : World :=
  snd (set_docker_started false (snd (log (Ran GitAbbrevRefHead) initial))).

End Assertions.

End Logic.

(** ** What [make_multi_instance_safe] leaves alone *)


(** A service that [make_multi_instance_safe] has nothing to do for. *)
Definition plain_service (item : string * ServiceConfig) : Prop :=
  ports (snd item) = None /\ container_name (snd item) = None.

(** A document with nothing to make safe. *)
Definition nginx_document : ComposeDocument :=
  mkDocument
    (Some [("nginx", mkService None (Some [VolStr "./conf:/etc/nginx:ro"]) None
                       [("image", YStr "nginx")])])
    None None [("version", YStr "3")].

(** ** [convert-to-named] in closed form *)

(** The bind mounts among the volumes of a service, in order. *)
Definition bind_specs (vs : list Volume) : list string :=
  flat_map (fun v => match v with
                     | VolStr s => if is_bind_mount v then [s] else []
                     | VolOther _ => []
                     end) vs.

(** [{SERVICE_NAME_UPPER}_VOLUME] for a single bind mount, else suffixed
    by the index among the bind mounts. *)
Definition volume_env_var_name (service_name : string) (specs : list string)
    (k : nat) : string :=
  match specs with
  | [_] => PyStr.upper service_name ++ "_VOLUME"
  | _ => PyStr.upper service_name ++ "_VOLUME_" ++ PyStr.str_of_nat k
  end.

(** The volumes [l] of a service whose bind mounts are [specs], rewritten
    from the bind-mount index [k] on. *)
Fixpoint converted_volumes (service_name : string) (specs : list string)
    (k : nat) (l : list Volume) : list Volume :=
  match l with
  | [] => []
  | v :: rest =>
      match v with
      | VolStr s =>
          if is_bind_mount v then
            VolStr ("${" ++ volume_env_var_name service_name specs k ++ ":-"
                      ++ default_vol_name service_name s ++ "}:"
                      ++ after_first_colon s)
            :: converted_volumes service_name specs (S k) rest
          else v :: converted_volumes service_name specs k rest
      | VolOther _ => v :: converted_volumes service_name specs k rest
      end
  end.

(** The variables of the bind mounts [l], numbered from [k]. *)
Definition volume_vars_from (service_name : string) (specs : list string)
    (k : nat) (l : list string) : list (string * string) :=
  map (fun ks => (volume_env_var_name service_name specs (fst ks),
                  default_vol_name service_name (snd ks)))
      (combine (seq k (List.length l)) l).

(** The named volumes declared for the bind mounts [l]. *)
Definition volume_names (service_name : string) (l : list string)
    : list (string * yaml) :=
  map (fun s => (default_vol_name service_name s, YNull)) l.

Definition converted_service_of (item : string * ServiceConfig)
    : string * ServiceConfig :=
  (fst item,
   match volumes (snd item) with
   | Some vs =>
       set_volumes (snd item)
         (Some (converted_volumes (fst item) (bind_specs vs) 0 vs))
   | None => snd item
   end).

Definition service_volume_vars (item : string * ServiceConfig)
    : list (string * string) :=
  match volumes (snd item) with
  | Some vs => volume_vars_from (fst item) (bind_specs vs) 0 (bind_specs vs)
  | None => []
  end.

Definition service_volume_names (item : string * ServiceConfig)
    : list (string * yaml) :=
  match volumes (snd item) with
  | Some vs => volume_names (fst item) (bind_specs vs)
  | None => []
  end.

(** The document that [convert-to-named] returns. *)
Definition converted_document (data : ComposeDocument) : ComposeDocument :=
  let data' := put_services data (map converted_service_of (get_services data)) in
  match dict_of_assignments (flat_map service_volume_names (get_services data)) with
  | [] => data'
  | (_ :: _) as named =>
      set_top_volumes data'
        (Some (Dict.update
                 match top_volumes data with Some m => m | None => [] end
                 named))
  end.

(** Some service of the document has a bind mount among its volumes. *)
Definition has_bind_mounts (data : ComposeDocument) : bool :=
  existsb (fun item => match volumes (snd item) with
                       | Some vs => existsb is_bind_mount vs
                       | None => false
                       end) (get_services data).

(** ** Shared service mappings in closed form *)

(** Service names without a character outside ASCII, on which
    [str.upper] changes the letters [a] to [z] and nothing else. *)
Definition ascii_name (name : string) : Prop :=
  Forall (fun c => nat_of_ascii c < 128) (list_ascii_of_string name).

(** One turn of a loop over the services that writes [f name c] into the
    mapping [c] of the service. *)
Definition visit (f : string -> ServiceConfig -> ServiceConfig)
    (h : list ServiceConfig) (item : string * nat) : list ServiceConfig :=
  match Shared.lookup (snd item) h with
  | Some c => Shared.assign (snd item) (f (fst item) c) h
  | None => h
  end.

(** What the turns for [l] make of the mapping [c] at the address [a]. *)
Definition visits (f : string -> ServiceConfig -> ServiceConfig)
    (l : list (string * nat)) (a : nat) (c : ServiceConfig) : ServiceConfig :=
  fold_left (fun c item => if Nat.eqb (snd item) a then f (fst item) c else c)
            l c.

(** What each turn finds: the name with the mapping as the earlier turns
    left it. *)
Fixpoint found (f : string -> ServiceConfig -> ServiceConfig)
    (l : list (string * nat)) (h : list ServiceConfig)
    : list (string * ServiceConfig) :=
  match l with
  | [] => []
  | item :: rest =>
      match Shared.lookup (snd item) h with
      | Some c => (fst item, c) :: found f rest (visit f h item)
      | None => found f rest h
      end
  end.

(** The bindings of the addresses that are neither in [seen] nor bound
    earlier in the list. *)
Fixpoint first_bindings (seen : list nat) (l : list (string * nat))
    : list (string * nat) :=
  match l with
  | [] => []
  | item :: rest =>
      if existsb (Nat.eqb (snd item)) seen then first_bindings seen rest
      else item :: first_bindings (snd item :: seen) rest
  end.

(** The services of a document under the first name of each mapping. *)
Definition first_services (d : Shared.Document)
    : list (string * ServiceConfig) :=
  Shared.read_bindings (Shared.heap d)
    (first_bindings [] (Shared.get_names d)).

Definition safe_config (name : string) (c : ServiceConfig) : ServiceConfig :=
  snd (Spec.safe_service (name, c)).

Definition converted_config (name : string) (c : ServiceConfig)
    : ServiceConfig :=
  snd (converted_service_of (name, c)).

(** Two mappings that yield the same port variables under every name. *)
Definition same_port_vars (c c' : ServiceConfig) : Prop :=
  forall n, Spec.service_port_vars (n, c') = Spec.service_port_vars (n, c).

(** A mapping none of whose volumes is a bind mount. *)
Definition no_bind_mounts (c : ServiceConfig) : Prop :=
  forall vs, volumes c = Some vs -> bind_specs vs = [].

(** The bindings of a document in which the service at index [i] has the
    mapping at address [k + i]. *)
Definition own_bindings (k : nat) (l : list (string * ServiceConfig))
    : list (string * nat) :=
  combine (map fst l) (seq k (List.length l)).

(** The named volumes that [convert-to-named] declares. *)
Definition generated_volumes (d : Shared.Document) : Dict.t yaml :=
  dict_of_assignments (flat_map service_volume_names (first_services d)).

(** ** Documents with shared service mappings *)

(** [web] with one port, and [api] an alias of it. *)
Definition web_alias_document : Shared.Document :=
  Shared.mkShared (Some [("web", 0); ("api", 0)])
    [mkService (Some [PortStr "8080:80"]) None None []]
    None None [].

(** [db] with a bind mount, [replica] an alias of it, and a declared
    volume with a driver. *)
Definition db_alias_document : Shared.Document :=
  Shared.mkShared (Some [("db", 0); ("replica", 0)])
    [mkService None (Some [VolStr "./data:/var/lib/data"; VolStr "pgdata:/pg"])
       None []]
    (Some [("pgdata", YMap [("driver", YStr "local")])]) None [].

(** ** Volume variables and port variables *)

(** The last character of a generated name that belongs neither to its
    index nor to the underscore in front of the index. *)
Definition last_letter (name : string) : option ascii :=
  match drop_digits (rev (list_ascii_of_string name)) with
  | c :: rest => if Ascii.eqb c "_" then hd_error rest else Some c
  | [] => None
  end.

(** A run of [safeify_compose] on [db_document]. *)
Definition load_db (path : string) : outcome ComposeDocument :=
  Returned db_document.

(** The last component of a path. *)
Definition file_name (path : string) : string :=
  PyStr.last_piece (PyStr.split "/"%char path).

(* ===================================================================== *)
(** ** The services option of [spinoff_agent.py] *)
(* ===================================================================== *)

(** The values that [docker_services] is compared with. *)
Inductive PyValue : Type :=
| PyString (s : string)
| PyList (items : list string).

(** [a != b]: a [str] and a [list] are never equal. *)
Definition py_ne (a b : PyValue) : bool :=
  match a, b with
  | PyString s, PyString t => negb (String.eqb s t)
  | PyList l, PyList m => if list_eq_dec string_dec l m then false else true
  | _, _ => true
  end.

(** The truth value of a list. *)
Definition truthy (l : list string) : bool :=
  match l with [] => false | _ :: _ => true end.

(** [args.docker_services] for [-d/--docker-services] with
    [default=["all"]] and [type=lambda x: x.split(",")]: a default that
    is not a string is used as it is. *)
Definition parse_docker_services (opt : option string) : list string :=
  match opt with
  | Some x => PyStr.split "," x
  | None => ["all"]
  end.

(** [docker_cmd] of [setup_docker], as [run_cmd] gets it. *)
Definition up_command (workspace_id : string) (docker_services : list string)
    : list string :=
  let docker_cmd :=
    ["docker"; "compose"; "-f"; "docker-compose.safe.yml"; "-p"; workspace_id;
     "up"; "--build"; "--force-recreate"; "-d"] in
  if truthy docker_services && py_ne (PyList docker_services) (PyString "all")
  then docker_cmd ++ docker_services
  else docker_cmd.

(* ===================================================================== *)
(** ** The workspace lifecycle manager: the order of the events *)
(* ===================================================================== *)

Module Order.

Section Gates.

Variable sc : Scenario.

(** The command exists and returns 0. *)
Definition ran_ok (c : Command) : Prop :=
  installed sc (executable_of c) = true /\ returncode sc c = 0%Z.

(** The signal handler has run. *)
Definition handled (tr : list Event) : Prop := exists s, In (Handler s) tr.

(** [ev] has not occurred, unless the signal handler has run. *)
Definition quiet (ev : Event) (tr : list Event) : Prop :=
  In ev tr -> handled tr.

(** The workspace is a full copy with the feature branch checked out:
    the branch existed and [git checkout] returned 0, or it did not and
    [git checkout -b] returned 0. *)
Definition branch_ready (tr : list Event) : Prop :=
  copytree sc = Copied
  /\ ((In (Ran GitCheckout) tr
       /\ returncode sc GitVerifyBranch = 0%Z /\ ran_ok GitCheckout)
      \/ (In (Ran GitCheckoutNew) tr
          /\ returncode sc GitVerifyBranch <> 0%Z /\ ran_ok GitCheckoutNew)).

(** [setup_docker] has run to its end: [up] and [ps] returned 0. *)
Definition stack_up (tr : list Event) : Prop :=
  In (Ran ComposePs) tr /\ ran_ok ComposeUp /\ ran_ok ComposePs.

(** When the script may do [ev], given what it has done before. *)
Definition allowed (pre : list Event) (ev : Event) : Prop :=
  match ev with
  | Ran GitAbbrevRefHead => pre = []
  | Ran GitShowToplevel => input_dir_given sc = false
  | Mkdir =>
      input_dir_given sc = false ->
      In (Ran GitShowToplevel) pre /\ ran_ok GitShowToplevel
  | Copytree => In Mkdir pre /\ mkdir_fails sc = false
  | Ran GitVerifyBranch => In Copytree pre /\ copytree sc = Copied
  | Ran GitCheckout =>
      In (Ran GitVerifyBranch) pre /\ installed sc Git = true
      /\ returncode sc GitVerifyBranch = 0%Z
  | Ran GitCheckoutNew =>
      In (Ran GitVerifyBranch) pre /\ installed sc Git = true
      /\ returncode sc GitVerifyBranch <> 0%Z
  | Safeify =>
      docker_services_given sc = true /\ compose_file sc <> None
      /\ branch_ready pre
  | Ran ComposeUp =>
      In Safeify pre
      /\ exists name,
           compose_file sc = Some name
           /\ load_compose sc (workspace_path sc ++ "/" ++ name) <> None
  | Ran ComposePs => In (Ran ComposeUp) pre /\ ran_ok ComposeUp
  | Ran ComposeDown =>
      stack_up pre /\ In CleaningUp pre /\ quiet (Ran ComposeDown) pre
  | Ran AgentRun =>
      branch_ready pre
      /\ (docker_services_given sc = true -> compose_file sc <> None ->
          stack_up pre)
  | Summary => In (Ran AgentRun) pre /\ ran_ok AgentRun
  | CleaningUp => quiet CleaningUp pre
  | Rmtree =>
      In Copytree pre /\ copytree sc <> CopyFailedEarly
      /\ In CleaningUp pre /\ quiet Rmtree pre
  | CleanupCompleted => In CleaningUp pre /\ quiet CleanupCompleted pre
  | Handler s => (exists n, signal sc = Some (n, s)) /\ ~ handled pre
  end.

(** Every event of the trace was allowed after those before it. *)
Definition well_ordered (tr : list Event) : Prop :=
  forall pre ev post, tr = pre ++ ev :: post -> allowed pre ev.

(** What every reachable world satisfies: its trace is well ordered;
    [docker_started] is set only after [setup_docker] has run to its
    end; the workspace exists only after [copytree] made it; the signal
    handler has run only after the signal. *)
Record J (w : World) : Prop := mkJ {
  j_order : well_ordered (trace w);
  j_started : docker_started w = true -> stack_up (trace w);
  j_workspace :
    workspace_exists w = true ->
    In Copytree (trace w) /\ copytree sc <> CopyFailedEarly;
  j_handled :
    handled (trace w) -> exists n s, signal sc = Some (n, s) /\ n < clock w
}.

(** [m], started on a trace of [K], ends on a trace of [Q] if it returns
    and of [E] if it raises; [J] is kept. *)
Definition keeps {A : Type} (K : list Event -> Prop) (m : M A)
    (Q : A -> list Event -> Prop) (E : list Event -> Prop) : Prop :=
  forall w, J w -> K (trace w) ->
    J (snd (m w))
    /\ match fst (m w) with
       | Returned a => Q a (trace (snd (m w)))
       | Raised _ => E (trace (snd (m w)))
       end.

(** What the teardown knows after [CleaningUp]; [P] says that it is the
    teardown of the signal handler. *)
Definition tearing_down (P : Prop) (tr : list Event) : Prop :=
  In CleaningUp tr /\ quiet Rmtree tr /\ quiet CleanupCompleted tr
  /\ (P -> handled tr).

End Gates.

End Order.

(** [docker compose up] returns 0, and [ps] after it returns 1. *)
Definition ps_fails : Scenario :=
  mkScenario true true (fun _ => true)
    (fun c => match c with
              | GitVerifyBranch | ComposePs => 1%Z
              | _ => 0%Z
              end)
    false Copied "workspaces/feature_1_2" (Some "docker-compose.yml")
    (fun _ => Some web_api_document) false false (fun _ => false) None.

(** The steps of the teardown. *)
Definition teardown_step (ev : Event) : Prop :=
  ev = CleaningUp \/ ev = Ran ComposeDown \/ ev = Rmtree
  \/ ev = CleanupCompleted.

(* ===================================================================== *)
(** ** The hash function on the standard test vectors *)
(* ===================================================================== *)

Example sha256_empty :
  Sha256.hexdigest ""
  = "e3b0c44298fc1c149afbf4c8996fb92427ae41e4649b934ca495991b7852b855".
Proof. vm_compute. reflexivity. Qed.

Example sha256_abc :
  Sha256.hexdigest "abc"
  = "ba7816bf8f01cfea414140de5dae2223b00361a396177a9cb410ff61f20015ad".
Proof. vm_compute. reflexivity. Qed.

Example sha256_two_blocks :
  Sha256.hexdigest "abcdbcdecdefdefgefghfghighijhijkijkljklmklmnlmnomnopnopq"
  = "248d6a61d20638b8e5c026930c3e6039a33ce45964ff2167f6ecedd419db06c1".
Proof. vm_compute. reflexivity. Qed.

(* ===================================================================== *)
(** ** Facts about strings *)
(* ===================================================================== *)

Section StringFacts.

Variable sep : ascii.

Lemma split_not_nil (s : string) : PyStr.split sep s <> [].
Proof.
  destruct s as [|c rest]; simpl; [discriminate|].
  destruct (Ascii.eqb c sep); [discriminate|].
  destruct (PyStr.split sep rest); discriminate.
Qed.

Lemma split_without_sep (s : string) :
  PyStr.contains sep s = false -> PyStr.split sep s = [s].
Proof.
  induction s as [|c rest IH]; simpl; intros H; [reflexivity|].
  apply orb_false_iff in H as [Hc Hrest].
  rewrite Hc, (IH Hrest). reflexivity.
Qed.

Lemma split_with_sep (s : string) :
  PyStr.contains sep s = true ->
  exists p q r, PyStr.split sep s = p :: q :: r.
Proof.
  induction s as [|c rest IH]; simpl; intros H; [discriminate|].
  destruct (Ascii.eqb c sep) eqn:Hc.
  - destruct (PyStr.split sep rest) as [|q r] eqn:Hs.
    + exfalso. exact (split_not_nil rest Hs).
    + now exists EmptyString, q, r.
  - simpl in H. destruct (IH H) as (p & q & r & Hs). rewrite Hs.
    now exists (String c p), q, r.
Qed.

Lemma after_last_without_sep (s : string) :
  PyStr.contains sep s = false -> Spec.after_last sep s = s.
Proof.
  destruct s as [|c rest]; simpl; intros H; [reflexivity|].
  apply orb_false_iff in H as [Hc Hrest]. now rewrite Hrest, Hc.
Qed.

(** [s.split(sep)[-1]] is what follows the last [sep]. *)
Lemma last_piece_split (s : string) :
  PyStr.last_piece (PyStr.split sep s) = Spec.after_last sep s.
Proof.
  unfold PyStr.last_piece.
  induction s as [|c rest IH]; [reflexivity|].
  cbn [PyStr.split Spec.after_last].
  destruct (PyStr.contains sep rest) eqn:Hrest.
  - destruct (split_with_sep rest Hrest) as (p & q & r & Hs).
    rewrite Hs in *. destruct (Ascii.eqb c sep); exact IH.
  - rewrite (split_without_sep rest Hrest).
    destruct (Ascii.eqb c sep); reflexivity.
Qed.

Lemma after_last_has_no_sep (s : string) :
  PyStr.contains sep (Spec.after_last sep s) = false.
Proof.
  induction s as [|c rest IH]; [reflexivity|].
  cbn [Spec.after_last].
  destruct (PyStr.contains sep rest) eqn:Hrest; [exact IH|].
  destruct (Ascii.eqb c sep) eqn:Hc; [exact Hrest|].
  simpl. now rewrite Hc, Hrest.
Qed.

Lemma contains_append (a b : string) :
  PyStr.contains sep (a ++ b) = PyStr.contains sep a || PyStr.contains sep b.
Proof.
  induction a as [|c rest IH]; simpl; [reflexivity|].
  now rewrite IH, orb_assoc.
Qed.

(** After [a ++ sep], a string without [sep] is the last piece. *)
Lemma after_last_append (a c : string) :
  PyStr.contains sep c = false ->
  Spec.after_last sep (a ++ String sep c) = c.
Proof.
  intros Hc. induction a as [|x rest IH]; simpl.
  - now rewrite Hc, Ascii.eqb_refl.
  - rewrite contains_append. simpl. rewrite Ascii.eqb_refl, orb_true_r.
    exact IH.
Qed.

End StringFacts.

Lemma append_assoc (a b c : string) : ((a ++ b) ++ c = a ++ (b ++ c))%string.
Proof. induction a as [|x rest IH]; simpl; [reflexivity|now rewrite IH]. Qed.

(** A decimal numeral has no colon in it. *)
Lemma uint_has_no_colon (d : Decimal.uint) :
  PyStr.contains colon (NilEmpty.string_of_uint d) = false.
Proof. induction d; simpl; auto. Qed.

Lemma str_of_Z_has_no_colon (z : Z) :
  PyStr.contains colon (PyStr.str_of_Z z) = false.
Proof.
  unfold PyStr.str_of_Z, NilEmpty.string_of_int.
  destruct (Z.to_int z) as [d|d]; simpl; apply uint_has_no_colon.
Qed.

(* ===================================================================== *)
(** ** Facts about dictionaries *)
(* ===================================================================== *)

Section DictFacts.

Context {V : Type}.
Implicit Types (d other : Dict.t V) (k : string) (v : V).

Lemma get_set_same d k v : Dict.get k (Dict.set k v d) = Some v.
Proof.
  induction d as [|[k' v'] rest IH]; simpl.
  - now rewrite String.eqb_refl.
  - destruct (String.eqb k' k) eqn:E; simpl; now rewrite E.
Qed.

Lemma get_set_other d k k' v :
  k <> k' -> Dict.get k (Dict.set k' v d) = Dict.get k d.
Proof.
  intros Hne. induction d as [|[k0 v0] rest IH]; simpl.
  - destruct (String.eqb_spec k' k); [congruence|reflexivity].
  - destruct (String.eqb_spec k0 k'); simpl.
    + subst. destruct (String.eqb_spec k' k); [congruence|reflexivity].
    + now rewrite IH.
Qed.

Lemma get_app d other k :
  Dict.get k (d ++ other) =
  match Dict.get k d with Some v => Some v | None => Dict.get k other end.
Proof.
  induction d as [|[k' v'] rest IH]; simpl; [reflexivity|].
  now destruct (String.eqb k' k).
Qed.

Lemma get_none_iff d k : Dict.get k d = None <-> ~ In k (Dict.keys d).
Proof.
  induction d as [|[k' v'] rest IH]; simpl; [tauto|].
  destruct (String.eqb_spec k' k); [intuition discriminate|tauto].
Qed.

Lemma update_app d o1 o2 :
  Dict.update d (o1 ++ o2) = Dict.update (Dict.update d o1) o2.
Proof. apply fold_left_app. Qed.

(** The last assignment to a key decides its value. *)
Lemma get_update d other k :
  Dict.get k (Dict.update d other) =
  match Dict.get k (rev other) with
  | Some v => Some v
  | None => Dict.get k d
  end.
Proof.
  revert d. induction other as [|[k' v'] rest IH]; intros d; [reflexivity|].
  change (Dict.update d ((k', v') :: rest))
    with (Dict.update (Dict.set k' v' d) rest).
  rewrite IH. simpl rev. rewrite get_app.
  destruct (Dict.get k (rev rest)); [reflexivity|]. simpl.
  destruct (String.eqb_spec k' k).
  - subst. apply get_set_same.
  - apply get_set_other. congruence.
Qed.

Lemma set_fresh d k v : Dict.get k d = None -> Dict.set k v d = d ++ [(k, v)].
Proof.
  induction d as [|[k' v'] rest IH]; simpl; [reflexivity|].
  destruct (String.eqb k' k); [discriminate|]. intros H. now rewrite IH.
Qed.

(** Assigning pairwise distinct new keys appends them in order. *)
Lemma update_fresh d other :
  NoDup (Dict.keys other) ->
  (forall k, In k (Dict.keys other) -> Dict.get k d = None) ->
  Dict.update d other = d ++ other.
Proof.
  revert d. induction other as [|[k v] rest IH]; intros d Hnd Hfresh.
  - now rewrite app_nil_r.
  - change (Dict.update d ((k, v) :: rest))
      with (Dict.update (Dict.set k v d) rest).
    simpl in Hnd. inversion Hnd as [|? ? Hnotin Hnd']; subst.
    rewrite set_fresh by (apply Hfresh; now left).
    rewrite IH; [now rewrite <- app_assoc|exact Hnd'|].
    intros k' Hin. rewrite get_app, Hfresh by (now right). simpl.
    destruct (String.eqb_spec k k'); [subst; contradiction|reflexivity].
Qed.

Lemma mem_set_same d k v : Dict.mem k (Dict.set k v d) = true.
Proof. unfold Dict.mem. now rewrite get_set_same. Qed.

Lemma mem_set_mono d k k' v :
  Dict.mem k d = true -> Dict.mem k (Dict.set k' v d) = true.
Proof.
  unfold Dict.mem. destruct (String.eqb_spec k k').
  - subst. now rewrite get_set_same.
  - now rewrite get_set_other.
Qed.

Lemma mem_update_left d other k :
  Dict.mem k d = true -> Dict.mem k (Dict.update d other) = true.
Proof.
  unfold Dict.mem. rewrite get_update.
  now destruct (Dict.get k (rev other)).
Qed.

Lemma mem_rev d k : Dict.mem k (rev d) = Dict.mem k d.
Proof.
  unfold Dict.mem.
  destruct (Dict.get k (rev d)) eqn:E1, (Dict.get k d) eqn:E2; try reflexivity.
  - apply get_none_iff in E2. exfalso. apply E2.
    assert (Hin : In k (Dict.keys (rev d))).
    { destruct (in_dec string_dec k (Dict.keys (rev d))) as [H|H]; [exact H|].
      apply get_none_iff in H. congruence. }
    unfold Dict.keys in *. rewrite map_rev in Hin. now apply in_rev.
  - apply get_none_iff in E1. exfalso. apply E1.
    assert (Hin : In k (Dict.keys d)).
    { destruct (in_dec string_dec k (Dict.keys d)) as [H|H]; [exact H|].
      apply get_none_iff in H. congruence. }
    unfold Dict.keys in *. rewrite map_rev. now apply in_rev in Hin.
Qed.

Lemma mem_update_right d other k :
  Dict.mem k other = true -> Dict.mem k (Dict.update d other) = true.
Proof.
  intros H. rewrite <- mem_rev in H. unfold Dict.mem in *.
  rewrite get_update. now destruct (Dict.get k (rev other)).
Qed.

End DictFacts.

(* ===================================================================== *)
(** ** The loops of [make_multi_instance_safe] *)
(* ===================================================================== *)

Lemma container_port_of_spec (p : Port) :
  container_port_of p = Spec.container_port p.
Proof. destruct p; [apply last_piece_split|reflexivity]. Qed.

Lemma port_env_var_name_spec (service_name : string) (ps : list Port) (i : nat) :
  port_env_var_name service_name (List.length ps) i
  = Spec.env_var_name service_name ps i.
Proof.
  unfold port_env_var_name, Spec.env_var_name.
  destruct ps as [|p [|q r]]; reflexivity.
Qed.

(** The loop over the ports of one service. *)
Lemma port_loop (service_name : string) (ps : list Port)
    (l : list (nat * Port)) (acc : list Port) (env : EnvVarSet) :
  fold_left (port_step service_name (List.length ps)) l (acc, env)
  = (acc ++ map (Spec.rewritten_port service_name ps) l,
     Dict.update env (map (Spec.port_var service_name ps) l)).
Proof.
  revert acc env. induction l as [|[i p] rest IH]; intros acc env.
  - simpl. now rewrite app_nil_r.
  - cbn [fold_left port_step]. rewrite IH. cbn [map].
    rewrite <- app_assoc. unfold Spec.rewritten_port, Spec.port_var. cbn [fst snd].
    rewrite port_env_var_name_spec, container_port_of_spec. reflexivity.
Qed.

(** The loop over the services. *)
Lemma port_service_loop (l done : list (string * ServiceConfig)) (env : EnvVarSet) :
  fold_left port_service_step l (done, env)
  = (done ++ map Spec.safe_service l, Dict.update env (Spec.port_vars l)).
Proof.
  revert done env. induction l as [|[n cfg] rest IH]; intros done env.
  - simpl. now rewrite app_nil_r.
  - cbn [fold_left]. unfold port_service_step at 2.
    unfold Spec.port_vars. cbn [flat_map map].
    rewrite update_app. unfold Spec.service_port_vars at 1, Spec.safe_service at 1.
    cbn [fst snd]. destruct (ports cfg) as [ps|].
    + rewrite port_loop. cbn [app]. rewrite IH, <- app_assoc. reflexivity.
    + rewrite IH, <- app_assoc. reflexivity.
Qed.

(** [make_multi_instance_safe] in closed form. *)
Lemma make_multi_instance_safe_unfold (data : ComposeDocument) :
  make_multi_instance_safe data
  = (pop_networks (put_services data (map Spec.safe_service (get_services data))),
     dict_of_assignments (Spec.port_vars (get_services data))).
Proof.
  unfold make_multi_instance_safe. now rewrite port_service_loop.
Qed.

(* ===================================================================== *)
(** ** Applying [make_multi_instance_safe] to its own output *)
(* ===================================================================== *)

Lemma container_port_has_no_colon (p : Port) :
  PyStr.contains colon (Spec.container_port p) = false.
Proof.
  destruct p; [apply after_last_has_no_sep|apply str_of_Z_has_no_colon].
Qed.

(** The container port of a rewritten entry is the one it was built from. *)
Lemma container_port_rewritten (service_name : string) (ps : list Port)
    (ip : nat * Port) :
  Spec.container_port (Spec.rewritten_port service_name ps ip)
  = Spec.container_port (snd ip).
Proof.
  unfold Spec.rewritten_port. cbn [Spec.container_port].
  set (name := Spec.env_var_name service_name ps (fst ip)).
  set (cp := Spec.container_port (snd ip)).
  replace ("${" ++ name ++ ":-" ++ cp ++ "}:" ++ cp)%string
    with (("${" ++ name ++ ":-" ++ cp ++ "}") ++ String colon cp)%string.
  - apply after_last_append, container_port_has_no_colon.
  - rewrite !append_assoc. reflexivity.
Qed.

Lemma env_var_name_length (service_name : string) (ps qs : list Port) (i : nat) :
  List.length ps = List.length qs ->
  Spec.env_var_name service_name ps i = Spec.env_var_name service_name qs i.
Proof.
  intros H. now rewrite <- !port_env_var_name_spec, H.
Qed.

(** Numbering a list that was computed from a numbered list. *)
Lemma combine_seq_map {A B : Type} (g : nat * A -> B) (l : list A) (k : nat) :
  combine (seq k (List.length l)) (map g (combine (seq k (List.length l)) l))
  = map (fun ia => (fst ia, g ia)) (combine (seq k (List.length l)) l).
Proof.
  revert k. induction l as [|a rest IH]; intros k; [reflexivity|].
  simpl. now rewrite IH.
Qed.

Lemma rewritten_ports_length (service_name : string) (ps : list Port) :
  List.length (Spec.rewritten_ports service_name ps) = List.length ps.
Proof.
  unfold Spec.rewritten_ports, PyStr.enumerate.
  rewrite length_map, length_combine, length_seq. apply Nat.min_id.
Qed.

Lemma enumerate_rewritten_ports (service_name : string) (ps : list Port) :
  PyStr.enumerate (Spec.rewritten_ports service_name ps)
  = map (fun ip => (fst ip, Spec.rewritten_port service_name ps ip))
        (PyStr.enumerate ps).
Proof.
  unfold PyStr.enumerate at 1. rewrite rewritten_ports_length.
  apply combine_seq_map.
Qed.

Lemma rewritten_port_again (service_name : string) (ps : list Port)
    (ip : nat * Port) :
  Spec.rewritten_port service_name (Spec.rewritten_ports service_name ps)
    (fst ip, Spec.rewritten_port service_name ps ip)
  = Spec.rewritten_port service_name ps ip.
Proof.
  unfold Spec.rewritten_port at 1. cbn [fst snd].
  rewrite container_port_rewritten.
  rewrite (env_var_name_length service_name _ ps) by apply rewritten_ports_length.
  reflexivity.
Qed.

Lemma rewritten_ports_again (service_name : string) (ps : list Port) :
  Spec.rewritten_ports service_name (Spec.rewritten_ports service_name ps)
  = Spec.rewritten_ports service_name ps.
Proof.
  unfold Spec.rewritten_ports at 1. rewrite enumerate_rewritten_ports, map_map.
  apply map_ext. intros ip. apply rewritten_port_again.
Qed.

Lemma safe_service_again (item : string * ServiceConfig) :
  Spec.safe_service (Spec.safe_service item) = Spec.safe_service item.
Proof.
  destruct item as [n cfg]. unfold Spec.safe_service. cbn [fst snd].
  destruct (ports cfg) as [ps|] eqn:E; cbn [del_container_name set_ports ports
    volumes container_name service_rest]; [|rewrite E; reflexivity].
  now rewrite rewritten_ports_again.
Qed.

Lemma service_port_vars_again (item : string * ServiceConfig) :
  Spec.service_port_vars (Spec.safe_service item) = Spec.service_port_vars item.
Proof.
  destruct item as [n cfg]. unfold Spec.service_port_vars, Spec.safe_service.
  cbn [fst snd]. destruct (ports cfg) as [ps|] eqn:E;
    cbn [del_container_name set_ports ports]; [|now rewrite E].
  rewrite enumerate_rewritten_ports, map_map. apply map_ext. intros ip.
  unfold Spec.port_var. cbn [fst snd]. rewrite container_port_rewritten.
  now rewrite (env_var_name_length n _ ps) by apply rewritten_ports_length.
Qed.

Lemma port_vars_again (svcs : list (string * ServiceConfig)) :
  Spec.port_vars (map Spec.safe_service svcs) = Spec.port_vars svcs.
Proof.
  unfold Spec.port_vars. induction svcs as [|item rest IH]; [reflexivity|].
  simpl. now rewrite service_port_vars_again, IH.
Qed.

(** A second application changes neither the document nor the variables. *)
Lemma make_multi_instance_safe_twice (data : ComposeDocument) :
  make_multi_instance_safe (fst (make_multi_instance_safe data))
  = make_multi_instance_safe data.
Proof.
  rewrite !make_multi_instance_safe_unfold. cbn [fst].
  destruct data as [[svcs|] tv nw rest];
    unfold put_services, get_services, set_services, pop_networks;
    cbn [services top_volumes networks document_rest]; [|reflexivity].
  rewrite port_vars_again, map_map.
  f_equal. f_equal. f_equal. apply map_ext, safe_service_again.
Qed.

(* ===================================================================== *)
(** ** Which service a generated name belongs to *)
(* ===================================================================== *)

Lemma list_ascii_of_string_append (a b : string) :
  list_ascii_of_string (a ++ b)
  = list_ascii_of_string a ++ list_ascii_of_string b.
Proof. induction a as [|c rest IH]; simpl; [reflexivity|now rewrite IH]. Qed.

Lemma uint_digits (d : Decimal.uint) :
  Forall (fun c => is_digit c = true)
         (list_ascii_of_string (NilEmpty.string_of_uint d)).
Proof. induction d; simpl; constructor; auto. Qed.

Lemma drop_digits_app (ds rest : list ascii) :
  Forall (fun c => is_digit c = true) ds ->
  drop_digits (ds ++ rest) = drop_digits rest.
Proof.
  induction 1 as [|c ds Hc _ IH]; [reflexivity|]. simpl. now rewrite Hc.
Qed.

Lemma drop_digits_other (c : ascii) (rest : list ascii) :
  is_digit c = false -> drop_digits (c :: rest) = c :: rest.
Proof. intros H. simpl. now rewrite H. Qed.

Lemma owner_env_var_name (service_name : string) (ps : list Port) (i : nat) :
  owner (Spec.env_var_name service_name ps i) = PyStr.upper service_name.
Proof.
  unfold owner, Spec.env_var_name.
  set (u := PyStr.upper service_name).
  assert (Hsingle : string_of_list_ascii
            (rev (owner_reversed (rev (list_ascii_of_string (u ++ "_PORT")))))
          = u).
  { rewrite list_ascii_of_string_append, rev_app_distr.
    cbn [list_ascii_of_string rev app]. unfold owner_reversed.
    rewrite drop_digits_other by reflexivity.
    cbn [Ascii.eqb Bool.eqb skipn]. rewrite rev_involutive.
    apply string_of_list_ascii_of_string. }
  destruct ps as [|p [|q r]]; [|exact Hsingle|].
  all: rewrite !list_ascii_of_string_append, !rev_app_distr;
    unfold owner_reversed;
    rewrite <- app_assoc, drop_digits_app
      by (apply Forall_rev, uint_digits);
    cbn [list_ascii_of_string rev app];
    rewrite drop_digits_other by reflexivity;
    cbn [Ascii.eqb Bool.eqb skipn]; rewrite rev_involutive;
    apply string_of_list_ascii_of_string.
Qed.

Lemma append_inv_head (a b c : string) : (a ++ b = a ++ c)%string -> b = c.
Proof. induction a as [|x rest IH]; simpl; intros H; [exact H|]. inversion H. auto. Qed.

Lemma str_of_nat_inj (i j : nat) : PyStr.str_of_nat i = PyStr.str_of_nat j -> i = j.
Proof.
  unfold PyStr.str_of_nat. intros H.
  apply Unsigned.to_uint_inj.
  assert (E : NilEmpty.uint_of_string (NilEmpty.string_of_uint (Nat.to_uint i))
              = NilEmpty.uint_of_string (NilEmpty.string_of_uint (Nat.to_uint j)))
    by now rewrite H.
  rewrite !NilEmpty.usu in E. now inversion E.
Qed.

Lemma env_var_name_index_inj (service_name : string) (ps : list Port) (i j : nat) :
  1 < List.length ps \/ ps = [] ->
  Spec.env_var_name service_name ps i = Spec.env_var_name service_name ps j ->
  i = j.
Proof.
  unfold Spec.env_var_name. intros Hlen H.
  destruct ps as [|p [|q r]].
  - apply append_inv_head, (append_inv_head "_PORT_") in H. now apply str_of_nat_inj.
  - destruct Hlen as [Hlen|Hlen]; [cbn in Hlen; lia|discriminate].
  - apply append_inv_head, (append_inv_head "_PORT_") in H. now apply str_of_nat_inj.
Qed.

Lemma NoDup_map_injective {A B : Type} (f : A -> B) (l : list A) :
  (forall x y, In x l -> In y l -> f x = f y -> x = y) ->
  NoDup l -> NoDup (map f l).
Proof.
  intros Hinj Hnd. induction Hnd as [|a l Hnotin Hnd IH]; simpl; constructor.
  - intros Hin. apply in_map_iff in Hin as (b & Heq & Hb).
    assert (b = a) by (apply Hinj; simpl; auto). now subst.
  - apply IH. intros x y Hx Hy. apply Hinj; simpl; auto.
Qed.

Lemma enumerate_fst {A : Type} (l : list A) :
  map fst (PyStr.enumerate l) = seq 0 (List.length l).
Proof.
  unfold PyStr.enumerate. generalize 0.
  induction l as [|a rest IH]; intros k; simpl; [reflexivity|now rewrite IH].
Qed.

(** The names generated for one service are pairwise distinct. *)
Lemma service_port_vars_NoDup (item : string * ServiceConfig) :
  NoDup (Dict.keys (Spec.service_port_vars item)).
Proof.
  destruct item as [n cfg]. unfold Spec.service_port_vars, Dict.keys.
  cbn [fst snd]. destruct (ports cfg) as [ps|]; [|constructor].
  rewrite map_map. unfold Spec.port_var. cbn [fst].
  destruct ps as [|p [|q r]].
  - constructor.
  - cbn. constructor; [intros []|constructor].
  - set (ps := p :: q :: r).
    rewrite <- (map_map fst (fun i => Spec.env_var_name n ps i)), enumerate_fst.
    apply NoDup_map_injective; [|apply seq_NoDup].
    intros i j _ _. apply env_var_name_index_inj. left. cbn. lia.
Qed.

Lemma service_port_vars_owner (item : string * ServiceConfig) (k : string) :
  In k (Dict.keys (Spec.service_port_vars item)) ->
  owner k = PyStr.upper (fst item).
Proof.
  destruct item as [n cfg]. unfold Spec.service_port_vars, Dict.keys.
  cbn [fst snd]. destruct (ports cfg) as [ps|]; [|intros []].
  rewrite map_map. intros Hin. apply in_map_iff in Hin as (ip & <- & _).
  apply owner_env_var_name.
Qed.

(** Services with pairwise distinct upper-cased names generate pairwise
    distinct variable names. *)
Lemma port_vars_NoDup (svcs : list (string * ServiceConfig)) :
  NoDup (map (fun item => PyStr.upper (fst item)) svcs) ->
  NoDup (Dict.keys (Spec.port_vars svcs)).
Proof.
  unfold Spec.port_vars, Dict.keys.
  induction svcs as [|item rest IH]; intros Hnd; [constructor|].
  inversion Hnd as [|? ? Hnotin Hnd']; subst.
  cbn [flat_map]. rewrite map_app. apply NoDup_app.
  - apply service_port_vars_NoDup.
  - apply IH, Hnd'.
  - intros k Hk Hin. apply Hnotin.
    rewrite <- (service_port_vars_owner item k Hk).
    clear - Hin. induction rest as [|item' rest IH]; [destruct Hin|].
    cbn [flat_map] in Hin. rewrite map_app in Hin.
    apply in_app_or in Hin as [Hin|Hin].
    + left. symmetry. now apply service_port_vars_owner.
    + right. auto.
Qed.

(* ===================================================================== *)
(** ** Claims about [make_multi_instance_safe] *)
(* ===================================================================== *)

Example make_multi_instance_safe_web_api :
  make_multi_instance_safe web_api_document
  = (mkDocument
       (Some [("web", mkService (Some [PortStr "${WEB_PORT:-80}:80"]) None None []);
              ("api", mkService (Some [PortStr "${API_PORT_0:-80}:80";
                                       PortStr "${API_PORT_1:-443}:443"])
                        None None [])])
       None None [],
     [("WEB_PORT", "80"); ("API_PORT_0", "80"); ("API_PORT_1", "443")]).
Proof. reflexivity. Qed.

(** The specification's example: one application to [web] with
    ["8080:80"], and a second one to the result. *)
Example make_multi_instance_safe_web_once_and_twice :
  let web := mkDocument
               (Some [("web", mkService (Some [PortStr "8080:80"]) None None [])])
               None None [] in
  let once := make_multi_instance_safe web in
  ports_of (fst once) = [Some [PortStr "${WEB_PORT:-80}:80"]]
  /\ snd once = [("WEB_PORT", "80")]
  /\ make_multi_instance_safe (fst once) = once.
Proof. repeat split. Qed.

(** C3, as stated, fails on the document of the specification's example:
    the entry ["8080:80"] of [web] becomes ["${WEB_PORT:-80}:80"], and a
    second application leaves it so; the reference is not wrapped
    again, and the ports of the second application do not differ from
    those of the first. *)
Lemma make_multi_instance_safe_web_not_wrapped :
  let web := mkDocument
               (Some [("web", mkService (Some [PortStr "8080:80"]) None None [])])
               None None [] in
  let once := make_multi_instance_safe web in
  let twice := make_multi_instance_safe (fst once) in
  ports_of (fst once) = [Some [PortStr "${WEB_PORT:-80}:80"]]
  /\ ports_of (fst twice) = [Some [PortStr "${WEB_PORT:-80}:80"]]
  /\ ~ (ports_of (fst twice) <> ports_of (fst once)).
Proof.
  cbv zeta. split; [reflexivity|]. split; [reflexivity|].
  intros H. now apply H.
Qed.

(** C3, amended: on the documents of the data model, whose port entries
    are strings or integers, [make_multi_instance_safe] is idempotent.
    The container port of a rewritten entry is again what follows its
    last [':'], and the name depends on the service and the number of
    entries only, so a second application returns the document and the
    variables of the first, for every such document. *)
Theorem make_multi_instance_safe_idempotent (data : ComposeDocument) :
  let once := make_multi_instance_safe data in
  let twice := make_multi_instance_safe (fst once) in
  fst twice = fst once
  /\ snd twice = snd once
  /\ ports_of (fst twice) = ports_of (fst once).
Proof.
  cbv zeta. rewrite make_multi_instance_safe_twice. repeat split.
Qed.

(* ===================================================================== *)
(** ** Claims about [transform_volumes] *)
(* ===================================================================== *)

(** C7: [transform_volumes] raises if and only if the mode is none of
    [keep], [remove], [convert-to-named], and what it raises then is the
    error for an invalid option; on the three modes it returns, for every
    document; on [keep] it returns the document unchanged and no
    variable. *)
Theorem transform_volumes_modes (data : ComposeDocument) (mode : string) :
  ((exists e, transform_volumes data mode = Raised e)
   <-> (mode <> "keep" /\ mode <> "remove" /\ mode <> "convert-to-named"))
  /\ (forall e, transform_volumes data mode = Raised e ->
                e = ValueError ("Invalid volumes option: " ++ mode))
  /\ ((mode = "keep" \/ mode = "remove" \/ mode = "convert-to-named") ->
      exists result, transform_volumes data mode = Returned result)
  /\ transform_volumes data "keep" = Returned (data, []).
Proof.
  unfold transform_volumes.
  destruct (fold_left convert_service_step (get_services data) ([], [], []))
    as [[new_services env] named].
  split; [split|split; [|split]].
  - intros [e He].
    destruct (String.eqb_spec mode "remove"); [discriminate He|].
    destruct (String.eqb_spec mode "convert-to-named"); [discriminate He|].
    destruct (String.eqb_spec mode "keep"); [discriminate He|]. tauto.
  - intros (Hk & Hr & Hc).
    destruct (String.eqb_spec mode "remove"); [contradiction|].
    destruct (String.eqb_spec mode "convert-to-named"); [contradiction|].
    destruct (String.eqb_spec mode "keep"); [contradiction|].
    eexists. reflexivity.
  - intros e He.
    destruct (String.eqb_spec mode "remove"); [discriminate He|].
    destruct (String.eqb_spec mode "convert-to-named"); [discriminate He|].
    destruct (String.eqb_spec mode "keep"); [discriminate He|].
    now inversion He.
  - intros [-> | [-> | ->]]; cbn [String.eqb Ascii.eqb Bool.eqb];
      eexists; reflexivity.
  - reflexivity.
Qed.

Lemma remove_services_have_no_volumes (svcs : list (string * ServiceConfig))
    (name : string) (cfg : ServiceConfig) :
  In (name, cfg) (map remove_service_step svcs) -> volumes cfg = None.
Proof.
  intros Hin. apply in_map_iff in Hin as ([n c] & Heq & _).
  unfold remove_service_step in Heq. now inversion Heq.
Qed.

(** C6: in mode [remove], for every document, the result has no
    [volumes] key, neither in a service nor at the top level, and no
    variable is generated; the services keep their names and order. *)
Theorem transform_volumes_remove (data : ComposeDocument) :
  exists data',
    transform_volumes data "remove" = Returned (data', [])
    /\ top_volumes data' = None
    /\ (forall name cfg, In (name, cfg) (get_services data') -> volumes cfg = None)
    /\ map fst (get_services data') = map fst (get_services data).
Proof.
  eexists. split; [reflexivity|]. split; [reflexivity|].
  unfold get_services, put_services.
  destruct (services data) as [svcs|] eqn:E;
    cbn [set_top_volumes set_services services]; [|rewrite E]; split.
  - apply remove_services_have_no_volumes.
  - rewrite map_map. reflexivity.
  - intros name cfg [].
  - reflexivity.
Qed.

(** The specification's example: the bind mount [./data:/var/lib/data]
    of [db] gets the name [db-f1af289d], registered at the top level
    next to the volume that was there; the named volume and the long
    syntax are kept. *)
Example transform_volumes_db :
  transform_volumes db_document "convert-to-named"
  = Returned
      (mkDocument
         (Some [("db", mkService None
                         (Some [VolStr "${DB_VOLUME:-db-f1af289d}:/var/lib/data";
                                VolStr "pgdata:/pg";
                                VolOther (YMap [("type", YStr "tmpfs")])])
                         None []);
                ("cache", mkService (Some [PortInt 6379]) None None [])])
         (Some [("pgdata", YNull); ("db-f1af289d", YNull)]) None [],
       [("DB_VOLUME", "db-f1af289d")]).
Proof. vm_compute. reflexivity. Qed.

(* ===================================================================== *)
(** ** Claims about [safeify_compose] and its command line *)
(* ===================================================================== *)

(** On a key of both mappings the value of the second one is kept, at the
    place the key has in the first. *)
Example combine_env_vars_collision :
  combine_env_vars [("A_VOLUME", "a-0123abcd"); ("SHARED", "volume")]
                   [("SHARED", "port"); ("A_PORT", "80")]
  = [("A_VOLUME", "a-0123abcd"); ("SHARED", "port"); ("A_PORT", "80")].
Proof. reflexivity. Qed.

Lemma combine_env_vars_get (volume_vars port_vars : EnvVarSet) (k : string) :
  Dict.get k (combine_env_vars volume_vars port_vars)
  = match Dict.get k (rev port_vars) with
    | Some v => Some v
    | None => Dict.get k volume_vars
    end.
Proof. apply get_update. Qed.

(** The variables of [make_multi_instance_safe] have pairwise distinct
    names or not; either way the mapping it returns is a dictionary in
    which each key occurs once. *)
Lemma keys_set_NoDup {V : Type} (d : Dict.t V) (k : string) (v : V) :
  NoDup (Dict.keys d) -> NoDup (Dict.keys (Dict.set k v d)).
Proof.
  induction d as [|[k' v'] rest IH]; simpl; intros Hnd.
  - constructor; [intros []|constructor].
  - inversion Hnd as [|? ? Hnotin Hnd']; subst.
    destruct (String.eqb_spec k' k); simpl; constructor; auto.
    intros Hin. apply Hnotin.
    clear - Hin n. induction rest as [|[k0 v0] rest IH]; simpl in *.
    + destruct Hin as [->|[]]. contradiction.
    + destruct (String.eqb_spec k0 k); simpl in Hin; [exact Hin|].
      destruct Hin as [->|Hin]; [now left|right; auto].
Qed.

Lemma keys_update_NoDup {V : Type} (d other : Dict.t V) :
  NoDup (Dict.keys d) -> NoDup (Dict.keys (Dict.update d other)).
Proof.
  revert d. induction other as [|[k v] rest IH]; intros d Hnd; [exact Hnd|].
  apply (IH (Dict.set k v d)), keys_set_NoDup, Hnd.
Qed.

Lemma get_rev_NoDup {V : Type} (d : Dict.t V) (k : string) :
  NoDup (Dict.keys d) -> Dict.get k (rev d) = Dict.get k d.
Proof.
  induction d as [|[k' v'] rest IH]; intros Hnd; [reflexivity|].
  inversion Hnd as [|? ? Hnotin Hnd']; subst.
  simpl. rewrite get_app, (IH Hnd'). simpl.
  destruct (String.eqb_spec k' k).
  - subst. apply get_none_iff in Hnotin. now rewrite Hnotin.
  - now destruct (Dict.get k rest).
Qed.

Lemma port_env_vars_NoDup (data : ComposeDocument) :
  NoDup (Dict.keys (snd (make_multi_instance_safe data))).
Proof.
  rewrite make_multi_instance_safe_unfold. cbn [snd].
  apply keys_update_NoDup. constructor.
Qed.

Lemma safeify_compose_with_its_functions :
  safeify_compose
  = safeify_compose_with transform_volumes make_multi_instance_safe.
Proof. reflexivity. Qed.

(** C9: [safeify_compose] is its body run with [transform_volumes] and
    [make_multi_instance_safe]; whatever two mappings these return, when
    it returns, every key of the port variables has the port variable's
    value in its variables, in particular every key present in both
    mappings, and the other keys have the value of the volume
    variables. *)
Theorem safeify_compose_ports_win
    (transform :
       ComposeDocument -> string -> outcome (ComposeDocument * EnvVarSet))
    (make_safe : ComposeDocument -> ComposeDocument * EnvVarSet)
    (load : string -> outcome ComposeDocument)
    (input_path volumes_option : string) (output_path : option string)
    (result : Safeified) :
  safeify_compose_with transform make_safe load input_path volumes_option
    output_path = Returned result ->
  safeify_compose
  = safeify_compose_with transform_volumes make_multi_instance_safe
  /\ exists data data1 volume_env_vars data2 port_env_vars,
       load input_path = Returned data
       /\ transform data volumes_option = Returned (data1, volume_env_vars)
       /\ make_safe data1 = (data2, port_env_vars)
       /\ (NoDup (Dict.keys port_env_vars) ->
           forall k volume_value port_value,
             Dict.get k volume_env_vars = Some volume_value ->
             Dict.get k port_env_vars = Some port_value ->
             Dict.get k (env_vars result) = Some port_value)
       /\ (NoDup (Dict.keys port_env_vars) ->
           forall k port_value,
             Dict.get k port_env_vars = Some port_value ->
             Dict.get k (env_vars result) = Some port_value)
       /\ (forall k, Dict.get k port_env_vars = None ->
                     Dict.get k (env_vars result)
                     = Dict.get k volume_env_vars).
Proof.
  unfold safeify_compose_with. intros H. split; [reflexivity|].
  destruct (load input_path) as [data|e] eqn:Hload; [|discriminate H].
  destruct (transform data volumes_option) as [[data1 venv]|e] eqn:Htv;
    [|discriminate H].
  destruct (make_safe data1) as [data2 penv] eqn:Hsafe.
  inversion H; subst result; clear H. cbn [env_vars].
  exists data, data1, venv, data2, penv.
  do 3 (split; [assumption || reflexivity|]).
  assert (Hwin : NoDup (Dict.keys penv) ->
                 forall k v, Dict.get k penv = Some v ->
                             Dict.get k (combine_env_vars venv penv) = Some v).
  { intros Hnd k v Hk.
    now rewrite combine_env_vars_get, get_rev_NoDup, Hk by exact Hnd. }
  split; [intros Hnd k vv pv _ Hk; now apply Hwin|].
  split; [exact Hwin|].
  intros k Hk. apply get_none_iff in Hk.
  assert (E : Dict.get k (rev penv) = None).
  { apply get_none_iff. unfold Dict.keys in *. rewrite map_rev.
    intros Hin. apply Hk, in_rev, Hin. }
  now rewrite combine_env_vars_get, E.
Qed.

Lemma safeify_compose_ports_win_witness :
  safeify_compose_with colliding_volumes colliding_ports load_web_api
    "docker-compose.yml" "keep" None
  = Returned
      (mkSafeified "docker-compose.safe.yml" web_api_document
         [("A_VOLUME", "a-0123abcd"); ("SHARED", "port"); ("A_PORT", "80")]
         ["A_VOLUME=a-0123abcd"; "SHARED=port"; "A_PORT=80"])
  /\ exists data data1 volume_env_vars data2 port_env_vars,
       load_web_api "docker-compose.yml" = Returned data
       /\ colliding_volumes data "keep" = Returned (data1, volume_env_vars)
       /\ colliding_ports data1 = (data2, port_env_vars)
       /\ Dict.get "SHARED" volume_env_vars = Some "volume"
       /\ Dict.get "SHARED" port_env_vars = Some "port"
       /\ (NoDup (Dict.keys port_env_vars) ->
           forall k volume_value port_value,
             Dict.get k volume_env_vars = Some volume_value ->
             Dict.get k port_env_vars = Some port_value ->
             Dict.get k [("A_VOLUME", "a-0123abcd"); ("SHARED", "port");
                         ("A_PORT", "80")]
             = Some port_value).
Proof.
  split; [reflexivity|].
  destruct (safeify_compose_ports_win colliding_volumes colliding_ports
              load_web_api "docker-compose.yml" "keep" None _ eq_refl)
    as (_ & data & data1 & venv & data2 & penv & Hl & Hv & Hp & Hboth & _).
  exists data, data1, venv, data2, penv.
  split; [exact Hl|]. split; [exact Hv|]. split; [exact Hp|].
  inversion Hv; subst. inversion Hp; subst.
  split; [reflexivity|]. split; [reflexivity|]. exact Hboth.
Defined.

(** With exactly one existing match and no option, [cli] ends on the
    attribute [output_path], which [parse_args] never sets; the status of
    the process is 1, and nothing is transformed. *)
Example cli_one_compose_file :
  cli no_options one_compose_file
  = Raised (AttributeError "'Namespace' object has no attribute 'output_path'")
  /\ exit_status (cli no_options one_compose_file) = 1%Z.
Proof. split; reflexivity. Qed.

Lemma parse_args_has_no_output_path (cl : CommandLine) (args : Namespace) :
  parse_args cl = Returned args ->
  getattr args "output_path"
  = Raised (AttributeError "'Namespace' object has no attribute 'output_path'")
  /\ exists pattern, getattr args "compose_file" = Returned pattern.
Proof.
  unfold parse_args.
  destruct (existsb _ volumes_choices); [|discriminate].
  intros H. inversion H; subst. split; [reflexivity|]. eexists. reflexivity.
Qed.

(** C4, on the code: [cli] never ends with status 0.  Where the glob has
    exactly one match and the file exists, the call
    [safeify_compose(input_path, args.output_path, args.volumes)] raises
    on [args.output_path] before [safeify_compose] is entered. *)
Theorem cli_never_exits_zero (cl : CommandLine) (fs : FileSystem) :
  exit_status (cli cl fs) <> 0%Z
  /\ (forall args pattern input_path,
        parse_args cl = Returned args ->
        Dict.get "compose_file" args = Some pattern ->
        glob fs pattern = [input_path] ->
        path_exists fs input_path = true ->
        cli cl fs
        = Raised (AttributeError
                    "'Namespace' object has no attribute 'output_path'")).
Proof.
  unfold cli. split.
  - destruct (parse_args cl) as [args|e] eqn:Hparse.
    + destruct (parse_args_has_no_output_path cl args Hparse)
        as (Hout & pattern & Hpat).
      rewrite Hpat, Hout.
      destruct (glob fs pattern) as [|first [|second others]];
        cbn [List.length Nat.ltb Nat.leb]; try discriminate.
      destruct (path_exists fs first); cbn [negb]; discriminate.
    + unfold parse_args in Hparse.
      destruct (existsb _ volumes_choices); [discriminate|].
      inversion Hparse. discriminate.
  - intros args pattern input_path Hparse Hpat Hglob Hexists.
    rewrite Hparse.
    destruct (parse_args_has_no_output_path cl args Hparse) as (Hout & _).
    unfold getattr at 1. rewrite Hpat, Hglob, Hout. cbn [List.length Nat.ltb Nat.leb].
    now rewrite Hexists.
Qed.

(* ===================================================================== *)
(** ** The workspace lifecycle manager: a program logic *)
(* ===================================================================== *)

Import Logic.

Section Lifecycle.

Variable sc : Scenario.

Local Abbreviation delivered := (Logic.delivered sc).
Local Abbreviation Inv := (Logic.Inv sc).
Local Abbreviation inv_started := (Logic.inv_started sc).
Local Abbreviation inv_down := (Logic.inv_down sc).
Local Abbreviation inv_safe := (Logic.inv_safe sc).
Local Abbreviation inv_kept := (Logic.inv_kept sc).
Local Abbreviation deletes := (Logic.deletes sc).
Local Abbreviation taken := (Logic.taken sc).
Local Abbreviation down_if_started := (Logic.down_if_started sc).
Local Abbreviation stable := (Logic.stable sc).
Local Abbreviation triple := (Logic.triple sc).
Local Abbreviation calm := (Logic.calm sc).
Local Abbreviation by_signal := (Logic.by_signal sc).
Local Abbreviation interrupted := (Logic.interrupted sc).
Local Abbreviation finished := (Logic.finished sc).
Local Abbreviation after_base_branch := (Logic.after_base_branch sc).

Lemma triple_bind {A B : Type} (P : World -> Prop) (m : M A) (f : A -> M B)
    (Q : A -> World -> Prop) (R : B -> World -> Prop)
    (E : PyExc -> World -> Prop) :
  triple P m Q E -> (forall a, triple (Q a) (f a) R E) ->
  triple P (bind m f) R E.
Proof.
  intros Hm Hf w Hinv HP. unfold bind.
  destruct (Hm w Hinv HP) as [Hinv' Hpost].
  destruct (m w) as [[a|e] w']; cbn [fst snd] in *.
  - exact (Hf a w' Hinv' Hpost).
  - split; assumption.
Qed.

Lemma triple_ret {A : Type} (P : World -> Prop) (a : A)
    (Q : A -> World -> Prop) (E : PyExc -> World -> Prop) :
  (forall w, P w -> Q a w) -> triple P (ret a) Q E.
Proof. intros H w Hinv HP. split; [exact Hinv|]. cbn. auto. Qed.

Lemma triple_raise {A : Type} (P : World -> Prop) (e : PyExc)
    (Q : A -> World -> Prop) (E : PyExc -> World -> Prop) :
  (forall w, P w -> E e w) -> triple P (raise e) Q E.
Proof. intros H w Hinv HP. split; [exact Hinv|]. cbn. auto. Qed.

Lemma triple_assume {A : Type} (P : World -> Prop) (fact : Prop) (m : M A)
    (Q : A -> World -> Prop) (E : PyExc -> World -> Prop) :
  (fact -> triple P m Q E) -> triple (fun w => P w /\ fact) m Q E.
Proof. intros H w Hinv [HP Hfact]. exact (H Hfact w Hinv HP). Qed.

Lemma triple_weaken {A : Type} (P P' : World -> Prop) (m : M A)
    (Q Q' : A -> World -> Prop) (E E' : PyExc -> World -> Prop) :
  triple P m Q E ->
  (forall w, P' w -> P w) ->
  (forall a w, Q a w -> Q' a w) ->
  (forall e w, E e w -> E' e w) ->
  triple P' m Q' E'.
Proof.
  intros Hm HP HQ HE w Hinv HP'.
  destruct (Hm w Hinv (HP w HP')) as [Hinv' Hpost]. split; [exact Hinv'|].
  destruct (fst (m w)); auto.
Qed.

Lemma taken_log (w : World) (ev : Event) :
  taken w -> taken (snd (log ev w)).
Proof.
  unfold Logic.taken. cbn [log snd trace]. intros H.
  rewrite existsb_app, H. reflexivity.
Qed.

(** [taken], spelled out. *)
Lemma taken_command (w : World) :
  taken w <->
  exists c, In (Ran c) (trace w)
            /\ executable_of c <> Git
            /\ installed sc (executable_of c) = true
            /\ removes_safe_compose sc c = true.
Proof.
  unfold Logic.taken. rewrite existsb_exists. split.
  - intros ([c| | | | | | | |s] & Hin & Hdel); try discriminate Hdel.
    cbn [Logic.deletes] in Hdel. exists c. split; [exact Hin|].
    destruct (executable_of c); [discriminate Hdel| |];
      apply andb_true_iff in Hdel; (split; [discriminate|exact Hdel]).
  - intros (c & Hin & Hg & Hi & Hr). exists (Ran c). split; [exact Hin|].
    cbn [Logic.deletes]. destruct (executable_of c); [now elim Hg| |];
      now rewrite Hi, Hr.
Qed.

Lemma down_log (w : World) (ev : Event) :
  down_if_started w -> down_if_started (snd (log ev w)).
Proof.
  intros H Hs. destruct (H Hs) as [Hin|Ht].
  - left. cbn [log snd trace]. apply in_or_app. now left.
  - right. now apply taken_log.
Qed.

Lemma Inv_log (w : World) (ev : Event) :
  plain ev -> Inv w -> Inv (snd (log ev w)).
Proof.
  intros [Hev Hrm] [H1 H2 H3 H4]. constructor; cbn [log snd trace
    docker_started safe_compose_exists workspace_exists].
  - exact H1.
  - intros Hin. apply in_app_or in Hin as [Hin|[Heq|[]]]; [auto|].
    exfalso. exact (Hev Heq).
  - intros Hs. destruct (H3 Hs) as [Hsafe|[Hin|Ht]]; [now left|right; left|].
    + apply in_or_app. now left.
    + right. right. now apply (taken_log w ev).
  - intros Hf Hin. apply in_app_or in Hin as [Hin|[Heq|[]]]; [auto|].
    exfalso. exact (Hrm Heq).
Qed.

(** [rmtree] is started on a workspace that exists. *)
Lemma Inv_log_rmtree (w : World) :
  Inv w -> workspace_exists w = true -> Inv (snd (log Rmtree w)).
Proof.
  intros [H1 H2 H3 H4] Hws. constructor; cbn [log snd trace
    docker_started safe_compose_exists workspace_exists].
  - exact H1.
  - intros Hin. apply in_app_or in Hin as [Hin|[Heq|[]]]; [auto|].
    discriminate Heq.
  - intros Hs. destruct (H3 Hs) as [Hsafe|[Hin|Ht]]; [now left|right; left|].
    + apply in_or_app. now left.
    + right. right. now apply (taken_log w Rmtree).
  - intros _ _. exact Hws.
Qed.

(** Deleting the safe Compose file keeps the invariant once the stack
    was taken down, if it was started. *)
Lemma Inv_delete (w : World) :
  Inv w -> down_if_started w ->
  Inv (snd (set_safe_compose_exists false w)).
Proof.
  intros [H1 H2 H3 H4] Hdown. constructor; cbn [set_safe_compose_exists
    snd trace docker_started safe_compose_exists workspace_exists];
    try assumption.
  intros Hs. right. exact (Hdown Hs).
Qed.

Lemma Inv_tick (w : World) : Inv w -> Inv (snd (tick w)).
Proof. intros [H1 H2 H3 H4]. constructor; assumption. Qed.

Ltac plain_event := split; (discriminate || congruence).

Lemma triple_get_world {A : Type} (P : World -> Prop) (f : World -> M A)
    (Q : A -> World -> Prop) (E : PyExc -> World -> Prop) :
  (forall v, triple (fun w => P w /\ w = v) (f v) Q E) ->
  triple P (bind get_world f) Q E.
Proof.
  intros H w Hinv HP. unfold bind, get_world. exact (H w w Hinv (conj HP eq_refl)).
Qed.

Lemma log_spec (P : World -> Prop) (ev : Event) (Q : unit -> World -> Prop)
    (E : PyExc -> World -> Prop) :
  plain ev -> (forall w, P w -> Q tt (snd (log ev w))) ->
  triple P (log ev) Q E.
Proof.
  intros Hev H w Hinv HP. split; [now apply Inv_log|]. exact (H w HP).
Qed.

Lemma stable_tick (G : World -> Prop) (w : World) :
  stable G -> G w -> G (snd (tick w)).
Proof. intros HG Hg. apply (HG w Hg). Qed.

Lemma stable_log (G : World -> Prop) (w : World) (ev : Event) :
  stable G -> ev <> CleanupCompleted -> G w -> G (snd (log ev w)).
Proof. intros HG Hev Hg. now apply (HG w Hg). Qed.

Lemma stable_delete (G : World -> Prop) (w : World) :
  stable G -> taken w -> G w -> G (snd (set_safe_compose_exists false w)).
Proof. intros HG Ht Hg. now apply (HG w Hg). Qed.

Lemma stable_unfinished : stable unfinished.
Proof.
  intros w H. split; [exact H|]. split; [|intros _; exact H].
  intros ev Hev Hin. apply H.
  cbn [log snd trace] in Hin. apply in_app_or in Hin as [Hin|[Heq|[]]]; auto.
  now elim Hev.
Qed.

Lemma stable_and (G H : World -> Prop) :
  stable G -> stable H -> stable (fun w => G w /\ H w).
Proof.
  intros HG HH w [Hg Hh]. destruct (HG w Hg) as (Hg1 & Hg2 & Hg3).
  destruct (HH w Hh) as (Hh1 & Hh2 & Hh3). split; [split; assumption|].
  split; [intros ev Hev|intros Ht]; split; auto.
Qed.

(** The safe Compose file is there unless a command has deleted it. *)
Lemma stable_safe : stable (fun w => safe_compose_exists w = true \/ taken w).
Proof.
  intros w H. split; [exact H|]. split.
  - intros ev _. destruct H as [H|H]; [now left|right]. now apply taken_log.
  - intros Ht. right. exact Ht.
Qed.

Lemma stable_trace (T : list Event -> Prop) :
  grows T -> stable (fun w => T (trace w)).
Proof.
  intros HT w H. split; [exact H|]. split; [|intros _; exact H].
  intros ev Hev. now apply HT.
Qed.

Lemma stable_ran (ev : Event) : stable (fun w => In ev (trace w)).
Proof.
  apply (stable_trace (fun tr => In ev tr)). intros tr ev' _ Hin.
  apply in_or_app. now left.
Qed.

Lemma stable_down : stable down_if_started.
Proof.
  intros w H. split; [exact H|]. split; [|intros _; exact H].
  intros ev _. now apply down_log.
Qed.

Lemma stable_workspace (b : bool) : stable (fun w => workspace_exists w = b).
Proof. intros w H. split; [exact H|]. split; [intros ev _|intros _]; exact H. Qed.

Lemma stable_not_started : stable not_started.
Proof.
  apply stable_and; [apply stable_unfinished|].
  intros w H. split; [exact H|]. split; [intros ev _|intros _]; exact H.
Qed.

(** Where the [git] commands are run the stack is not started, and
    nothing depends on the safe Compose file. *)
Lemma not_started_git (c : Command) :
  executable_of c = Git ->
  forall w, not_started w ->
    docker_started w = false
    /\ not_started (snd (set_safe_compose_exists false w)).
Proof. intros _ w [Hu Hs]. split; [exact Hs|]. split; assumption. Qed.

Lemma Inv_log_down (w : World) :
  Inv w -> docker_started w = true -> Inv (snd (log (Ran ComposeDown) w)).
Proof.
  intros [H1 H2 H3 H4] Hs. constructor;
    cbn [log snd trace docker_started safe_compose_exists workspace_exists];
    auto.
  - intros _. right. left. apply in_or_app. right. now left.
  - intros Hf Hin. apply in_app_or in Hin as [Hin|[Heq|[]]]; [auto|].
    discriminate Heq.
Qed.

(** What a command does to the safe Compose file; a [git] command is run
    where the stack is not started and [G] does not look at the file. *)
Lemma delete_spec (D G : World -> Prop) (c : Command)
    (E : PyExc -> World -> Prop) :
  (forall w w', clock w' = clock w -> D w -> D w') ->
  stable G -> installed sc (executable_of c) = true ->
  (executable_of c = Git ->
   forall w, G w -> docker_started w = false
                    /\ G (snd (set_safe_compose_exists false w))) ->
  triple (fun w => D w /\ G w /\ In (Ran c) (trace w))
         (if removes_safe_compose sc c then set_safe_compose_exists false
          else ret tt)
         (fun _ w => D w /\ G w) E.
Proof.
  intros HD HG Hi Hgit w Hinv (Hd & Hg & Hin).
  destruct (removes_safe_compose sc c) eqn:Hdel.
  - destruct (executable_of c) eqn:Hexe.
    + destruct (Hgit eq_refl w Hg) as [Hs Hg'].
      split; [apply Inv_delete; [exact Hinv|intros Hs'; congruence]|].
      cbn [fst snd]. split; [now apply (HD w)|exact Hg'].
    + assert (Ht : taken w).
      { apply taken_command. exists c. rewrite Hexe.
        split; [exact Hin|]. split; [discriminate|now split]. }
      split; [apply Inv_delete; [exact Hinv|intros _; now right]|].
      cbn [fst snd]. split; [now apply (HD w)|now apply stable_delete].
    + assert (Ht : taken w).
      { apply taken_command. exists c. rewrite Hexe.
        split; [exact Hin|]. split; [discriminate|now split]. }
      split; [apply Inv_delete; [exact Hinv|intros _; now right]|].
      cbn [fst snd]. split; [now apply (HD w)|now apply stable_delete].
  - split; [exact Hinv|]. cbn [ret fst snd]. split; assumption.
Qed.

(** The teardown, over what happens at its interruption points: there,
    in the worlds of [D], the script goes on with [D] and whatever is
    stable, or is ended as [Ei] says. *)
Section Handler.

Variable interruptible : M unit.
Variable D : World -> Prop.
Variable Ei : PyExc -> World -> Prop.

Hypothesis D_clock : forall w w', clock w' = clock w -> D w -> D w'.
Hypothesis interruptible_spec :
  forall G, stable G ->
    triple (fun w => D w /\ G w) interruptible (fun _ w => D w /\ G w) Ei.

(** [down] in the teardown: its status is not looked at. *)
Lemma run_down (G : World -> Prop) :
  stable G ->
  triple (fun w => D w /\ G w /\ docker_started w = true)
         (run_cmd sc interruptible ComposeDown false)
         (fun _ w => D w /\ G w /\ In (Ran ComposeDown) (trace w))
         Ei.
Proof.
  intros HG. unfold run_cmd. cbn [executable_of andb].
  set (G' := fun w => G w /\ In (Ran ComposeDown) (trace w)).
  assert (HG' : stable G')
    by (apply stable_and; [exact HG|apply stable_ran]).
  apply triple_bind
    with (Q := fun _ w => (D w /\ G' w) /\ docker_started w = true).
  - intros w Hinv (Hd & Hg & Hs). split; [now apply Inv_log_down|].
    cbn [fst]. split; [split; [now apply (D_clock w)|split]|exact Hs].
    + apply stable_log; [exact HG|discriminate|exact Hg].
    + cbn [log snd trace]. apply in_or_app. right. now left.
  - intros u. destruct (installed sc Docker) eqn:Hi.
    + apply triple_bind with (Q := fun _ w => D w /\ G' w).
      * eapply triple_weaken;
          [apply (delete_spec D G' ComposeDown Ei D_clock HG' Hi);
           discriminate| |auto|auto].
        intros w [[Hd [Hg Hin]] _]. repeat split; assumption.
      * intros u'. apply triple_bind with (Q := fun _ w => D w /\ G' w);
          [apply interruptible_spec, HG'|].
        intros u''. apply triple_ret. intros w [Hd [Hg Hin]].
        repeat split; assumption.
    + intros w Hinv [_ Hs]. destruct (inv_started w Hinv Hs) as [Hi' _].
      congruence.
Qed.

Lemma cleanup_docker_runs (G : World -> Prop) :
  stable G ->
  triple (fun w => D w /\ G w /\ docker_started w = true)
         (cleanup_docker sc interruptible)
         (fun _ w => D w /\ G w /\ down_if_started w)
         Ei.
Proof.
  intros HG. unfold cleanup_docker. apply triple_get_world. intros v.
  destruct (safe_compose_exists v) eqn:Hsafe.
  - eapply triple_bind.
    + eapply triple_weaken;
        [apply (run_down G HG)|intros w [H _]; exact H
        |intros a w H; exact H|auto].
    + intros rc. apply triple_ret. intros w (Hd & Hg & Hin).
      split; [exact Hd|]. split; [exact Hg|]. intros _. now left.
  - intros w Hinv [(Hd & Hg & Hs) Heq]. subst w. split; [exact Hinv|].
    cbn [ret fst snd]. split; [exact Hd|]. split; [exact Hg|]. intros _.
    destruct (inv_safe v Hinv Hs) as [Hsafe'|H]; [congruence|exact H].
Qed.

(** [rmtree] removes the workspace, or fails and leaves it. *)
Lemma cleanup_workspace_runs (T : list Event -> Prop) (b : bool) :
  grows T ->
  triple (fun w => D w /\ (T (trace w) /\ down_if_started w)
                   /\ workspace_exists w = b)
         (cleanup_workspace sc interruptible)
         (fun _ w => D w /\ (T (trace w) /\ down_if_started w)
                     /\ workspace_exists w = false
                     /\ (b = true -> rmtree_fails sc = false))
         (fun e w => Ei e w
                     \/ (D w /\ (T (trace w) /\ down_if_started w)
                         /\ rmtree_fails sc = true
                         /\ workspace_exists w = true
                         /\ e = OtherException "OSError")).
Proof.
  intros HT. unfold cleanup_workspace. apply triple_get_world. intros v.
  set (G := fun w => (T (trace w) /\ down_if_started w)
                     /\ workspace_exists w = true).
  assert (HG : stable G).
  { apply stable_and; [apply stable_and|apply stable_workspace].
    - now apply stable_trace.
    - apply stable_down. }
  destruct (workspace_exists v) eqn:Hws.
  - apply triple_bind with (Q := fun _ w => D w /\ G w).
    { intros w Hinv [(Hd & Hg & Hb) Heq]. subst w.
      split; [now apply Inv_log_rmtree|]. cbn [fst].
      split; [now apply (D_clock v)|].
      apply stable_log; [exact HG|discriminate|]. split; assumption. }
    intros u. apply triple_bind with (Q := fun _ w => D w /\ G w).
    { eapply triple_weaken; [apply (interruptible_spec G HG)|auto|auto|].
      intros e w H. now left. }
    intros u'. destruct (rmtree_fails sc) eqn:Hrm.
    + apply triple_bind with (Q := fun _ w => D w /\ G w).
      * intros w Hinv [Hd [[Ht Hdown] Hw]].
        destruct (rmtree_takes_safe_compose sc).
        -- split; [now apply Inv_delete|]. cbn [fst snd].
           split; [now apply (D_clock w)|]. split; [split|]; assumption.
        -- split; [exact Hinv|]. cbn [ret fst snd]. split; [exact Hd|].
           split; [split|]; assumption.
      * intros u''. apply triple_raise. intros w [Hd [Hg Hw]]. right.
        split; [exact Hd|]. split; [exact Hg|]. auto.
    + intros w [H1 H2 H3 H4] [Hd [[Ht Hdown] Hw]]. split.
      * constructor; cbn [set_workspace_exists snd docker_started trace
                          safe_compose_exists workspace_exists]; auto.
        intros Hf. congruence.
      * cbn [set_workspace_exists fst snd workspace_exists].
        split; [now apply (D_clock w)|]. split; [split; assumption|].
        split; reflexivity.
  - intros w Hinv [(Hd & Hg & Hb) Heq]. subst w. split; [exact Hinv|].
    cbn [ret fst snd]. split; [exact Hd|]. split; [exact Hg|].
    split; [exact Hws|]. intros ->. congruence.
Qed.

(** [cleanup_handler] never returns: it exits with [handler_status]
    after the teardown, with [down] if the stack was started and its
    safe Compose file was there, or it fails in [rmtree]. *)
Lemma cleanup_handler_runs (T : list Event -> Prop) (sig : option Signal)
    (b : bool) :
  grows T ->
  triple (fun w => D w /\ T (trace w) /\ workspace_exists w = b)
         (cleanup_handler sc interruptible sig)
         (fun _ _ => False)
         (fun e w =>
            Ei e w
            \/ (D w /\ In CleaningUp (trace w) /\ down_if_started w
                /\ match e with
                   | SystemExit code =>
                       code = handler_status sig /\ torn_down w
                       /\ (b = true -> rmtree_fails sc = false)
                   | _ => rmtree_fails sc = true
                          /\ workspace_exists w = true
                          /\ T (trace w)
                          /\ e = OtherException "OSError"
                   end)).
Proof.
  intros HT. unfold cleanup_handler.
  set (T' := fun tr => T tr /\ In CleaningUp tr).
  assert (HT' : grows T').
  { intros tr ev Hev [Ht Hin]. split; [now apply HT|].
    apply in_or_app. now left. }
  set (G0 := fun w => T' (trace w) /\ workspace_exists w = b).
  assert (HG0 : stable G0)
    by (apply stable_and; [now apply stable_trace|apply stable_workspace]).
  apply triple_bind with (Q := fun _ w => D w /\ G0 w).
  { apply log_spec; [plain_event|]. intros w (Hd & Ht & Hb).
    split; [now apply (D_clock w)|]. split; [split|exact Hb].
    - apply HT; [discriminate|exact Ht].
    - cbn [log snd trace]. apply in_or_app. right. now left. }
  intros u. apply triple_get_world. intros v.
  apply triple_bind
    with (Q := fun _ w => D w /\ (T' (trace w) /\ down_if_started w)
                          /\ workspace_exists w = b).
  { destruct (docker_started v) eqn:Hs.
    - eapply triple_weaken; [apply (cleanup_docker_runs G0 HG0)| | |].
      + intros w [[Hd Hg] Heq]. subst w. repeat split; try assumption;
          apply Hg.
      + intros a w (Hd & [Ht Hb] & Hdown). repeat split; try assumption;
          apply Ht.
      + intros e w H. now left.
    - apply triple_ret. intros w [[Hd [Ht Hb]] Heq]. subst w.
      split; [exact Hd|]. split; [split; [exact Ht|]|exact Hb].
      intros Hs'. congruence. }
  intros u'. apply triple_bind
    with (Q := fun _ w => D w /\ (T' (trace w) /\ down_if_started w)
                          /\ workspace_exists w = false
                          /\ (b = true -> rmtree_fails sc = false)).
  { eapply triple_weaken; [apply (cleanup_workspace_runs T' b HT')|auto|auto|].
    intros e w [H|(Hd & [[Ht Hc] Hdown] & Hrm & Hw & He)]; [now left|right].
    subst e. split; [exact Hd|]. split; [exact Hc|]. split; [exact Hdown|].
    repeat split; assumption. }
  intros u''. apply triple_bind
    with (Q := fun _ w => D w /\ torn_down w /\ down_if_started w
                          /\ (b = true -> rmtree_fails sc = false)).
  { apply log_spec; [plain_event|].
    intros w (Hd & [[Ht Hc] Hdown] & Hw & Hb).
    split; [now apply (D_clock w)|]. split; [|split; [|exact Hb]].
    - split; [exact Hw|]. cbn [log snd trace].
      split; apply in_or_app; [now left|right; now left].
    - now apply down_log. }
  intros u3. apply triple_raise. intros w (Hd & Htorn & Hdown & Hb). right.
  split; [exact Hd|]. split; [apply Htorn|]. split; [exact Hdown|].
  split; [now destruct sig|]. split; assumption.
Qed.

End Handler.

(** The handler, run where no signal can arrive any more: it never
    returns; it runs [down] if the stack was started and its safe
    Compose file is there, whatever [down] returns; unless [rmtree]
    fails it removes the workspace and exits with [handler_status]. *)
Lemma handler_runs (n : nat) (sig : option Signal) (w : World) :
  Inv w -> n < clock w ->
  let r := cleanup_handler sc (ret tt) sig w in
  Inv (snd r)
  /\ n < clock (snd r)
  /\ In CleaningUp (trace (snd r))
  /\ down_if_started (snd r)
  /\ ((fst r = Raised (SystemExit (handler_status sig))
       /\ torn_down (snd r))
      \/ (rmtree_fails sc = true
          /\ fst r = Raised (OtherException "OSError")
          /\ workspace_exists (snd r) = true)).
Proof.
  intros Hinv Hn.
  assert (Hclock : forall v v' : World,
            clock v' = clock v -> n < clock v -> n < clock v')
    by (intros v v' Heq Hlt; lia).
  assert (Hret : forall G, stable G ->
            triple (fun v => n < clock v /\ G v) (ret tt)
                   (fun _ v => n < clock v /\ G v) (fun _ _ => False))
    by (intros G _; apply triple_ret; auto).
  destruct (cleanup_handler_runs (ret tt) (fun v => n < clock v)
              (fun _ _ => False) Hclock Hret (fun _ => True) sig
              (workspace_exists w) (fun _ _ _ _ => I) w Hinv
              (conj Hn (conj I eq_refl))) as [Hinv' Hpost].
  cbn zeta. split; [exact Hinv'|].
  destruct (fst (cleanup_handler sc (ret tt) sig w)) as [u|e];
    [contradiction|].
  destruct Hpost as [[]|(Hlt & Hc & Hdown & Hcase)].
  split; [exact Hlt|]. split; [exact Hc|]. split; [exact Hdown|].
  destruct e; try (right; destruct Hcase as (Hrm & Hws & _ & He);
                   rewrite He; now auto).
  left. destruct Hcase as (-> & Htorn & _). split; [reflexivity|exact Htorn].
Qed.

(** [checkpoint], step by step. *)
Lemma checkpoint_run (w : World) :
  checkpoint sc w
  = match signal sc with
    | Some (n, s) =>
        if Nat.eqb n (clock w)
        then cleanup_handler sc (ret tt) (Some s)
               (snd (log (Handler s) (snd (tick w))))
        else (Returned tt, snd (tick w))
    | None => (Returned tt, snd (tick w))
    end.
Proof.
  unfold checkpoint, bind, get_world. cbn [tick fst snd].
  destruct (signal sc) as [[n s]|]; [|reflexivity].
  destruct (Nat.eqb n (clock w)); reflexivity.
Qed.

(** Before the signal: [checkpoint] returns, or the handler ends it. *)
Lemma checkpoint_spec (G : World -> Prop) :
  stable G ->
  triple (calm G) (checkpoint sc) (fun _ => calm G) by_signal.
Proof.
  intros HG w Hinv [Hnot HGw]. rewrite checkpoint_run.
  destruct (signal sc) as [[n s]|] eqn:Hsig.
  - destruct (Nat.eqb_spec n (clock w)) as [Heq|Hne].
    + assert (Hinv2 : Inv (snd (log (Handler s) (snd (tick w)))))
        by (apply Inv_log; [plain_event|]; apply Inv_tick, Hinv).
      assert (Hn : n < clock (snd (log (Handler s) (snd (tick w)))))
        by (cbn [log tick snd clock]; lia).
      destruct (handler_runs n (Some s) _ Hinv2 Hn)
        as (Hinv' & Hlt & Hcl & Hdown & Hcases).
      destruct (cleanup_handler sc (ret tt) (Some s)
                  (snd (log (Handler s) (snd (tick w))))) as [o w'].
      cbn [fst snd] in *. split; [exact Hinv'|].
      destruct Hcases as [(-> & Htorn)|(Hrm & -> & Hws)];
        cbn [handler_status]; (split; [exact Hcl|split; [exact Hdown|]]).
      * split; [|exact Htorn]. now exists n, s.
      * split; [exact Hrm|]. split; [now exists n, s|]. split; [exact Hws|].
        reflexivity.
    + split; [exact (Inv_tick w Hinv)|]. cbn [fst snd]. split.
      * intros (n' & s' & Hsig' & Hlt). cbn [clock tick snd] in Hlt.
        rewrite Hsig in Hsig'. inversion Hsig'; subst n' s'.
        apply Hnot. exists n, s. split; [exact Hsig|lia].
      * now apply stable_tick.
  - split; [exact (Inv_tick w Hinv)|]. cbn [fst snd]. split.
    + intros (n' & s' & Hsig' & _). rewrite Hsig in Hsig'. discriminate.
    + now apply stable_tick.
Qed.

(** After the signal: [checkpoint] returns. *)
Lemma checkpoint_late (G : World -> Prop) (E : PyExc -> World -> Prop) :
  stable G ->
  triple (fun w => delivered w /\ G w) (checkpoint sc)
         (fun _ w => delivered w /\ G w) E.
Proof.
  intros HG w Hinv [(n & s & Hsig & Hlt) HGw]. rewrite checkpoint_run, Hsig.
  destruct (Nat.eqb_spec n (clock w)) as [Heq|Hne]; [lia|].
  split; [exact (Inv_tick w Hinv)|]. cbn [fst snd]. split.
  - exists n, s. split; [exact Hsig|]. cbn [clock tick snd]. lia.
  - now apply stable_tick.
Qed.

Lemma delivered_clock (w w' : World) :
  clock w' = clock w -> delivered w -> delivered w'.
Proof.
  intros Heq (n & s & Hsig & Hlt). exists n, s. split; [exact Hsig|lia].
Qed.

Lemma not_delivered_clock (w w' : World) :
  clock w' = clock w -> ~ delivered w -> ~ delivered w'.
Proof. intros Heq Hnot Hd. apply Hnot. now apply (delivered_clock w'). Qed.

(** Logging keeps [calm G] for a stable [G]. *)
Lemma log_calm (G : World -> Prop) (ev : Event) (E : PyExc -> World -> Prop) :
  stable G -> plain ev -> ev <> CleanupCompleted ->
  triple (calm G) (log ev) (fun _ => calm G) E.
Proof.
  intros HG Hev Hcc. apply log_spec; [exact Hev|].
  intros w [Hd Hg]. split; [exact Hd|]. now apply stable_log.
Qed.

(** A failure of a step itself. *)
Lemma raise_calm {A : Type} (G : World -> Prop) (e : PyExc)
    (Q : A -> World -> Prop) :
  (forall w, G w -> unfinished w) -> (forall code, e <> SystemExit code) ->
  triple (calm G) (raise e) Q interrupted.
Proof.
  intros HG He. apply triple_raise. intros w [Hd Hg]. right.
  split; [split; auto|exact He].
Qed.

(** [run_cmd] in the lifecycle, for a command other than [down]. *)
Lemma run_cmd_spec (G : World -> Prop) (c : Command) (check : bool) :
  stable G -> (forall w, G w -> unfinished w) -> c <> ComposeDown ->
  (executable_of c = Git ->
   forall w, G w -> docker_started w = false
                    /\ G (snd (set_safe_compose_exists false w))) ->
  triple (calm G) (run_cmd sc (checkpoint sc) c check)
    (fun rc w => calm G w
                 /\ installed sc (executable_of c) = true
                 /\ rc = returncode sc c
                 /\ (check = true -> rc = 0%Z))
    interrupted.
Proof.
  intros HG Hun Hc Hgit. unfold run_cmd.
  apply triple_bind
    with (Q := fun _ w => ~ delivered w /\ G w /\ In (Ran c) (trace w)).
  - apply log_spec; [plain_event|]. intros w [Hd Hg]. split; [exact Hd|].
    split; [apply stable_log; [exact HG|discriminate|exact Hg]|].
    cbn [log snd trace]. apply in_or_app. right. now left.
  - intros _. destruct (installed sc (executable_of c)) eqn:Hi.
    + apply triple_bind with (Q := fun _ => calm G).
      * apply (delete_spec (fun w => ~ delivered w) G c interrupted
                 not_delivered_clock HG Hi Hgit).
      * intros _. apply triple_bind with (Q := fun _ => calm G).
        -- eapply triple_weaken; [apply (checkpoint_spec G HG)|auto|auto|].
           intros e w H. now left.
        -- intros _.
           destruct (check && negb (returncode sc c =? 0)%Z) eqn:Htest.
           ++ apply raise_calm; [exact Hun|discriminate].
           ++ apply triple_ret. intros w Hw. repeat split; try apply Hw.
              intros ->. cbn [andb] in Htest.
              apply negb_false_iff in Htest. now apply Z.eqb_eq.
    + apply triple_weaken with (P := calm G) (Q := fun _ _ => False)
        (E := interrupted); [|intros w (Hd & Hg & _); split; assumption
                             |contradiction|auto].
      apply raise_calm; [exact Hun|discriminate].
Qed.

Lemma run_cmd_unit (G : World -> Prop) (c : Command) (check : bool) :
  stable G -> (forall w, G w -> unfinished w) -> c <> ComposeDown ->
  (executable_of c = Git ->
   forall w, G w -> docker_started w = false
                    /\ G (snd (set_safe_compose_exists false w))) ->
  triple (calm G) (_ <- run_cmd sc (checkpoint sc) c check ;; ret tt)
         (fun _ => calm G) interrupted.
Proof.
  intros HG Hun Hc Hgit.
  eapply triple_bind; [apply run_cmd_spec; assumption|].
  intros rc. apply triple_ret. intros w Hw. apply Hw.
Qed.

Lemma not_started_unfinished (w : World) : not_started w -> unfinished w.
Proof. intros H. apply H. Qed.

Lemma get_repo_root_spec :
  triple (calm not_started) (get_repo_root sc) (fun _ => calm not_started)
         interrupted.
Proof.
  apply run_cmd_unit;
    [apply stable_not_started|apply not_started_unfinished|discriminate
    |apply not_started_git].
Qed.

Lemma checkout_branch_spec :
  triple (calm not_started) (checkout_branch sc) (fun _ => calm not_started)
         interrupted.
Proof.
  unfold checkout_branch.
  eapply triple_bind;
    [apply run_cmd_spec;
       [apply stable_not_started|apply not_started_unfinished|discriminate
       |apply not_started_git]|].
  intros rc.
  apply triple_weaken with (P := calm not_started)
    (Q := fun _ => calm not_started) (E := interrupted);
    [|intros w Hw; apply Hw|auto|auto].
  destruct (rc =? 0)%Z;
    (apply run_cmd_unit;
       [apply stable_not_started|apply not_started_unfinished|discriminate
       |apply not_started_git]).
Qed.

Lemma run_agent_spec :
  triple (calm unfinished) (run_agent sc) (fun _ => calm unfinished)
         interrupted.
Proof.
  apply run_cmd_unit; [apply stable_unfinished|auto|discriminate|].
  intros H. discriminate H.
Qed.

Lemma set_workspace_exists_true_spec (E : PyExc -> World -> Prop) :
  triple (calm not_started) (set_workspace_exists true)
         (fun _ => calm not_started) E.
Proof.
  intros w [H1 H2 H3 H4] HP. split; [|exact HP].
  constructor; cbn [set_workspace_exists snd docker_started trace
                    safe_compose_exists workspace_exists]; auto.
  intros Hs. rewrite andb_true_r. auto.
Qed.

Lemma set_safe_compose_exists_true_spec (E : PyExc -> World -> Prop) :
  triple (calm unfinished) (set_safe_compose_exists true)
         (fun _ => calm (fun w => unfinished w
                                  /\ (safe_compose_exists w = true
                                      \/ taken w)))
         E.
Proof.
  intros w [H1 H2 H3 H4] [Hd Hu]. split.
  - constructor; cbn [set_safe_compose_exists snd docker_started trace
                      safe_compose_exists workspace_exists]; auto.
  - cbn. repeat split; auto.
Qed.

Lemma set_docker_started_spec (b : bool) (E : PyExc -> World -> Prop) :
  triple (fun w => calm unfinished w
                   /\ (b = true ->
                       (safe_compose_exists w = true \/ taken w)
                       /\ installed sc Docker = true
                       /\ returncode sc ComposeUp = 0%Z))
         (set_docker_started b) (fun _ => calm unfinished) E.
Proof.
  intros w [H1 H2 H3 H4] [Hcalm Hb]. split; [|exact Hcalm].
  constructor; cbn [set_docker_started snd docker_started trace
                    safe_compose_exists workspace_exists];
    [| exact H2 | | exact H4]; intros Hs;
    destruct (Hb Hs) as (Hsafe & Hi & Hup); [now auto|].
  destruct Hsafe as [Hsafe|Ht]; [now left|right; now right].
Qed.

Lemma copy_repo_spec :
  triple (calm not_started) (copy_repo sc) (fun _ => calm not_started)
         interrupted.
Proof.
  unfold copy_repo. apply triple_bind with (Q := fun _ => calm not_started).
  - apply log_calm; [apply stable_not_started|plain_event|discriminate].
  - intros _. destruct (copytree sc).
    + apply triple_bind with (Q := fun _ => calm not_started);
        [apply set_workspace_exists_true_spec|intros _].
      eapply triple_weaken;
        [apply (checkpoint_spec not_started stable_not_started)|auto|auto|].
      intros e w H. now left.
    + apply raise_calm; [apply not_started_unfinished|discriminate].
    + apply triple_bind with (Q := fun _ => calm not_started);
        [apply set_workspace_exists_true_spec|intros _].
      apply triple_bind with (Q := fun _ => calm not_started).
      * eapply triple_weaken;
          [apply (checkpoint_spec not_started stable_not_started)|auto|auto|].
        intros e w H. now left.
      * intros _. apply raise_calm; [apply not_started_unfinished|discriminate].
Qed.

Lemma transform_volumes_convert_returns (data : ComposeDocument) :
  exists result, transform_volumes data "convert-to-named" = Returned result.
Proof.
  unfold transform_volumes. cbn [String.eqb Ascii.eqb Bool.eqb].
  destruct (fold_left convert_service_step (get_services data) ([], [], []))
    as [[new_services env] named].
  eexists. reflexivity.
Qed.

(** What [safeify_compose] raises in [setup_docker] is the failure to
    read the Compose file. *)
Lemma safeify_compose_in_setup_raises (input_path : string)
    (output_path : option string) (e : PyExc) :
  safeify_compose (load sc) input_path "convert-to-named" output_path
  = Raised e ->
  forall code, e <> SystemExit code.
Proof.
  unfold safeify_compose, load.
  destruct (load_compose sc input_path) as [data|].
  - destruct (transform_volumes_convert_returns data) as [[d env] ->].
    destruct (make_multi_instance_safe d). discriminate.
  - intros H. inversion H. discriminate.
Qed.

(** [setup_docker] returns [True] only after [up] returned 0, with the
    safe Compose file written, and there unless a command has deleted
    it. *)
Lemma setup_docker_spec :
  triple (calm unfinished) (setup_docker sc)
    (fun started w =>
       calm unfinished w
       /\ (started = true ->
           (safe_compose_exists w = true \/ taken w)
           /\ installed sc Docker = true
           /\ returncode sc ComposeUp = 0%Z))
    interrupted.
Proof.
  unfold setup_docker. destruct (compose_file sc) as [name|].
  - apply triple_bind with (Q := fun _ => calm unfinished);
      [apply log_calm; [apply stable_unfinished|plain_event|discriminate]|].
    intros _. apply triple_bind with (Q := fun _ => calm unfinished).
    { eapply triple_weaken;
        [apply (checkpoint_spec unfinished stable_unfinished)|auto|auto|].
      intros e w H. now left. }
    intros _.
    destruct (safeify_compose (load sc) _ "convert-to-named" _) as [out|e] eqn:Hs.
    + set (G := fun w => unfinished w
                        /\ (safe_compose_exists w = true \/ taken w)).
      assert (HG : stable G)
        by (apply stable_and; [apply stable_unfinished|apply stable_safe]).
      assert (HGu : forall w, G w -> unfinished w) by (intros w Hw; apply Hw).
      apply triple_bind with (Q := fun _ => calm G);
        [apply set_safe_compose_exists_true_spec|intros _].
      eapply triple_bind;
        [apply (run_cmd_spec G ComposeUp true HG HGu); discriminate|].
      intros rc. cbn beta.
      apply triple_weaken
        with (P := fun w => calm G w
                            /\ (installed sc Docker = true
                                /\ returncode sc ComposeUp = 0%Z))
             (Q := fun started w =>
                     calm unfinished w
                     /\ (started = true ->
                         (safe_compose_exists w = true \/ taken w)
                         /\ installed sc Docker = true
                         /\ returncode sc ComposeUp = 0%Z))
             (E := interrupted); [| |auto|auto].
      * apply triple_assume. intros [Hi Hup].
        eapply triple_bind;
          [apply (run_cmd_spec G ComposePs true HG HGu); discriminate|].
        intros rc'. apply triple_ret. intros w [[Hd [Hu Hsafe]] _].
        repeat split; auto.
      * intros w (Hcalm & Hi & -> & Hrc). split; [exact Hcalm|].
        split; [exact Hi|]. now apply Hrc.
    + apply raise_calm; [auto|].
      eapply safeify_compose_in_setup_raises, Hs.
  - apply triple_ret. intros w Hw. split; [exact Hw|discriminate].
Qed.

(** The [try] body, entered with the stack not started: it returns with
    no signal delivered and no teardown run, or it raises as
    [interrupted] says. *)
Lemma lifecycle_spec :
  triple (calm not_started) (lifecycle sc) (fun _ => calm unfinished)
         interrupted.
Proof.
  unfold lifecycle.
  apply triple_bind with (Q := fun _ => calm not_started).
  { eapply triple_weaken;
      [apply (checkpoint_spec not_started stable_not_started)|auto|auto|].
    intros e w H. now left. }
  intros _. apply triple_bind with (Q := fun _ => calm not_started).
  { destruct (input_dir_given sc);
      [apply triple_ret; auto|apply get_repo_root_spec]. }
  intros _. apply triple_bind with (Q := fun _ => calm not_started).
  { apply log_calm; [apply stable_not_started|plain_event|discriminate]. }
  intros _. apply triple_bind with (Q := fun _ => calm not_started).
  { destruct (mkdir_fails sc);
      [apply raise_calm; [apply not_started_unfinished|discriminate]
      |apply triple_ret; auto]. }
  intros _. apply triple_bind with (Q := fun _ => calm not_started);
    [apply copy_repo_spec|].
  intros _. apply triple_bind with (Q := fun _ => calm not_started);
    [apply checkout_branch_spec|].
  intros _. apply triple_bind with (Q := fun _ => calm unfinished).
  { apply triple_weaken with (P := calm unfinished)
      (Q := fun _ => calm unfinished) (E := interrupted);
      [|intros w [Hd [Hu _]]; split; assumption|auto|auto].
    destruct (docker_services_given sc); [|apply triple_ret; auto].
    eapply triple_bind; [apply setup_docker_spec|].
    intros started. apply set_docker_started_spec. }
  intros _. apply triple_bind with (Q := fun _ => calm unfinished);
    [apply run_agent_spec|].
  intros _. apply log_calm; [apply stable_unfinished|plain_event|discriminate].
Qed.

Lemma by_signal_finished (e : PyExc) (w : World) :
  by_signal e w -> finished e w.
Proof.
  intros (Hc & Hd & He). split; [exact Hc|split; [exact Hd|]].
  destruct e; try (destruct He as (Hrm & Hdel & Hws & He); now auto).
  destruct He as [Hsig Htorn]. now auto.
Qed.

Lemma grows_unfinished : grows (fun tr => ~ In CleanupCompleted tr).
Proof.
  intros tr ev Hev Hnot Hin. apply in_app_or in Hin as [Hin|[Heq|[]]]; auto.
Qed.

(** [cleanup_handler()] before the signal never returns: it exits with
    status 0 after the teardown, or with the status of a signal that
    arrives meanwhile, or it fails in [rmtree]. *)
Lemma cleanup_handler_spec :
  triple (calm unfinished) (cleanup_handler sc (checkpoint sc) None)
         (fun _ _ => False) finished.
Proof.
  intros w Hinv [Hd Hu].
  destruct (cleanup_handler_runs (checkpoint sc) (fun v => ~ delivered v)
              by_signal not_delivered_clock checkpoint_spec
              (fun tr => ~ In CleanupCompleted tr) None (workspace_exists w)
              grows_unfinished w Hinv (conj Hd (conj Hu eq_refl))) as [Hinv' Hpost].
  split; [exact Hinv'|].
  destruct (fst (cleanup_handler sc (checkpoint sc) None w)) as [u|e];
    [contradiction|].
  destruct Hpost as [Hsig|(Hd' & Hc & Hdown & Hcase)];
    [now apply by_signal_finished|].
  split; [exact Hc|]. split; [exact Hdown|].
  destruct e; try (destruct Hcase as (Hrm & Hws & Hun & He);
                   split; [exact Hrm|]; split; [now right|];
                   split; [exact Hws|exact He]).
  destruct Hcase as (-> & Htorn & _). split; [exact Htorn|].
  left. split; [reflexivity|exact Hd'].
Qed.

(** [cleanup_handler()] in the [except] clause that caught the failure
    of [rmtree] in the signal handler: [rmtree] fails again. *)
Lemma cleanup_again (w : World) :
  Inv w -> delivered w -> rmtree_fails sc = true -> workspace_exists w = true ->
  let r := cleanup_handler sc (checkpoint sc) None w in
  Inv (snd r)
  /\ fst r = Raised (OtherException "OSError")
  /\ delivered (snd r)
  /\ In CleaningUp (trace (snd r))
  /\ down_if_started (snd r)
  /\ workspace_exists (snd r) = true.
Proof.
  intros Hinv Hdel Hrm Hws.
  destruct (cleanup_handler_runs (checkpoint sc) delivered (fun _ _ => False)
              delivered_clock
              (fun G HG => checkpoint_late G (fun _ _ => False) HG)
              (fun _ => True) None true (fun _ _ _ _ => I)
              w Hinv (conj Hdel (conj I Hws))) as [Hinv' Hpost].
  cbn zeta. split; [exact Hinv'|].
  destruct (fst (cleanup_handler sc (checkpoint sc) None w)) as [u|e];
    [contradiction|].
  destruct Hpost as [[]|(Hd' & Hc & Hdown & Hcase)].
  destruct e; try (destruct Hcase as (_ & Hws' & _ & He); rewrite He;
                   now auto).
  destruct Hcase as (_ & _ & Hb). specialize (Hb eq_refl). congruence.
Qed.

(** [cleanup_handler] ends in [sys.exit]: it never returns to its
    caller, whatever the world and the interruptions. *)
Lemma cleanup_handler_never_returns (interruptible : M unit)
    (sig : option Signal) (w : World) :
  exists e w', cleanup_handler sc interruptible sig w = (Raised e, w').
Proof.
  unfold cleanup_handler, bind. cbn [log fst snd].
  unfold get_world at 1.
  match goal with
  | |- context [(if ?b then ?x else ?y) ?w1] =>
      destruct ((if b then x else y) w1) as [[u|e] w2]
  end; [|now eauto].
  destruct (cleanup_workspace sc interruptible w2) as [[u'|e] w3];
    [|now eauto].
  unfold raise. eauto.
Qed.

(** In the [except] clauses that call [cleanup_handler()] and then
    [sys.exit], the second statement is never reached: the clause does
    what [cleanup_handler()] does. *)
Lemma except_clauses_run (e : PyExc) (w : World) :
  (forall code, e <> SystemExit code) ->
  except_clauses sc e w = cleanup_handler sc (checkpoint sc) None w.
Proof.
  intros He.
  destruct (cleanup_handler_never_returns (checkpoint sc) None w)
    as (e' & w' & Hrun).
  destruct e; cbn [except_clauses]; unfold bind; rewrite ?Hrun;
    try reflexivity.
  now elim (He code).
Qed.

(** The [try] statement with its [except] clauses. *)
Lemma try_statement_spec :
  triple (calm not_started)
         (try_except (lifecycle sc) (except_clauses sc))
         (fun _ => calm unfinished) finished.
Proof.
  intros w Hinv HP. unfold try_except.
  destruct (lifecycle_spec w Hinv HP) as [Hinv' Hpost].
  destruct (lifecycle sc w) as [[u|e] w']; cbn [fst snd] in *.
  - split; assumption.
  - destruct Hpost as [Hsig|[Hcalm He]].
    + destruct e;
        try (rewrite except_clauses_run by discriminate;
             destruct Hsig as (_ & _ & Hrm & Hdel & Hws & _);
             destruct (cleanup_again w' Hinv' Hdel Hrm Hws)
               as (Hinv2 & Hout & Hdel2 & Hc2 & Hdown2 & Hws2);
             split; [exact Hinv2|]; rewrite Hout;
             split; [exact Hc2|]; split; [exact Hdown2|];
             repeat split; auto).
      cbn [except_clauses raise fst snd]. split; [exact Hinv'|].
      now apply by_signal_finished.
    + rewrite except_clauses_run by exact He.
      destruct (cleanup_handler_spec w' Hinv' Hcalm) as [Hinv2 Hpost2].
      split; [exact Hinv2|].
      destruct (fst (cleanup_handler sc (checkpoint sc) None w'));
        [contradiction|exact Hpost2].
Qed.

Lemma after_base_branch_spec :
  triple (calm not_started) after_base_branch (fun _ _ => False) finished.
Proof.
  unfold Logic.after_base_branch.
  eapply triple_bind; [apply try_statement_spec|].
  intros u. apply cleanup_handler_spec.
Qed.

Lemma at_try_calm : Inv at_try /\ calm not_started at_try.
Proof.
  split; [|split].
  - constructor; cbn; intros H; try discriminate H.
    + destruct H as [H|[]]; discriminate H.
    + intros [H'|[]]; discriminate H'.
  - intros (n & s & _ & Hlt). cbn in Hlt. lia.
  - split; [|reflexivity]. intros [H|[]]. discriminate H.
Qed.

(** [main] either fails to read the base branch, before anything is
    created, or enters the [try] statement and ends as [finished]
    says. *)
Lemma main_ends :
  (run sc = (Raised (if installed sc Git
                     then CalledProcessError (returncode sc GitAbbrevRefHead)
                     else OtherException "FileNotFoundError"),
             snd (log (Ran GitAbbrevRefHead) initial))
   /\ (installed sc Git = false \/ returncode sc GitAbbrevRefHead <> 0%Z))
  \/ (run sc = after_base_branch at_try
      /\ Inv (final sc)
      /\ exists e, fst (run sc) = Raised e /\ finished e (final sc)).
Proof.
  assert (Hend : Inv (snd (after_base_branch at_try))
                 /\ exists e, fst (after_base_branch at_try) = Raised e
                              /\ finished e (snd (after_base_branch at_try))).
  { destruct at_try_calm as [Hinv Hcalm].
    destruct (after_base_branch_spec at_try Hinv Hcalm) as [Hinv' Hpost].
    split; [exact Hinv'|].
    destruct (fst (after_base_branch at_try)); [contradiction|eauto]. }
  unfold final, run, main. unfold bind at 1 2 3. cbn [log fst snd].
  destruct (installed sc Git) eqn:Hgit.
  - destruct (Z.eqb_spec (returncode sc GitAbbrevRefHead) 0) as [Hrc|Hrc];
      cbn [negb raise ret fst snd set_docker_started].
    + right. split; [reflexivity|exact Hend].
    + left. split; [reflexivity|now right].
  - left. split; [reflexivity|now left].
Qed.

End Lifecycle.

(* ===================================================================== *)
(** ** Claims about the workspace lifecycle manager *)
(* ===================================================================== *)

Example run_all_good :
  run all_good
  = (Raised (SystemExit 0),
     mkWorld false false true 10
       [Ran GitAbbrevRefHead; Mkdir; Copytree; Ran GitVerifyBranch;
        Ran GitCheckoutNew; Safeify; Ran ComposeUp; Ran ComposePs;
        Ran AgentRun; Summary; CleaningUp; Ran ComposeDown; Rmtree;
        CleanupCompleted]).
Proof. vm_compute. reflexivity. Qed.


(** An interrupt while the agent runs: [down] (which fails), [rmtree],
    status 130. *)
Example run_interrupted_agent :
  run (interrupted_at 7 SIGINT)
  = (Raised (SystemExit 130),
     mkWorld false false true 8
       [Ran GitAbbrevRefHead; Mkdir; Copytree; Ran GitVerifyBranch;
        Ran GitCheckoutNew; Safeify; Ran ComposeUp; Ran ComposePs;
        Ran AgentRun; Handler SIGINT; CleaningUp; Ran ComposeDown; Rmtree;
        CleanupCompleted]).
Proof. vm_compute. reflexivity. Qed.

(** The agent deletes the safe Compose file: [cleanup_docker] finds
    none, no [down] is run although the stack was started, and the
    workspace is removed. *)
Example run_agent_deletes_safe_compose :
  run agent_deletes_safe_compose
  = (Raised (SystemExit 0),
     mkWorld false false true 9
       [Ran GitAbbrevRefHead; Mkdir; Copytree; Ran GitVerifyBranch;
        Ran GitCheckoutNew; Safeify; Ran ComposeUp; Ran ComposePs;
        Ran AgentRun; Summary; CleaningUp; Rmtree; CleanupCompleted]).
Proof. vm_compute. reflexivity. Qed.







(** C10: without a signal, every run whose teardown succeeds, the
    teardown ran to its end, or it was started and [rmtree] does not
    fail, ends with status 0, whatever failed before; this is because
    [cleanup_handler] never returns, so that an [except] clause that
    calls it does what it does and nothing more: the [sys.exit] that
    follows the call is not reached. *)
Theorem exit_status_zero_without_signal (sc : Scenario) :
  (signal sc = None ->
   In CleanupCompleted (trace (final sc))
   \/ (rmtree_fails sc = false /\ In CleaningUp (trace (final sc))) ->
   fst (run sc) = Raised (SystemExit 0) /\ status sc = 0%Z)
  /\ (forall interruptible sig w,
        exists e w', cleanup_handler sc interruptible sig w = (Raised e, w'))
  /\ (forall rc w,
        except_clauses sc (CalledProcessError rc) w
        = cleanup_handler sc (checkpoint sc) None w)
  /\ (forall e w, (forall code, e <> SystemExit code) ->
        except_clauses sc e w = cleanup_handler sc (checkpoint sc) None w).
Proof.
  split; [|split; [apply cleanup_handler_never_returns|split]].
  - intros Hsig Hdone.
    destruct (main_ends sc) as [[Hrun Hbase]|(Hrun & Hinv & e & He & Hfin)].
    + exfalso. unfold final in Hdone. rewrite Hrun in Hdone.
      cbn in Hdone. destruct Hdone as [[H|[]]|[_ [H|[]]]]; discriminate H.
    + destruct Hfin as (Hc & Hdown & Hcase).
      assert (Hnot : ~ delivered sc (final sc))
        by (intros (n & s & Hs & _); congruence).
      destruct e;
        try (exfalso; destruct Hcase as [Hf [[Hd|Hu] _]];
             [exact (Hnot Hd)|destruct Hdone as [Hcc|[Hrm _]];
                               [exact (Hu Hcc)|congruence]]).
      destruct Hcase as [_ [[-> _]|(n & s & Hs & _)]]; [|congruence].
      unfold status. rewrite He. split; reflexivity.
  - intros rc w. apply except_clauses_run. discriminate.
  - intros e w. apply except_clauses_run.
Qed.

(** * Further properties of the two scripts *)

(* ===================================================================== *)
(** ** What [make_multi_instance_safe] leaves alone *)
(* ===================================================================== *)




Lemma safe_service_plain (item : string * ServiceConfig) :
  plain_service item -> Spec.safe_service item = item.
Proof.
  destruct item as [n [p v c r]]. unfold plain_service, Spec.safe_service.
  cbn. intros [-> ->]. reflexivity.
Qed.

Lemma service_port_vars_plain (item : string * ServiceConfig) :
  plain_service item -> Spec.service_port_vars item = [].
Proof.
  unfold plain_service, Spec.service_port_vars. now intros [-> _].
Qed.

Lemma plain_services_unchanged (l : list (string * ServiceConfig)) :
  Forall plain_service l ->
  map Spec.safe_service l = l /\ Spec.port_vars l = [].
Proof.
  unfold Spec.port_vars.
  induction 1 as [|item l Hitem _ [IH1 IH2]]; simpl; [now split|].
  now rewrite (safe_service_plain item Hitem),
    (service_port_vars_plain item Hitem), IH1, IH2.
Qed.

(** X2: absent [ports], [container_name] and [networks] are no error: a
    document that has none of them is returned as it is, with no
    variable. *)
Theorem make_multi_instance_safe_nothing_to_do (data : ComposeDocument) :
  Forall plain_service (get_services data) ->
  networks data = None ->
  make_multi_instance_safe data = (data, []).
Proof.
  intros Hplain Hnet. rewrite make_multi_instance_safe_unfold.
  destruct (plain_services_unchanged _ Hplain) as [-> ->]. f_equal.
  destruct data as [[svcs|] tv nw rest]; cbn in *; subst nw; reflexivity.
Qed.

Lemma make_multi_instance_safe_nothing_to_do_witness :
  make_multi_instance_safe nginx_document = (nginx_document, []).
Proof.
  apply make_multi_instance_safe_nothing_to_do.
  - repeat constructor.
  - reflexivity.
Defined.

(* ===================================================================== *)
(** ** [convert-to-named] in closed form *)
(* ===================================================================== *)

Lemma total_bind_mounts_specs (vs : list Volume) :
  total_bind_mounts vs = List.length (bind_specs vs).
Proof.
  unfold total_bind_mounts, bind_specs.
  induction vs as [|v rest IH]; [reflexivity|]. cbn [filter flat_map].
  destruct v as [s|y]; [|exact IH].
  destruct (is_bind_mount (VolStr s)); cbn [List.length app]; now rewrite IH.
Qed.

Lemma volume_env_var_name_total (service_name : string) (vols : list Volume)
    (k : nat) :
  (if Nat.eqb (total_bind_mounts vols) 1
   then PyStr.upper service_name ++ "_VOLUME"
   else PyStr.upper service_name ++ "_VOLUME_" ++ PyStr.str_of_nat k)%string
  = volume_env_var_name service_name (bind_specs vols) k.
Proof.
  rewrite total_bind_mounts_specs. unfold volume_env_var_name.
  destruct (bind_specs vols) as [|a [|b r]]; reflexivity.
Qed.

Lemma volume_env_var_name_single (service_name : string) (vols : list Volume)
    (k k' : nat) :
  total_bind_mounts vols = 1 ->
  volume_env_var_name service_name (bind_specs vols) k
  = volume_env_var_name service_name (bind_specs vols) k'.
Proof.
  rewrite total_bind_mounts_specs. unfold volume_env_var_name.
  destruct (bind_specs vols) as [|a [|b r]]; cbn; intros H;
    (reflexivity || discriminate).
Qed.

Lemma bind_specs_cons (v : Volume) (rest : list Volume) :
  bind_specs (v :: rest)
  = match v with
    | VolStr s => if is_bind_mount v then s :: bind_specs rest else bind_specs rest
    | VolOther _ => bind_specs rest
    end.
Proof.
  unfold bind_specs. cbn [flat_map]. destruct v as [s|y]; [|reflexivity].
  now destruct (is_bind_mount (VolStr s)).
Qed.

Lemma update_cons {V : Type} (d : Dict.t V) (k : string) (v : V)
    (rest : Dict.t V) :
  Dict.update d ((k, v) :: rest) = Dict.update (Dict.set k v d) rest.
Proof. reflexivity. Qed.

(** One turn of the loop, with the name of the specification. *)
Lemma volume_step_closed (service_name : string) (vols : list Volume)
    (st : VolLoop) (v : Volume) :
  volume_step service_name vols st v
  = match v with
    | VolStr s =>
        if is_bind_mount v then
          let name := volume_env_var_name service_name (bind_specs vols)
                        (bind_mount_count st) in
          mkVolLoop
            (new_volumes st
               ++ [VolStr ("${" ++ name ++ ":-" ++ default_vol_name service_name s
                             ++ "}:" ++ after_first_colon s)])
            (if Nat.eqb (total_bind_mounts vols) 1
             then bind_mount_count st else S (bind_mount_count st))
            (Dict.set name (default_vol_name service_name s) (volume_env_vars st))
            (Dict.set (default_vol_name service_name s) YNull (named_volumes st))
        else mkVolLoop (new_volumes st ++ [v]) (bind_mount_count st)
                       (volume_env_vars st) (named_volumes st)
    | VolOther _ =>
        mkVolLoop (new_volumes st ++ [v]) (bind_mount_count st)
                  (volume_env_vars st) (named_volumes st)
    end.
Proof.
  unfold volume_step. destruct v as [s|y]; [|reflexivity].
  destruct (is_bind_mount (VolStr s)); [|reflexivity]. cbv zeta.
  rewrite <- (volume_env_var_name_total service_name vols (bind_mount_count st)).
  destruct (Nat.eqb (total_bind_mounts vols) 1); now rewrite !append_assoc.
Qed.

(** The loop over the volumes of one service, from a state whose counter
    is [k] (any [k] when there is a single bind mount, which does not
    count). *)
Lemma volume_loop_closed (service_name : string) (vols l : list Volume)
    (st : VolLoop) (k : nat) :
  (total_bind_mounts vols <> 1 -> bind_mount_count st = k) ->
  let fin := fold_left (volume_step service_name vols) l st in
  new_volumes fin
  = new_volumes st ++ converted_volumes service_name (bind_specs vols) k l
  /\ volume_env_vars fin
     = Dict.update (volume_env_vars st)
         (volume_vars_from service_name (bind_specs vols) k (bind_specs l))
  /\ named_volumes fin
     = Dict.update (named_volumes st) (volume_names service_name (bind_specs l)).
Proof.
  revert st k. induction l as [|v rest IH]; intros st k Hk; cbn zeta.
  - cbn. now rewrite app_nil_r.
  - cbn [fold_left]. rewrite volume_step_closed, bind_specs_cons.
    assert (Hname : volume_env_var_name service_name (bind_specs vols)
                      (bind_mount_count st)
                    = volume_env_var_name service_name (bind_specs vols) k).
    { destruct (Nat.eq_dec (total_bind_mounts vols) 1) as [H1|H1].
      - now apply volume_env_var_name_single.
      - now rewrite (Hk H1). }
    cbn [converted_volumes].
    destruct v as [s|y]; [destruct (is_bind_mount (VolStr s)) eqn:Hb|].
    + cbv zeta. rewrite Hname.
      match goal with
      | |- context [fold_left _ rest ?st'] =>
          destruct (IH st' (S k)) as (Hn & He & Hd)
      end.
      { cbn [bind_mount_count]. intros H1.
        apply Nat.eqb_neq in H1 as H1'. rewrite H1'. now rewrite (Hk H1). }
      cbn zeta in Hn, He, Hd. rewrite Hn, He, Hd.
      cbn [new_volumes volume_env_vars named_volumes].
      unfold volume_vars_from, volume_names.
      cbn [List.length seq combine map fst snd].
      rewrite !update_cons, <- app_assoc. split; [|split]; reflexivity.
    + destruct (IH (mkVolLoop (new_volumes st ++ [VolStr s]) (bind_mount_count st)
                      (volume_env_vars st) (named_volumes st)) k Hk)
        as (Hn & He & Hd).
      cbn zeta in Hn, He, Hd. rewrite Hn, He, Hd.
      cbn [new_volumes volume_env_vars named_volumes].
      rewrite <- app_assoc. split; [|split]; reflexivity.
    + destruct (IH (mkVolLoop (new_volumes st ++ [VolOther y]) (bind_mount_count st)
                      (volume_env_vars st) (named_volumes st)) k Hk)
        as (Hn & He & Hd).
      cbn zeta in Hn, He, Hd. rewrite Hn, He, Hd.
      cbn [new_volumes volume_env_vars named_volumes].
      rewrite <- app_assoc. split; [|split]; reflexivity.
Qed.

(** The loop over the services. *)
Lemma convert_service_loop_closed (l done : list (string * ServiceConfig))
    (env : EnvVarSet) (named : Dict.t yaml) :
  fold_left convert_service_step l (done, env, named)
  = (done ++ map converted_service_of l,
     Dict.update env (flat_map service_volume_vars l),
     Dict.update named (flat_map service_volume_names l)).
Proof.
  revert done env named.
  induction l as [|[n cfg] rest IH]; intros done env named.
  - cbn. now rewrite app_nil_r.
  - cbn [fold_left flat_map map]. rewrite !update_app.
    unfold convert_service_step at 2.
    unfold converted_service_of at 1, service_volume_vars at 1,
      service_volume_names at 1. cbn [fst snd].
    destruct (volumes cfg) as [vs|].
    + destruct (volume_loop_closed n vs vs (mkVolLoop [] 0 env named) 0
                  (fun _ => eq_refl)) as (Hn & He & Hd).
      cbv zeta in Hn, He, Hd. cbv zeta. rewrite Hn, He, Hd.
      cbn [new_volumes volume_env_vars named_volumes app].
      rewrite IH, <- app_assoc. reflexivity.
    + rewrite IH, <- app_assoc. reflexivity.
Qed.

(** [convert-to-named] in closed form. *)
Lemma transform_volumes_convert_unfold (data : ComposeDocument) :
  transform_volumes data "convert-to-named"
  = Returned (converted_document data,
              dict_of_assignments
                (flat_map service_volume_vars (get_services data))).
Proof.
  unfold transform_volumes. cbn [String.eqb Ascii.eqb Bool.eqb].
  rewrite convert_service_loop_closed. cbn [app].
  unfold converted_document, dict_of_assignments.
  destruct (Dict.update [] (flat_map service_volume_names (get_services data)));
    [reflexivity|].
  unfold put_services. destruct (services data); reflexivity.
Qed.

(** A rewritten bind mount starts with a dollar sign: it is no bind mount. *)
Lemma reference_is_no_bind_mount (rest : string) :
  is_bind_mount (VolStr ("${" ++ rest)) = false.
Proof. cbn. apply andb_false_r. Qed.

Lemma bind_specs_converted (service_name : string) (specs : list string)
    (k : nat) (l : list Volume) :
  bind_specs (converted_volumes service_name specs k l) = [].
Proof.
  revert k. induction l as [|v rest IH]; intros k; [reflexivity|].
  cbn [converted_volumes]. destruct v as [s|y].
  - destruct (is_bind_mount (VolStr s)) eqn:Hb; rewrite bind_specs_cons.
    + rewrite reference_is_no_bind_mount. apply IH.
    + rewrite Hb. apply IH.
  - rewrite bind_specs_cons. apply IH.
Qed.

Lemma bind_specs_nil (l : list Volume) :
  bind_specs l = [] <-> Forall (fun v => is_bind_mount v = false) l.
Proof.
  induction l as [|v rest IH]; [split; constructor|].
  rewrite bind_specs_cons. destruct v as [s|y].
  - destruct (is_bind_mount (VolStr s)) eqn:Hb.
    + split; [discriminate|]. intros H. inversion H; congruence.
    + rewrite IH. split; [now constructor|intros H; now inversion H].
  - rewrite IH. split; [now constructor|intros H; now inversion H].
Qed.

Lemma converted_volumes_without_bind_mounts (service_name : string)
    (specs : list string) (k : nat) (l : list Volume) :
  bind_specs l = [] -> converted_volumes service_name specs k l = l.
Proof.
  revert k. induction l as [|v rest IH]; intros k; [reflexivity|].
  rewrite bind_specs_cons. cbn [converted_volumes]. destruct v as [s|y].
  - destruct (is_bind_mount (VolStr s)); [discriminate|].
    intros H. now rewrite IH.
  - intros H. now rewrite IH.
Qed.

(** The services of a document none of which has a bind mount. *)
Definition without_bind_mounts (svcs : list (string * ServiceConfig)) : Prop :=
  Forall (fun item => forall vs, volumes (snd item) = Some vs ->
                                 Forall (fun v => is_bind_mount v = false) vs)
         svcs.

Lemma set_volumes_same (cfg : ServiceConfig) (vs : list Volume) :
  volumes cfg = Some vs -> set_volumes cfg (Some vs) = cfg.
Proof. destruct cfg. cbn. now intros ->. Qed.

Lemma put_services_same (data : ComposeDocument) :
  put_services data (get_services data) = data.
Proof.
  unfold put_services, get_services. destruct data as [[s|] tv nw r]; reflexivity.
Qed.

Lemma convert_without_bind_mounts (svcs : list (string * ServiceConfig)) :
  without_bind_mounts svcs ->
  map converted_service_of svcs = svcs
  /\ flat_map service_volume_vars svcs = []
  /\ flat_map service_volume_names svcs = [].
Proof.
  induction 1 as [|[n cfg] rest Hitem _ (IH1 & IH2 & IH3)];
    [repeat split|].
  cbn [map flat_map]. rewrite IH1, IH2, IH3, !app_nil_r.
  unfold converted_service_of, service_volume_vars, service_volume_names.
  cbn [fst snd] in *. destruct (volumes cfg) as [vs|] eqn:Hvs.
  - pose proof (proj2 (bind_specs_nil vs) (Hitem vs eq_refl)) as Hnil.
    rewrite converted_volumes_without_bind_mounts, Hnil by exact Hnil.
    rewrite set_volumes_same by exact Hvs. repeat split.
  - repeat split.
Qed.

Lemma transform_volumes_convert_nothing (data : ComposeDocument) :
  without_bind_mounts (get_services data) ->
  transform_volumes data "convert-to-named" = Returned (data, []).
Proof.
  intros H. rewrite transform_volumes_convert_unfold.
  destruct (convert_without_bind_mounts _ H) as (H1 & H2 & H3).
  unfold converted_document. rewrite H1, H2, H3. cbn.
  now rewrite put_services_same.
Qed.

Lemma get_services_put_services_map (data : ComposeDocument)
    (f : string * ServiceConfig -> string * ServiceConfig) :
  get_services (put_services data (map f (get_services data)))
  = map f (get_services data).
Proof.
  unfold put_services, get_services. destruct data as [[s|] tv nw r]; reflexivity.
Qed.

Lemma get_services_set_top_volumes (data : ComposeDocument) v :
  get_services (set_top_volumes data v) = get_services data.
Proof. reflexivity. Qed.

Lemma get_services_converted_document (data : ComposeDocument) :
  get_services (converted_document data)
  = map converted_service_of (get_services data).
Proof.
  unfold converted_document.
  destruct (dict_of_assignments _);
    rewrite ?get_services_set_top_volumes; apply get_services_put_services_map.
Qed.

Lemma converted_services_without_bind_mounts
    (svcs : list (string * ServiceConfig)) :
  without_bind_mounts (map converted_service_of svcs).
Proof.
  unfold without_bind_mounts. rewrite Forall_map. apply Forall_forall.
  intros [n cfg] _ vs. unfold converted_service_of. cbn [fst snd].
  destruct (volumes cfg) as [vs0|] eqn:Hvs; [|congruence].
  cbn. intros H. inversion H; subst vs. apply bind_specs_nil, bind_specs_converted.
Qed.

Lemma set_nonempty {V : Type} (k : string) (v : V) (d : Dict.t V) :
  Dict.set k v d <> [].
Proof.
  destruct d as [|[k' v'] rest]; cbn; [discriminate|].
  destruct (String.eqb k' k); discriminate.
Qed.

Lemma update_nonempty {V : Type} (d other : Dict.t V) :
  d <> [] -> Dict.update d other <> [].
Proof.
  revert d. induction other as [|[k v] rest IH]; intros d Hd; [exact Hd|].
  rewrite update_cons. apply IH, set_nonempty.
Qed.

Lemma dict_of_assignments_nil {V : Type} (pairs : list (string * V)) :
  dict_of_assignments pairs = [] <-> pairs = [].
Proof.
  split; [|now intros ->]. destruct pairs as [|[k v] rest]; [reflexivity|].
  intros H. exfalso. revert H. unfold dict_of_assignments.
  rewrite update_cons. apply update_nonempty, set_nonempty.
Qed.

Lemma existsb_bind_specs (vs : list Volume) :
  existsb is_bind_mount vs = false <-> bind_specs vs = [].
Proof.
  rewrite bind_specs_nil. induction vs as [|v rest IH]; cbn [existsb].
  - split; constructor.
  - rewrite orb_false_iff, IH. split.
    + intros [H1 H2]. now constructor.
    + intros H. now inversion H.
Qed.

Lemma has_bind_mounts_false (data : ComposeDocument) :
  has_bind_mounts data = false <-> without_bind_mounts (get_services data).
Proof.
  unfold has_bind_mounts, without_bind_mounts.
  induction (get_services data) as [|[n cfg] rest IH]; cbn [existsb].
  - split; constructor.
  - rewrite orb_false_iff, IH. cbn [snd]. split.
    + intros [H1 H2]. constructor; [|exact H2]. cbn [snd].
      intros vs Hvs. rewrite Hvs in H1.
      now apply bind_specs_nil, existsb_bind_specs.
    + intros H. inversion H as [|? ? Hitem Hrest]; subst. split; [|exact Hrest].
      cbn [snd] in Hitem. destruct (volumes cfg) as [vs|]; [|reflexivity].
      apply existsb_bind_specs, bind_specs_nil, Hitem. reflexivity.
Qed.

Lemma has_bind_mounts_names (data : ComposeDocument) :
  has_bind_mounts data = true ->
  flat_map service_volume_vars (get_services data) <> []
  /\ flat_map service_volume_names (get_services data) <> [].
Proof.
  unfold has_bind_mounts.
  induction (get_services data) as [|[n cfg] rest IH]; cbn [existsb];
    [discriminate|].
  cbn [flat_map snd]. unfold service_volume_vars at 1, service_volume_names at 1.
  cbn [fst snd]. destruct (volumes cfg) as [vs|]; [|exact IH].
  destruct (existsb is_bind_mount vs) eqn:Hex.
  - intros _. assert (Hne : bind_specs vs <> []).
    { intros Hnil. apply existsb_bind_specs in Hnil. congruence. }
    destruct (bind_specs vs) as [|s specs]; [congruence|].
    split; discriminate.
  - apply existsb_bind_specs in Hex. rewrite Hex. exact IH.
Qed.

(** X3: without a bind mount [convert-to-named] returns the document as it
    is, with no variable and no [volumes] key of its own making; with
    one, it returns variables and a top-level [volumes] mapping. *)
Theorem transform_volumes_convert_bind_mounts (data : ComposeDocument) :
  (has_bind_mounts data = false ->
   transform_volumes data "convert-to-named" = Returned (data, []))
  /\ (has_bind_mounts data = true ->
      exists data' env,
        transform_volumes data "convert-to-named" = Returned (data', env)
        /\ env <> [] /\ top_volumes data' <> None).
Proof.
  split.
  - intros H. apply transform_volumes_convert_nothing, has_bind_mounts_false, H.
  - intros H. destruct (has_bind_mounts_names data H) as [Hv Hn].
    rewrite transform_volumes_convert_unfold. eexists _, _.
    split; [reflexivity|].
    split; [intros E; now apply (proj1 (dict_of_assignments_nil _)) in E|].
    unfold converted_document.
    destruct (dict_of_assignments (flat_map service_volume_names _)) eqn:E;
      [now apply (proj1 (dict_of_assignments_nil _)) in E|discriminate].
Qed.

(** X4: [convert-to-named] on its own result changes nothing and returns
    no variable: the references it wrote are no bind mounts. *)
Theorem transform_volumes_convert_twice (data : ComposeDocument) :
  exists data' env,
    transform_volumes data "convert-to-named" = Returned (data', env)
    /\ transform_volumes data' "convert-to-named" = Returned (data', []).
Proof.
  rewrite transform_volumes_convert_unfold. eexists _, _.
  split; [reflexivity|]. apply transform_volumes_convert_nothing.
  rewrite get_services_converted_document.
  apply converted_services_without_bind_mounts.
Qed.

(* ===================================================================== *)
(** ** The values of the named volumes *)
(* ===================================================================== *)

Lemma get_in {V : Type} (d : Dict.t V) (k : string) (v : V) :
  Dict.get k d = Some v -> In (k, v) d.
Proof.
  induction d as [|[k' v'] rest IH]; [discriminate|]. cbn [Dict.get].
  destruct (String.eqb_spec k' k) as [->|Hne].
  - intros H. inversion H. now left.
  - intros H. right. auto.
Qed.

Lemma values_set {V : Type} (P : V -> Prop) (d : Dict.t V) (k : string) (v : V) :
  P v -> Forall (fun kv => P (snd kv)) d ->
  Forall (fun kv => P (snd kv)) (Dict.set k v d).
Proof.
  intros Hv. induction 1 as [|[k' v'] rest Hkv Hrest IH]; cbn [Dict.set].
  - constructor; [exact Hv|constructor].
  - destruct (String.eqb k' k); constructor; auto.
Qed.

Lemma values_update {V : Type} (P : V -> Prop) (d other : Dict.t V) :
  Forall (fun kv => P (snd kv)) d -> Forall (fun kv => P (snd kv)) other ->
  Forall (fun kv => P (snd kv)) (Dict.update d other).
Proof.
  intros Hd Ho. revert d Hd.
  induction Ho as [|[k v] rest Hkv _ IH]; intros d Hd; [exact Hd|].
  rewrite update_cons. apply IH, values_set; assumption.
Qed.

Lemma volume_names_null (svcs : list (string * ServiceConfig)) :
  Forall (fun kv => snd kv = YNull) (flat_map service_volume_names svcs).
Proof.
  apply Forall_flat_map, Forall_forall. intros [n cfg] _.
  unfold service_volume_names, volume_names. cbn [fst snd].
  destruct (volumes cfg); [|constructor].
  apply Forall_map, Forall_forall. reflexivity.
Qed.

(* ===================================================================== *)
(** ** The two transformations do not meet *)
(* ===================================================================== *)

Lemma converted_safe_service (item : string * ServiceConfig) :
  converted_service_of (Spec.safe_service item)
  = Spec.safe_service (converted_service_of item).
Proof.
  destruct item as [n [p v c r]].
  unfold converted_service_of, Spec.safe_service. cbn [fst snd].
  destruct p, v; reflexivity.
Qed.

Lemma removed_safe_service (item : string * ServiceConfig) :
  remove_service_step (Spec.safe_service item)
  = Spec.safe_service (remove_service_step item).
Proof.
  destruct item as [n [p v c r]].
  unfold remove_service_step, Spec.safe_service. cbn [fst snd].
  destruct p; reflexivity.
Qed.

Lemma volume_vars_safe_service (item : string * ServiceConfig) :
  service_volume_vars (Spec.safe_service item) = service_volume_vars item
  /\ service_volume_names (Spec.safe_service item) = service_volume_names item.
Proof.
  destruct item as [n [p v c r]].
  unfold service_volume_vars, service_volume_names, Spec.safe_service.
  cbn [fst snd]. destruct p; split; reflexivity.
Qed.

Lemma port_vars_converted_service (item : string * ServiceConfig) :
  Spec.service_port_vars (converted_service_of item)
  = Spec.service_port_vars item.
Proof.
  destruct item as [n [p v c r]].
  unfold Spec.service_port_vars, converted_service_of. cbn [fst snd].
  destruct v; reflexivity.
Qed.

Lemma port_vars_removed_service (item : string * ServiceConfig) :
  Spec.service_port_vars (remove_service_step item)
  = Spec.service_port_vars item.
Proof. destruct item as [n [p v c r]]. reflexivity. Qed.

Lemma flat_map_map {A B C : Type} (f : A -> B) (g : B -> list C) (l : list A) :
  flat_map g (map f l) = flat_map (fun a => g (f a)) l.
Proof. induction l as [|a l IH]; simpl; [reflexivity|now rewrite IH]. Qed.

(** What [make_multi_instance_safe] makes of the document. *)
Lemma make_multi_instance_safe_services (data : ComposeDocument) :
  get_services (fst (make_multi_instance_safe data))
  = map Spec.safe_service (get_services data).
Proof.
  rewrite make_multi_instance_safe_unfold. cbn [fst].
  destruct data as [[svcs|] tv nw rest]; reflexivity.
Qed.

Lemma transforms_commute_convert (data : ComposeDocument) :
  converted_document (fst (make_multi_instance_safe data))
  = fst (make_multi_instance_safe (converted_document data))
  /\ flat_map service_volume_vars
       (get_services (fst (make_multi_instance_safe data)))
     = flat_map service_volume_vars (get_services data)
  /\ snd (make_multi_instance_safe (converted_document data))
     = snd (make_multi_instance_safe data).
Proof.
  rewrite !make_multi_instance_safe_unfold. cbn [fst snd].
  rewrite get_services_converted_document.
  assert (Hvars : forall l,
             flat_map service_volume_vars (map Spec.safe_service l)
             = flat_map service_volume_vars l).
  { intros l. rewrite flat_map_map. apply flat_map_ext.
    intros item. apply volume_vars_safe_service. }
  assert (Hnames : forall l,
             flat_map service_volume_names (map Spec.safe_service l)
             = flat_map service_volume_names l).
  { intros l. rewrite flat_map_map. apply flat_map_ext.
    intros item. apply volume_vars_safe_service. }
  assert (Hports : forall l,
             Spec.port_vars (map converted_service_of l) = Spec.port_vars l).
  { intros l. unfold Spec.port_vars. rewrite flat_map_map. apply flat_map_ext.
    intros item. apply port_vars_converted_service. }
  assert (Hmap : forall l,
             map converted_service_of (map Spec.safe_service l)
             = map Spec.safe_service (map converted_service_of l)).
  { intros l. rewrite !map_map. apply map_ext.
    intros item. apply converted_safe_service. }
  unfold converted_document.
  destruct data as [[svcs|] tv nw rest];
    cbn [get_services put_services pop_networks set_services services
         top_volumes networks document_rest].
  - rewrite Hvars, Hnames, Hports, Hmap.
    split; [|split; reflexivity].
    destruct (dict_of_assignments (flat_map service_volume_names svcs));
      reflexivity.
  - split; [|split]; reflexivity.
Qed.

Lemma transforms_commute_remove (data : ComposeDocument) :
  let removed d :=
    set_top_volumes
      (put_services d (map remove_service_step (get_services d))) None in
  removed (fst (make_multi_instance_safe data))
  = fst (make_multi_instance_safe (removed data))
  /\ snd (make_multi_instance_safe (removed data))
     = snd (make_multi_instance_safe data).
Proof.
  cbv zeta. rewrite !make_multi_instance_safe_unfold. cbn [fst snd].
  assert (Hports : forall l,
             Spec.port_vars (map remove_service_step l) = Spec.port_vars l).
  { intros l. unfold Spec.port_vars. rewrite flat_map_map. apply flat_map_ext.
    intros item. apply port_vars_removed_service. }
  assert (Hmap : forall l,
             map remove_service_step (map Spec.safe_service l)
             = map Spec.safe_service (map remove_service_step l)).
  { intros l. rewrite !map_map. apply map_ext.
    intros item. apply removed_safe_service. }
  destruct data as [[svcs|] tv nw rest];
    cbn [get_services put_services pop_networks set_services set_top_volumes
         services top_volumes networks document_rest].
  - rewrite Hports, Hmap. split; reflexivity.
  - split; reflexivity.
Qed.

(** X7: the two transformations of [safeify_compose] do not depend on
    their order: in every mode, the volumes of the document made safe
    are transformed as those of the document itself, with the same
    volume variables, and the port variables are those of the document
    itself, whatever the mode. *)
Theorem transforms_commute (data : ComposeDocument) (mode : string) :
  match transform_volumes data mode with
  | Returned (data1, volume_env_vars) =>
      transform_volumes (fst (make_multi_instance_safe data)) mode
      = Returned (fst (make_multi_instance_safe data1), volume_env_vars)
      /\ snd (make_multi_instance_safe data1)
         = snd (make_multi_instance_safe data)
  | Raised e =>
      transform_volumes (fst (make_multi_instance_safe data)) mode = Raised e
  end.
Proof.
  destruct (String.eqb_spec mode "convert-to-named") as [->|Hc].
  { rewrite !transform_volumes_convert_unfold.
    destruct (transforms_commute_convert data) as (-> & -> & ->).
    split; reflexivity. }
  destruct (String.eqb_spec mode "remove") as [->|Hr].
  { unfold transform_volumes at 1 2. cbn [String.eqb Ascii.eqb Bool.eqb].
    destruct (transforms_commute_remove data) as (H1 & H2). cbv zeta in H1, H2.
    rewrite H1, H2. split; reflexivity. }
  unfold transform_volumes.
  apply String.eqb_neq in Hc, Hr. rewrite Hc, Hr.
  destruct (String.eqb mode "keep"); [split|]; reflexivity.
Qed.

(* ===================================================================== *)
(** ** Volume variables and port variables have different names *)
(* ===================================================================== *)

Lemma last_letter_suffix (u : string) (c : ascii) (word : string) :
  is_digit c = false -> c <> "_"%char ->
  last_letter (u ++ word ++ String c "") = Some c.
Proof.
  intros Hd Hc. unfold last_letter.
  rewrite !list_ascii_of_string_append, !rev_app_distr.
  cbn [list_ascii_of_string rev app]. rewrite drop_digits_other by exact Hd.
  destruct (Ascii.eqb_spec c "_"); [contradiction|reflexivity].
Qed.

Lemma last_letter_indexed (u : string) (c : ascii) (word : string) (i : nat) :
  last_letter (u ++ word ++ String c "_" ++ PyStr.str_of_nat i) = Some c.
Proof.
  unfold last_letter, PyStr.str_of_nat.
  rewrite !list_ascii_of_string_append, !rev_app_distr, <- !app_assoc.
  rewrite drop_digits_app by (apply Forall_rev, uint_digits).
  reflexivity.
Qed.

Lemma last_letter_port (service_name : string) (ps : list Port) (i : nat) :
  last_letter (Spec.env_var_name service_name ps i) = Some "T"%char.
Proof.
  unfold Spec.env_var_name.
  destruct ps as [|p [|q r]];
    [apply (last_letter_indexed _ "T" "_POR")
    |apply (last_letter_suffix _ "T" "_POR"); [reflexivity|discriminate]
    |apply (last_letter_indexed _ "T" "_POR")].
Qed.

Lemma last_letter_volume (service_name : string) (specs : list string)
    (k : nat) :
  last_letter (volume_env_var_name service_name specs k) = Some "E"%char.
Proof.
  unfold volume_env_var_name.
  destruct specs as [|p [|q r]];
    [apply (last_letter_indexed _ "E" "_VOLUM")
    |apply (last_letter_suffix _ "E" "_VOLUM"); [reflexivity|discriminate]
    |apply (last_letter_indexed _ "E" "_VOLUM")].
Qed.

Lemma port_vars_last_letter (svcs : list (string * ServiceConfig)) (k : string) :
  In k (Dict.keys (Spec.port_vars svcs)) -> last_letter k = Some "T"%char.
Proof.
  unfold Spec.port_vars, Dict.keys. rewrite flat_map_concat_map, concat_map, map_map.
  intros Hin. apply in_concat in Hin as (l & Hl & Hk).
  apply in_map_iff in Hl as ([n cfg] & <- & _).
  unfold Spec.service_port_vars in Hk. cbn [fst snd] in Hk.
  destruct (ports cfg) as [ps|]; [|destruct Hk].
  rewrite map_map in Hk. apply in_map_iff in Hk as (ip & <- & _).
  apply last_letter_port.
Qed.

Lemma volume_vars_last_letter (svcs : list (string * ServiceConfig))
    (k : string) :
  In k (Dict.keys (flat_map service_volume_vars svcs)) ->
  last_letter k = Some "E"%char.
Proof.
  unfold Dict.keys. rewrite flat_map_concat_map, concat_map, map_map.
  intros Hin. apply in_concat in Hin as (l & Hl & Hk).
  apply in_map_iff in Hl as ([n cfg] & <- & _).
  unfold service_volume_vars in Hk. cbn [fst snd] in Hk.
  destruct (volumes cfg) as [vs|]; [|destruct Hk].
  unfold volume_vars_from in Hk.
  rewrite map_map in Hk. apply in_map_iff in Hk as (ip & <- & _).
  apply last_letter_volume.
Qed.

Lemma keys_rev {V : Type} (d : Dict.t V) (k : string) :
  In k (Dict.keys (rev d)) <-> In k (Dict.keys d).
Proof. unfold Dict.keys. rewrite map_rev. symmetry. apply in_rev. Qed.

Lemma in_keys_get {V : Type} (d : Dict.t V) (k : string) :
  In k (Dict.keys d) <-> Dict.get k d <> None.
Proof.
  pose proof (get_none_iff d k) as H.
  destruct (in_dec string_dec k (Dict.keys d)) as [Hin|Hout].
  - split; [|auto]. intros _ Hnone. now apply H in Hnone.
  - split; [contradiction|]. intros Hget. exfalso. apply Hget, H, Hout.
Qed.

(** The keys of an updated dictionary are its own and those assigned. *)
Lemma keys_update {V : Type} (d other : Dict.t V) (k : string) :
  In k (Dict.keys (Dict.update d other)) ->
  In k (Dict.keys d) \/ In k (Dict.keys other).
Proof.
  rewrite !in_keys_get, get_update. intros H.
  destruct (Dict.get k (rev other)) eqn:E.
  - right. apply in_keys_get, keys_rev, in_keys_get. congruence.
  - now left.
Qed.

Lemma keys_dict_of_assignments {V : Type} (pairs : list (string * V))
    (k : string) :
  In k (Dict.keys (dict_of_assignments pairs)) -> In k (Dict.keys pairs).
Proof.
  intros H. apply keys_update in H as [[]|H]. exact H.
Qed.

Lemma transform_volumes_vars_last_letter (data data1 : ComposeDocument)
    (mode : string) (volume_env_vars : EnvVarSet) (k : string) :
  transform_volumes data mode = Returned (data1, volume_env_vars) ->
  In k (Dict.keys volume_env_vars) -> last_letter k = Some "E"%char.
Proof.
  destruct (String.eqb_spec mode "convert-to-named") as [->|Hc].
  - rewrite transform_volumes_convert_unfold. intros H. inversion H; subst.
    intros Hin. apply keys_dict_of_assignments in Hin.
    eapply volume_vars_last_letter, Hin.
  - unfold transform_volumes. apply String.eqb_neq in Hc. rewrite Hc.
    destruct (String.eqb mode "remove"); [|destruct (String.eqb mode "keep")];
      intros H; inversion H; subst; intros [].
Qed.

(** X8: a volume variable and a port variable never have the same name,
    whatever the services are called, so that combining the two mappings
    overwrites nothing: whenever [safeify_compose] returns, its variables
    are the volume variables followed by the port variables. *)
Theorem safeify_compose_variables_apart
    (load : string -> outcome ComposeDocument)
    (input_path volumes_option : string) (output_path : option string)
    (result : Safeified) :
  safeify_compose load input_path volumes_option output_path = Returned result ->
  exists data data1 volume_env_vars data2 port_env_vars,
    load input_path = Returned data
    /\ transform_volumes data volumes_option = Returned (data1, volume_env_vars)
    /\ make_multi_instance_safe data1 = (data2, port_env_vars)
    /\ (forall k, In k (Dict.keys volume_env_vars) ->
                  ~ In k (Dict.keys port_env_vars))
    /\ env_vars result = volume_env_vars ++ port_env_vars.
Proof.
  unfold safeify_compose. intros H.
  destruct (load input_path) as [data|e] eqn:Hload; [|discriminate H].
  destruct (transform_volumes data volumes_option) as [[data1 venv]|e] eqn:Htv;
    [|discriminate H].
  pose proof (port_env_vars_NoDup data1) as Hnd.
  pose proof (make_multi_instance_safe_unfold data1) as Hunfold.
  destruct (make_multi_instance_safe data1) as [data2 penv] eqn:Hsafe.
  cbn [snd] in Hnd. inversion H; subst result; clear H. cbn [env_vars].
  assert (Hapart : forall k, In k (Dict.keys venv) -> ~ In k (Dict.keys penv)).
  { intros k Hv Hp.
    pose proof (transform_volumes_vars_last_letter _ _ _ _ k Htv Hv) as HE.
    inversion Hunfold; subst penv.
    apply keys_dict_of_assignments, port_vars_last_letter in Hp.
    congruence. }
  exists data, data1, venv, data2, penv.
  do 3 (split; [assumption || reflexivity|]). split; [exact Hapart|].
  unfold combine_env_vars. apply update_fresh; [exact Hnd|].
  intros k Hk. apply get_none_iff. intros Hv. exact (Hapart k Hv Hk).
Qed.

Lemma safeify_compose_variables_apart_witness :
  exists result,
    safeify_compose load_db "docker-compose.yml" "convert-to-named" None
    = Returned result
    /\ env_vars result = [("DB_VOLUME", "db-f1af289d"); ("CACHE_PORT", "6379")]
    /\ exists data data1 volume_env_vars data2 port_env_vars,
         load_db "docker-compose.yml" = Returned data
         /\ transform_volumes data "convert-to-named"
            = Returned (data1, volume_env_vars)
         /\ make_multi_instance_safe data1 = (data2, port_env_vars)
         /\ (forall k, In k (Dict.keys volume_env_vars) ->
                       ~ In k (Dict.keys port_env_vars))
         /\ env_vars result = volume_env_vars ++ port_env_vars.
Proof.
  eexists. split; [vm_compute; reflexivity|]. split; [reflexivity|].
  apply (safeify_compose_variables_apart load_db "docker-compose.yml"
           "convert-to-named" None).
  vm_compute. reflexivity.
Defined.

(* ===================================================================== *)
(** ** What [safeify_compose] writes *)
(* ===================================================================== *)

Lemma safe_services_have_no_name (svcs : list (string * ServiceConfig)) :
  Forall (fun item => container_name (snd item) = None)
         (map Spec.safe_service svcs).
Proof.
  apply Forall_map, Forall_forall. intros [n cfg] _.
  unfold Spec.safe_service. cbn [fst snd]. now destruct (ports cfg).
Qed.

Lemma safe_service_volumes (item : string * ServiceConfig) :
  volumes (snd (Spec.safe_service item)) = volumes (snd item).
Proof.
  destruct item as [n cfg]. unfold Spec.safe_service. cbn [fst snd].
  now destruct (ports cfg).
Qed.

Lemma has_bind_mounts_safe (data : ComposeDocument) :
  has_bind_mounts (fst (make_multi_instance_safe data)) = has_bind_mounts data.
Proof.
  unfold has_bind_mounts. rewrite make_multi_instance_safe_services.
  induction (get_services data) as [|item rest IH]; [reflexivity|].
  cbn [map existsb]. now rewrite safe_service_volumes, IH.
Qed.

(** X9: the document that [safeify_compose] writes has no networks key
    and no container name, in every mode; in mode [convert-to-named] it
    has no bind mount left, and in mode [remove] no volumes at all. *)
Theorem safeify_compose_written
    (load : string -> outcome ComposeDocument)
    (input_path volumes_option : string) (output : option string)
    (result : Safeified) :
  safeify_compose load input_path volumes_option output = Returned result ->
  networks (written result) = None
  /\ Forall (fun item => container_name (snd item) = None)
            (get_services (written result))
  /\ (volumes_option = "convert-to-named" ->
      has_bind_mounts (written result) = false)
  /\ (volumes_option = "remove" ->
      top_volumes (written result) = None
      /\ Forall (fun item => volumes (snd item) = None)
                (get_services (written result))).
Proof.
  unfold safeify_compose. intros H.
  destruct (load input_path) as [data|e]; [|discriminate H].
  destruct (transform_volumes data volumes_option) as [[data1 venv]|e] eqn:Htv;
    [|discriminate H].
  pose proof (make_multi_instance_safe_services data1) as Hsvcs.
  pose proof (has_bind_mounts_safe data1) as Hbind.
  pose proof (make_multi_instance_safe_unfold data1) as Hunfold.
  destruct (make_multi_instance_safe data1) as [data2 penv].
  cbn [fst] in Hsvcs, Hbind. inversion H; subst result; clear H.
  cbn [written]. inversion Hunfold; subst data2 penv. clear Hunfold.
  split; [reflexivity|].
  split; [rewrite Hsvcs; apply safe_services_have_no_name|]. split.
  - intros ->. rewrite Hbind.
    rewrite transform_volumes_convert_unfold in Htv.
    inversion Htv; subst data1 venv.
    apply has_bind_mounts_false. rewrite get_services_converted_document.
    apply converted_services_without_bind_mounts.
  - intros ->. unfold transform_volumes in Htv.
    cbn [String.eqb Ascii.eqb Bool.eqb] in Htv.
    inversion Htv; subst data1 venv. split.
    { unfold put_services at 1.
      destruct (services (set_top_volumes _ None)); reflexivity. }
    rewrite Hsvcs. apply Forall_map, Forall_forall. intros item Hin.
    rewrite safe_service_volumes.
    change (get_services (set_top_volumes ?d ?v)) with (get_services d) in Hin.
    rewrite get_services_put_services_map in Hin.
    apply in_map_iff in Hin as (item0 & <- & _). reflexivity.
Qed.

Lemma safeify_compose_written_witness :
  exists result,
    safeify_compose load_db "docker-compose.yml" "convert-to-named" None
    = Returned result
    /\ networks (written result) = None
    /\ has_bind_mounts db_document = true
    /\ has_bind_mounts (written result) = false.
Proof.
  eexists. split; [vm_compute; reflexivity|].
  destruct (safeify_compose_written load_db "docker-compose.yml"
              "convert-to-named" None _ eq_refl) as (Hnet & _ & Hbind & _).
  split; [exact Hnet|]. split; [reflexivity|]. exact (Hbind eq_refl).
Defined.

(* ===================================================================== *)
(** ** Where [safeify_compose] writes by default *)
(* ===================================================================== *)

Lemma join_cons_char (sep : string) (x : ascii) (p : string)
    (l : list string) :
  PyStr.join sep (String x p :: l) = String x (PyStr.join sep (p :: l)).
Proof. destruct l; reflexivity. Qed.

Lemma removelast_cons2 {A : Type} (a b : A) (l : list A) :
  removelast (a :: b :: l) = a :: removelast (b :: l).
Proof. reflexivity. Qed.

Lemma last_piece_cons2 (a b : string) (l : list string) :
  PyStr.last_piece (a :: b :: l) = PyStr.last_piece (b :: l).
Proof. reflexivity. Qed.

(** A string with a separator is what is joined of all pieces but the
    last, the separator, and the last piece. *)
Lemma split_last (sep : ascii) (s : string) :
  PyStr.contains sep s = true ->
  s = (PyStr.join (String sep "") (removelast (PyStr.split sep s))
       ++ String sep (PyStr.last_piece (PyStr.split sep s)))%string.
Proof.
  induction s as [|x rest IH]; [discriminate|].
  cbn [PyStr.contains PyStr.split].
  destruct (PyStr.contains sep rest) eqn:Hrest.
  - destruct (split_with_sep sep rest Hrest) as (p & q & r & Hs).
    specialize (IH eq_refl). rewrite Hs in IH |- *.
    set (init := removelast (q :: r)) in *.
    change (removelast (p :: q :: r)) with (p :: init) in IH.
    change (PyStr.last_piece (p :: q :: r))
      with (PyStr.last_piece (q :: r)) in IH.
    destruct (Ascii.eqb_spec x sep) as [->|Hne]; intros _.
    + change (removelast ("" :: p :: q :: r)) with ("" :: p :: init).
      change (PyStr.last_piece ("" :: p :: q :: r))
        with (PyStr.last_piece (q :: r)).
      change (PyStr.join (String sep "") ("" :: p :: init))
        with (String sep (PyStr.join (String sep "") (p :: init))).
      cbn [append]. f_equal. exact IH.
    + change (removelast (String x p :: q :: r)) with (String x p :: init).
      change (PyStr.last_piece (String x p :: q :: r))
        with (PyStr.last_piece (q :: r)).
      rewrite join_cons_char. cbn [append]. f_equal. exact IH.
  - rewrite (split_without_sep sep rest Hrest).
    destruct (Ascii.eqb_spec x sep) as [->|Hne]; [intros _|discriminate].
    reflexivity.
Qed.

Lemma append_nil_r (a : string) : (a ++ "")%string = a.
Proof. induction a as [|x rest IH]; simpl; [reflexivity|now rewrite IH]. Qed.

Lemma append_self (a b : string) : (a ++ b)%string = a -> b = "".
Proof.
  intros H. apply (append_inv_head a). now rewrite append_nil_r.
Qed.

Lemma file_name_has_no_slash (path : string) :
  PyStr.contains "/" (file_name path) = false.
Proof. unfold file_name. rewrite last_piece_split. apply after_last_has_no_sep. Qed.

(** The stem of a path is its file name, or the file name without its
    last suffix. *)
Lemma path_stem_cases (path : string) :
  path_stem path = file_name path
  \/ exists suffix,
       PyStr.contains "." suffix = false
       /\ file_name path = (path_stem path ++ String "." suffix)%string.
Proof.
  unfold path_stem. fold (file_name path). set (name := file_name path).
  cbv zeta.
  destruct (PyStr.contains "." name) eqn:Hdot.
  - destruct (String.eqb _ "" || String.eqb _ ""); [now left|].
    right. exists (PyStr.last_piece (PyStr.split "." name)). split.
    + rewrite last_piece_split. apply after_last_has_no_sep.
    + apply (split_last "." name Hdot).
  - left. rewrite (split_without_sep "." name Hdot). reflexivity.
Qed.

Lemma default_output_is_new (path : string) :
  let out := (path_stem path ++ ".safe.yml")%string in
  PyStr.contains "/" out = false /\ out <> file_name path /\ out <> path.
Proof.
  cbv zeta. pose proof (file_name_has_no_slash path) as Hname.
  assert (Hslash : PyStr.contains "/" (path_stem path ++ ".safe.yml")%string
                   = false).
  { rewrite contains_append.
    destruct (path_stem_cases path) as [->|(suffix & _ & Heq)].
    - now rewrite Hname.
    - rewrite Heq, contains_append in Hname.
      apply orb_false_iff in Hname as [-> _]. reflexivity. }
  assert (Hne : (path_stem path ++ ".safe.yml")%string <> file_name path).
  { destruct (path_stem_cases path) as [Heq|(suffix & Hdot & Heq)].
    - rewrite Heq. intros H. apply append_self in H. discriminate H.
    - rewrite Heq. intros H. apply append_inv_head in H.
      inversion H; subst suffix. discriminate Hdot. }
  split; [exact Hslash|]. split; [exact Hne|].
  intros Heq. apply Hne. rewrite Heq in Hslash. unfold file_name.
  rewrite (split_without_sep "/" _ Hslash). exact Heq.
Qed.

(** X10: with no output path (or an empty one) the result is written to
    [{stem}.safe.yml] in the current directory, under a name that is
    never the name of the input file: the input is not overwritten. *)
Theorem safeify_compose_default_output
    (load : string -> outcome ComposeDocument)
    (input_path volumes_option : string) (output : option string)
    (result : Safeified) :
  output = None \/ output = Some "" ->
  safeify_compose load input_path volumes_option output = Returned result ->
  output_path result = (path_stem input_path ++ ".safe.yml")%string
  /\ PyStr.contains "/" (output_path result) = false
  /\ output_path result <> file_name input_path
  /\ output_path result <> input_path.
Proof.
  intros Hout H.
  assert (Hpath : output_path result
                  = (path_stem input_path ++ ".safe.yml")%string).
  { unfold safeify_compose in H.
    destruct (load input_path) as [data|e]; [|discriminate H].
    destruct (transform_volumes data volumes_option) as [[data1 venv]|e];
      [|discriminate H].
    destruct (make_multi_instance_safe data1) as [data2 penv].
    inversion H; subst result; clear H. cbn [output_path].
    destruct Hout as [->| ->]; reflexivity. }
  rewrite Hpath. split; [reflexivity|]. apply default_output_is_new.
Qed.

Lemma safeify_compose_default_output_witness :
  safeify_compose load_web_api "docker-compose.yml" "keep" None
  = Returned web_api_safeified
  /\ output_path web_api_safeified = "docker-compose.safe.yml"
  /\ PyStr.contains "/" (output_path web_api_safeified) = false
  /\ output_path web_api_safeified <> file_name "docker-compose.yml"
  /\ output_path web_api_safeified <> "docker-compose.yml".
Proof.
  split; [reflexivity|].
  exact (safeify_compose_default_output load_web_api "docker-compose.yml"
           "keep" None web_api_safeified (or_introl eq_refl) eq_refl).
Defined.
(* ===================================================================== *)
(** * Service mappings that are shared *)
(* ===================================================================== *)

(* ===================================================================== *)
(** ** Shared service mappings: the heap *)
(* ===================================================================== *)

Lemma lookup_assign (a b : nat) (c : ServiceConfig) (h : list ServiceConfig) :
  Shared.lookup b (Shared.assign a c h)
  = if Nat.eqb a b then option_map (fun _ => c) (Shared.lookup b h)
    else Shared.lookup b h.
Proof.
  unfold Shared.lookup. revert a b. induction h as [|c' rest IH]; intros a b.
  - destruct a as [|a], b as [|b]; cbn; try reflexivity.
    now destruct (Nat.eqb a b).
  - destruct a as [|a], b as [|b]; cbn; try reflexivity. apply IH.
Qed.

Lemma assign_same (a : nat) (c : ServiceConfig) (h : list ServiceConfig) :
  Shared.lookup a h = Some c -> Shared.assign a c h = h.
Proof.
  unfold Shared.lookup. revert a. induction h as [|c' rest IH]; intros a.
  - now destruct a.
  - destruct a as [|a]; cbn.
    + intros H. now inversion H.
    + intros H. now rewrite IH.
Qed.

Lemma visits_cons (f : string -> ServiceConfig -> ServiceConfig)
    (item : string * nat) (rest : list (string * nat)) (a : nat)
    (c : ServiceConfig) :
  visits f (item :: rest) a c
  = visits f rest a (if Nat.eqb (snd item) a then f (fst item) c else c).
Proof. reflexivity. Qed.

Lemma visits_app (f : string -> ServiceConfig -> ServiceConfig)
    (l l' : list (string * nat)) (a : nat) (c : ServiceConfig) :
  visits f (l ++ l') a c = visits f l' a (visits f l a c).
Proof. unfold visits. apply fold_left_app. Qed.

(** The mapping at an address after the loop. *)
Lemma lookup_visits (f : string -> ServiceConfig -> ServiceConfig)
    (l : list (string * nat)) (h : list ServiceConfig) (a : nat) :
  Shared.lookup a (fold_left (visit f) l h)
  = option_map (visits f l a) (Shared.lookup a h).
Proof.
  revert h. induction l as [|[n b] rest IH]; intros h.
  - cbn. now destruct (Shared.lookup a h).
  - cbn [fold_left]. rewrite IH. unfold visit. cbn [fst snd].
    destruct (Shared.lookup b h) as [c|] eqn:Hb.
    + rewrite lookup_assign. destruct (Nat.eqb_spec b a) as [->|Hne].
      * rewrite Hb. cbn [option_map]. rewrite visits_cons. cbn [fst snd].
        now rewrite Nat.eqb_refl.
      * destruct (Shared.lookup a h) as [c0|]; [|reflexivity].
        cbn [option_map]. rewrite visits_cons. cbn [fst snd].
        now rewrite (proj2 (Nat.eqb_neq b a) Hne).
    + destruct (Shared.lookup a h) as [c0|] eqn:Ha; [|reflexivity].
      cbn [option_map]. rewrite visits_cons. cbn [fst snd].
      destruct (Nat.eqb_spec b a) as [->|Hne]; [congruence|reflexivity].
Qed.

Lemma not_bound_visits (f : string -> ServiceConfig -> ServiceConfig)
    (l : list (string * nat)) (a : nat) (c : ServiceConfig) :
  (forall n, ~ In (n, a) l) -> visits f l a c = c.
Proof.
  revert c. induction l as [|[n b] rest IH]; intros c Hno; [reflexivity|].
  rewrite visits_cons. cbn [fst snd].
  destruct (Nat.eqb_spec b a) as [->|Hne].
  - elim (Hno n). now left.
  - apply IH. intros m Hin. apply (Hno m). now right.
Qed.

(** When a later turn undoes nothing and adds nothing to what an earlier
    one wrote, the first name bound to a mapping decides. *)
Lemma visits_first (f : string -> ServiceConfig -> ServiceConfig)
    (pre post : list (string * nat)) (name : string) (a : nat)
    (c : ServiceConfig) :
  (forall n m c, f m (f n c) = f n c) ->
  (forall n, ~ In (n, a) pre) ->
  visits f (pre ++ (name, a) :: post) a c = f name c.
Proof.
  intros Hf Hpre. rewrite visits_app, (not_bound_visits f pre a c Hpre).
  rewrite visits_cons. cbn [fst snd]. rewrite Nat.eqb_refl.
  induction post as [|[n b] rest IH]; [reflexivity|].
  rewrite visits_cons. cbn [fst snd].
  destruct (Nat.eqb b a); [rewrite Hf|]; exact IH.
Qed.

(** When a turn overwrites what an earlier one wrote, the last name
    bound to a mapping decides. *)
Lemma visits_last (f : string -> ServiceConfig -> ServiceConfig)
    (pre post : list (string * nat)) (name : string) (a : nat)
    (c : ServiceConfig) :
  (forall n m c, f m (f n c) = f m c) ->
  (forall n, ~ In (n, a) post) ->
  visits f (pre ++ (name, a) :: post) a c = f name c.
Proof.
  intros Hf Hpost.
  change (pre ++ (name, a) :: post) with (pre ++ [(name, a)] ++ post).
  rewrite app_assoc, visits_app, not_bound_visits by exact Hpost.
  rewrite visits_app, visits_cons. cbn [fst snd]. rewrite Nat.eqb_refl.
  change (visits f [] a ?x) with x.
  assert (H : visits f pre a c = c \/ exists n, visits f pre a c = f n c).
  { clear Hpost. induction pre as [|[n b] rest IH] using rev_ind; [now left|].
    rewrite visits_app, visits_cons. cbn [fst snd].
    change (visits f [] a ?x) with x.
    destruct (Nat.eqb b a); [|exact IH].
    right. exists n. destruct IH as [->|[m ->]]; [reflexivity|apply Hf]. }
  destruct H as [->|[n ->]]; [reflexivity|apply Hf].
Qed.

(** A name bound to an address has a last binding, and a first one. *)
Lemma last_binding (l : list (string * nat)) (name : string) (a : nat) :
  In (name, a) l ->
  exists last pre post,
    l = pre ++ (last, a) :: post /\ forall n, ~ In (n, a) post.
Proof.
  revert name. induction l as [|[n b] rest IH]; intros name; [intros []|].
  intros Hin.
  destruct (in_dec (fun x y => Nat.eq_dec x y) a (map snd rest)) as [Hlater|Hnot].
  - apply in_map_iff in Hlater as ([m a'] & Ha & Hin'). cbn in Ha. subst a'.
    destruct (IH m Hin') as (last & pre & post & -> & Hpost).
    exists last, ((n, b) :: pre), post. split; [reflexivity|exact Hpost].
  - destruct Hin as [Heq|Hin].
    + inversion Heq; subst. exists name, [], rest. split; [reflexivity|].
      intros m Hm. apply Hnot. apply in_map_iff. now exists (m, a).
    + elim Hnot. apply in_map_iff. now exists (name, a).
Qed.

Lemma first_binding (l : list (string * nat)) (name : string) (a : nat) :
  In (name, a) l ->
  exists first pre post,
    l = pre ++ (first, a) :: post /\ forall n, ~ In (n, a) pre.
Proof.
  induction l as [|[n b] rest IH]; [intros []|].
  intros Hin. destruct (Nat.eq_dec b a) as [->|Hne].
  - exists n, [], rest. split; [reflexivity|]. intros m [].
  - destruct Hin as [Heq|Hin]; [inversion Heq; congruence|].
    destruct (IH Hin) as (first & pre & post & -> & Hpre).
    exists first, ((n, b) :: pre), post. split; [reflexivity|].
    intros m [Heq|Hm]; [inversion Heq; congruence|exact (Hpre m Hm)].
Qed.

Lemma found_cons (f : string -> ServiceConfig -> ServiceConfig)
    (item : string * nat) (rest : list (string * nat))
    (h : list ServiceConfig) :
  found f (item :: rest) h = found f [item] h ++ found f rest (visit f h item).
Proof.
  cbn [found]. unfold visit.
  destruct (Shared.lookup (snd item) h); reflexivity.
Qed.

(* ===================================================================== *)
(** ** [make_multi_instance_safe] on shared service mappings *)
(* ===================================================================== *)

Lemma rewritten_ports_under (n m : string) (ps : list Port) :
  Spec.rewritten_ports m (Spec.rewritten_ports n ps) = Spec.rewritten_ports m ps.
Proof.
  unfold Spec.rewritten_ports at 1. rewrite enumerate_rewritten_ports, map_map.
  apply map_ext. intros ip. unfold Spec.rewritten_port at 1. cbn [fst snd].
  rewrite container_port_rewritten.
  rewrite (env_var_name_length m _ ps) by apply rewritten_ports_length.
  reflexivity.
Qed.

(** A turn under another name overwrites what an earlier turn wrote. *)
Lemma safe_config_under (n m : string) (c : ServiceConfig) :
  safe_config m (safe_config n c) = safe_config m c.
Proof.
  unfold safe_config, Spec.safe_service. cbn [fst snd].
  destruct (ports c) as [ps|] eqn:E; cbn [del_container_name set_ports ports
    volumes container_name service_rest]; [|rewrite E; reflexivity].
  now rewrite rewritten_ports_under.
Qed.

(** The variables of a service are those of its mapping as it was
    parsed, whatever name rewrote it before. *)
Lemma service_port_vars_under (n m : string) (c : ServiceConfig) :
  Spec.service_port_vars (m, safe_config n c) = Spec.service_port_vars (m, c).
Proof.
  unfold Spec.service_port_vars, safe_config, Spec.safe_service.
  cbn [fst snd]. destruct (ports c) as [ps|] eqn:E;
    cbn [del_container_name set_ports ports]; [|now rewrite E].
  rewrite enumerate_rewritten_ports, map_map. apply map_ext. intros ip.
  unfold Spec.port_var. cbn [fst snd]. rewrite container_port_rewritten.
  now rewrite (env_var_name_length m _ ps) by apply rewritten_ports_length.
Qed.

Lemma shared_port_service_step (h : list ServiceConfig) (env : EnvVarSet)
    (item : string * nat) :
  Shared.port_service_step (h, env) item
  = (visit safe_config h item,
     Dict.update env (Spec.port_vars (found safe_config [item] h))).
Proof.
  destruct item as [n a]. unfold Shared.port_service_step, visit.
  cbn [found fst snd]. destruct (Shared.lookup a h) as [c|]; [|reflexivity].
  unfold Spec.port_vars. cbn [flat_map]. rewrite app_nil_r.
  unfold Spec.service_port_vars, safe_config, Spec.safe_service. cbn [fst snd].
  destruct (ports c) as [ps|]; [|reflexivity].
  rewrite port_loop. reflexivity.
Qed.

Lemma shared_port_service_loop (l : list (string * nat))
    (h : list ServiceConfig) (env : EnvVarSet) :
  fold_left Shared.port_service_step l (h, env)
  = (fold_left (visit safe_config) l h,
     Dict.update env (Spec.port_vars (found safe_config l h))).
Proof.
  revert h env. induction l as [|item rest IH]; intros h env; [reflexivity|].
  cbn [fold_left].
  rewrite shared_port_service_step, IH, (found_cons safe_config item rest).
  unfold Spec.port_vars. now rewrite flat_map_app, update_app.
Qed.

Lemma Forall2_lookup (R : ServiceConfig -> ServiceConfig -> Prop)
    (h h' : list ServiceConfig) (a : nat) :
  Forall2 R h h' ->
  match Shared.lookup a h, Shared.lookup a h' with
  | Some c, Some c' => R c c'
  | None, None => True
  | _, _ => False
  end.
Proof.
  unfold Shared.lookup. intros H. revert a.
  induction H as [|c c' rest rest' Hc _ IH]; intros a.
  - now destruct a.
  - destruct a as [|a]; [exact Hc|apply IH].
Qed.

Lemma Forall2_assign (R : ServiceConfig -> ServiceConfig -> Prop)
    (h h' : list ServiceConfig) (a : nat) (c' : ServiceConfig) :
  Forall2 R h h' ->
  (forall c, Shared.lookup a h = Some c -> R c c') ->
  Forall2 R h (Shared.assign a c' h').
Proof.
  unfold Shared.lookup. intros H. revert a.
  induction H as [|c0 c0' rest rest' Hc Hrest IH]; intros a Hat.
  - destruct a; constructor.
  - destruct a as [|a]; cbn [Shared.assign].
    + constructor; [now apply Hat|exact Hrest].
    + constructor; [exact Hc|]. apply IH. exact Hat.
Qed.

(** The variables of the loop are those of the document as it was
    parsed. *)
Lemma found_port_vars (l : list (string * nat)) (h h' : list ServiceConfig) :
  Forall2 same_port_vars h h' ->
  Spec.port_vars (found safe_config l h')
  = Spec.port_vars (Shared.read_bindings h l).
Proof.
  revert h'. induction l as [|[n a] rest IH]; intros h' Hrel; [reflexivity|].
  rewrite (found_cons safe_config (n, a) rest). unfold Spec.port_vars in *.
  unfold Shared.read_bindings. cbn [flat_map]. rewrite !flat_map_app.
  fold (Shared.read_bindings h rest).
  pose proof (Forall2_lookup _ h h' a Hrel) as Ha.
  unfold visit. cbn [found fst snd].
  destruct (Shared.lookup a h) as [c|] eqn:Hc, (Shared.lookup a h') as [c'|];
    try contradiction.
  - cbn [flat_map]. rewrite !app_nil_r, (Ha n). f_equal.
    apply IH. apply Forall2_assign; [exact Hrel|].
    intros c0 Hc0 m. rewrite Hc in Hc0. inversion Hc0; subst c0.
    rewrite service_port_vars_under. apply Ha.
  - cbn [flat_map app]. now apply IH.
Qed.

Lemma Forall2_same_port_vars (h : list ServiceConfig) :
  Forall2 same_port_vars h h.
Proof. induction h; constructor; [intros n; reflexivity|assumption]. Qed.

(** [make_multi_instance_safe] on shared mappings, in closed form. *)
Lemma shared_make_multi_instance_safe_unfold (data : Shared.Document) :
  Shared.make_multi_instance_safe data
  = (Shared.mkShared (Shared.names data)
       (fold_left (visit safe_config) (Shared.get_names data)
                  (Shared.heap data))
       (Shared.volumes_key data) None (Shared.other_keys data),
     dict_of_assignments (Spec.port_vars (Shared.services_of data))).
Proof.
  unfold Shared.make_multi_instance_safe. rewrite shared_port_service_loop.
  rewrite (found_port_vars _ (Shared.heap data))
    by apply Forall2_same_port_vars.
  reflexivity.
Qed.

(* ===================================================================== *)
(** ** [convert-to-named] on shared service mappings *)
(* ===================================================================== *)

(** The wording of the specification and the test of the code. *)
Lemma contains_In (c : ascii) (s : string) :
  PyStr.contains c s = true <-> In c (list_ascii_of_string s).
Proof.
  induction s as [|d rest IH]; cbn [PyStr.contains list_ascii_of_string In].
  - split; [discriminate|intros []].
  - rewrite orb_true_iff, IH. split.
    + intros [H|H]; [left; now apply Ascii.eqb_eq|now right].
    + intros [H|H]; [left; now apply Ascii.eqb_eq|now right].
Qed.

Lemma is_bind_mount_spec (s : string) :
  is_bind_mount (VolStr s) = true <-> Spec.bind_mount s.
Proof.
  unfold is_bind_mount, Spec.bind_mount.
  rewrite andb_true_iff, contains_In. split.
  - intros [Hc Hf]. split; [exact Hc|]. destruct s as [|c rest]; [discriminate|].
    exists c, rest. split; [reflexivity|]. apply orb_true_iff in Hf.
    destruct Hf as [H|H]; apply Ascii.eqb_eq in H; auto.
  - intros [Hc (c & rest & Heq & Hf)]. subst s. split; [exact Hc|].
    apply orb_true_iff. destruct Hf as [-> | ->]; [left|right]; apply Ascii.eqb_refl.
Qed.

Lemma in_bind_specs (vs : list Volume) (s : string) :
  In s (bind_specs vs) <-> In (VolStr s) vs /\ Spec.bind_mount s.
Proof.
  rewrite <- is_bind_mount_spec.
  induction vs as [|v rest IH]; [cbn; tauto|].
  rewrite bind_specs_cons. cbn [In]. destruct v as [s'|y].
  - destruct (is_bind_mount (VolStr s')) eqn:Hb; cbn [In]; rewrite IH.
    + split.
      * intros [-> | [H1 H2]]; [now auto|now auto].
      * intros [[Heq|Hin] Hs]; [left; now inversion Heq|now auto].
    + split; [now intros [H1 H2]; auto|].
      intros [[Heq|Hin] Hs]; [inversion Heq; congruence|now auto].
  - rewrite IH. split; [now intros [H1 H2]; auto|].
    intros [[Heq|Hin] Hs]; [discriminate Heq|now auto].
Qed.

Lemma converted_config_no_bind_mounts (n : string) (c : ServiceConfig) :
  no_bind_mounts (converted_config n c).
Proof.
  unfold no_bind_mounts, converted_config, converted_service_of. cbn [fst snd].
  destruct (volumes c) as [vs|] eqn:E; [|congruence].
  cbn [set_volumes volumes]. intros vs' H. inversion H.
  apply bind_specs_converted.
Qed.

Lemma converted_config_fixed (n : string) (c : ServiceConfig) :
  no_bind_mounts c -> converted_config n c = c.
Proof.
  unfold no_bind_mounts, converted_config, converted_service_of. cbn [fst snd].
  destruct (volumes c) as [vs|] eqn:E; [|reflexivity].
  intros H. rewrite (H vs eq_refl).
  rewrite converted_volumes_without_bind_mounts by exact (H vs eq_refl).
  now apply set_volumes_same.
Qed.

(** A later turn changes nothing in a mapping that was converted. *)
Lemma converted_config_again (n m : string) (c : ServiceConfig) :
  converted_config m (converted_config n c) = converted_config n c.
Proof. apply converted_config_fixed, converted_config_no_bind_mounts. Qed.

Lemma service_volume_vars_none (n : string) (c : ServiceConfig) :
  no_bind_mounts c ->
  service_volume_vars (n, c) = [] /\ service_volume_names (n, c) = [].
Proof.
  unfold no_bind_mounts, service_volume_vars, service_volume_names.
  cbn [fst snd]. destruct (volumes c) as [vs|]; [|now split].
  intros H. rewrite (H vs eq_refl). now split.
Qed.

Lemma shared_convert_service_step (h : list ServiceConfig) (env : EnvVarSet)
    (named : Dict.t yaml) (item : string * nat) :
  Shared.convert_service_step (h, env, named) item
  = (visit converted_config h item,
     Dict.update env
       (flat_map service_volume_vars (found converted_config [item] h)),
     Dict.update named
       (flat_map service_volume_names (found converted_config [item] h))).
Proof.
  destruct item as [n a]. unfold Shared.convert_service_step, visit.
  cbn [found fst snd]. destruct (Shared.lookup a h) as [c|] eqn:Hc;
    [|reflexivity].
  cbn [flat_map]. rewrite !app_nil_r.
  unfold service_volume_vars, service_volume_names, converted_config,
    converted_service_of. cbn [fst snd].
  destruct (volumes c) as [vs|].
  - destruct (volume_loop_closed n vs vs (mkVolLoop [] 0 env named) 0
                (fun _ => eq_refl)) as (Hn & He & Hd).
    cbv zeta in Hn, He, Hd. cbv zeta. rewrite Hn, He, Hd. reflexivity.
  - now rewrite (assign_same a c h Hc).
Qed.

Lemma shared_convert_service_loop (l : list (string * nat))
    (h : list ServiceConfig) (env : EnvVarSet) (named : Dict.t yaml) :
  fold_left Shared.convert_service_step l (h, env, named)
  = (fold_left (visit converted_config) l h,
     Dict.update env
       (flat_map service_volume_vars (found converted_config l h)),
     Dict.update named
       (flat_map service_volume_names (found converted_config l h))).
Proof.
  revert h env named.
  induction l as [|item rest IH]; intros h env named; [reflexivity|].
  cbn [fold_left].
  rewrite shared_convert_service_step, IH,
    (found_cons converted_config item rest).
  now rewrite !flat_map_app, !update_app.
Qed.

(** Only the first turn for a mapping finds bind mounts in it. *)
Lemma found_first (l : list (string * nat)) (seen : list nat)
    (h h' : list ServiceConfig) :
  (forall a c', In a seen -> Shared.lookup a h' = Some c' -> no_bind_mounts c') ->
  (forall a, ~ In a seen -> Shared.lookup a h' = Shared.lookup a h) ->
  flat_map service_volume_vars (found converted_config l h')
  = flat_map service_volume_vars
      (Shared.read_bindings h (first_bindings seen l))
  /\ flat_map service_volume_names (found converted_config l h')
     = flat_map service_volume_names
         (Shared.read_bindings h (first_bindings seen l)).
Proof.
  revert seen h'. induction l as [|[n a] rest IH]; intros seen h' Hseen Hnew;
    [now split|].
  rewrite (found_cons converted_config (n, a) rest), !flat_map_app.
  cbn [first_bindings found fst snd]. unfold visit. cbn [fst snd].
  destruct (existsb (Nat.eqb a) seen) eqn:Hex.
  - assert (Hin : In a seen).
    { apply existsb_exists in Hex as (b & Hb & Heq).
      apply Nat.eqb_eq in Heq. now subst b. }
    destruct (Shared.lookup a h') as [c'|] eqn:Hc.
    + pose proof (Hseen a c' Hin Hc) as Hno.
      destruct (service_volume_vars_none n c' Hno) as [Hv Hn].
      cbn [flat_map]. rewrite Hv, Hn. cbn [app].
      rewrite (converted_config_fixed n c' Hno), (assign_same a c' h' Hc).
      now apply IH.
    + cbn [flat_map app]. now apply IH.
  - assert (Hout : ~ In a seen).
    { intros Hin. apply not_true_iff_false in Hex. apply Hex.
      apply existsb_exists. exists a. split; [exact Hin|apply Nat.eqb_refl]. }
    unfold Shared.read_bindings. cbn [flat_map fst snd]. rewrite !flat_map_app.
    fold (Shared.read_bindings h (first_bindings (a :: seen) rest)).
    rewrite <- (Hnew a Hout).
    destruct (Shared.lookup a h') as [c|] eqn:Hc.
    + cbn [flat_map]. rewrite !app_nil_r.
      destruct (IH (a :: seen) (Shared.assign a (converted_config n c) h'))
        as [IHv IHn].
      * intros b c' [<- | Hb] Hlook; rewrite lookup_assign in Hlook.
        -- rewrite Nat.eqb_refl, Hc in Hlook. inversion Hlook.
           apply converted_config_no_bind_mounts.
        -- destruct (Nat.eqb_spec a b) as [-> | Hne]; [|now apply (Hseen b)].
           rewrite Hc in Hlook. inversion Hlook.
           apply converted_config_no_bind_mounts.
      * intros b Hb. rewrite lookup_assign.
        destruct (Nat.eqb_spec a b) as [-> | Hne]; [elim Hb; now left|].
        apply Hnew. intros Hin. apply Hb. now right.
      * now rewrite IHv, IHn.
    + cbn [flat_map app]. apply IH.
      * intros b c' [<- | Hb] Hlook; [congruence|now apply (Hseen b)].
      * intros b Hb. apply Hnew. intros Hin. apply Hb. now right.
Qed.

(** [convert-to-named] on shared mappings, in closed form. *)
Lemma shared_transform_volumes_convert_unfold (data : Shared.Document) :
  Shared.transform_volumes data "convert-to-named"
  = Returned
      (Shared.mkShared (Shared.names data)
         (fold_left (visit converted_config) (Shared.get_names data)
                    (Shared.heap data))
         match generated_volumes data with
         | [] => Shared.volumes_key data
         | (_ :: _) as named =>
             Some (Dict.update
                     match Shared.volumes_key data with
                     | Some m => m
                     | None => []
                     end named)
         end
         (Shared.networks_key data) (Shared.other_keys data),
       dict_of_assignments (flat_map service_volume_vars (first_services data))).
Proof.
  unfold Shared.transform_volumes. cbn [String.eqb Ascii.eqb Bool.eqb].
  rewrite shared_convert_service_loop.
  destruct (found_first (Shared.get_names data) [] (Shared.heap data)
              (Shared.heap data)) as [Hv Hn];
    [intros a c' []|reflexivity|].
  rewrite Hv, Hn. unfold generated_volumes, dict_of_assignments, first_services.
  now destruct (Dict.update [] _).
Qed.

(** The first binding of a mapping is among the first bindings. *)
Lemma in_first_bindings (l : list (string * nat)) (seen : list nat)
    (name : string) (a : nat) :
  In (name, a) (first_bindings seen l)
  <-> ~ In a seen
      /\ exists pre post, l = pre ++ (name, a) :: post
                          /\ forall n, ~ In (n, a) pre.
Proof.
  revert seen. induction l as [|[n b] rest IH]; intros seen.
  - cbn. split; [intros []|]. intros [_ (pre & post & H & _)].
    now destruct pre.
  - cbn [first_bindings snd].
    destruct (existsb (Nat.eqb b) seen) eqn:Hex.
    + assert (Hin : In b seen).
      { apply existsb_exists in Hex as (b' & Hb & Heq).
        apply Nat.eqb_eq in Heq. now subst b'. }
      rewrite IH. split.
      * intros [Hout (pre & post & -> & Hpre)]. split; [exact Hout|].
        exists ((n, b) :: pre), post. split; [reflexivity|].
        intros m [Heq|Hm]; [inversion Heq; congruence|exact (Hpre m Hm)].
      * intros [Hout (pre & post & Heq & Hpre)]. split; [exact Hout|].
        destruct pre as [|x pre].
        -- inversion Heq; congruence.
        -- inversion Heq; subst. exists pre, post. split; [reflexivity|].
           intros m Hm. apply (Hpre m). now right.
    + assert (Hout : ~ In b seen).
      { intros Hin. apply not_true_iff_false in Hex. apply Hex.
        apply existsb_exists. exists b. split; [exact Hin|apply Nat.eqb_refl]. }
      cbn [In]. rewrite IH. split.
      * intros [Heq|[Hnot (pre & post & -> & Hpre)]].
        -- inversion Heq; subst. split; [exact Hout|].
           exists [], rest. split; [reflexivity|]. intros m [].
        -- split; [intros Hin; apply Hnot; now right|].
           exists ((n, b) :: pre), post. split; [reflexivity|].
           intros m [Heq|Hm]; [|exact (Hpre m Hm)].
           inversion Heq; subst. apply Hnot. now left.
      * intros [Hnot (pre & post & Heq & Hpre)].
        destruct pre as [|x pre].
        -- left. now inversion Heq.
        -- right. inversion Heq; subst. split.
           ++ intros [-> | Hin]; [|contradiction].
              apply (Hpre n). now left.
           ++ exists pre, post. split; [reflexivity|].
              intros m Hm. apply (Hpre m). now right.
Qed.

Lemma in_read_bindings (h : list ServiceConfig) (l : list (string * nat))
    (name : string) (c : ServiceConfig) :
  In (name, c) (Shared.read_bindings h l)
  <-> exists a, In (name, a) l /\ Shared.lookup a h = Some c.
Proof.
  unfold Shared.read_bindings. rewrite in_flat_map. split.
  - intros ([n a] & Hin & Hc). cbn [fst snd] in Hc.
    destruct (Shared.lookup a h) as [c'|] eqn:E; [|contradiction].
    destruct Hc as [Heq|[]]. inversion Heq; subst. now exists a.
  - intros (a & Hin & Hc). exists (name, a). split; [exact Hin|].
    cbn [fst snd]. rewrite Hc. now left.
Qed.

(** The services under the first name of their mapping. *)
Lemma in_first_services (data : Shared.Document) (name : string)
    (c : ServiceConfig) :
  In (name, c) (first_services data)
  <-> exists a pre post,
        Shared.get_names data = pre ++ (name, a) :: post
        /\ (forall n, ~ In (n, a) pre)
        /\ Shared.lookup a (Shared.heap data) = Some c.
Proof.
  unfold first_services. rewrite in_read_bindings. split.
  - intros (a & Hin & Hc). apply in_first_bindings in Hin as [_ (pre & post & H1 & H2)].
    now exists a, pre, post.
  - intros (a & pre & post & H1 & H2 & Hc). exists a. split; [|exact Hc].
    apply in_first_bindings. split; [intros []|]. now exists pre, post.
Qed.

(** The values of a dictionary that was filled with nulls. *)
Lemma get_null_assignments (pairs : list (string * yaml)) (k : string) :
  Forall (fun kv => snd kv = YNull) pairs ->
  Dict.get k (dict_of_assignments pairs)
  = if Dict.mem k (dict_of_assignments pairs) then Some YNull else None.
Proof.
  intros Hnull. unfold Dict.mem.
  destruct (Dict.get k (dict_of_assignments pairs)) as [v|] eqn:E;
    [|reflexivity].
  f_equal. apply get_in in E.
  assert (H : Forall (fun kv => snd kv = YNull) (dict_of_assignments pairs))
    by (apply (values_update (fun v => v = YNull)); [constructor|exact Hnull]).
  rewrite Forall_forall in H. exact (H _ E).
Qed.

Lemma mem_keys {V : Type} (d : Dict.t V) (k : string) :
  Dict.mem k d = true <-> In k (Dict.keys d).
Proof.
  rewrite in_keys_get. unfold Dict.mem.
  destruct (Dict.get k d); split; congruence.
Qed.

Lemma mem_dict_of_assignments {V : Type} (pairs : list (string * V))
    (k : string) :
  Dict.mem k (dict_of_assignments pairs) = true <-> In k (Dict.keys pairs).
Proof.
  rewrite mem_keys. split; [apply keys_dict_of_assignments|].
  intros Hin. apply in_keys_get. unfold dict_of_assignments.
  rewrite get_update. apply keys_rev, in_keys_get in Hin.
  now destruct (Dict.get k (rev pairs)).
Qed.

(** The names that [convert-to-named] declares: one for every bind mount
    of every mapping, under the first name bound to the mapping. *)
Lemma mem_generated_volumes (data : Shared.Document) (k : string) :
  Dict.mem k (generated_volumes data) = true
  <-> exists name cfg vs s,
        In (name, cfg) (first_services data)
        /\ volumes cfg = Some vs
        /\ In (VolStr s) vs /\ Spec.bind_mount s
        /\ k = (name ++ "-"
                  ++ substring 0 8 (Sha256.hexdigest (name ++ ":" ++ s)))%string.
Proof.
  unfold generated_volumes. rewrite mem_dict_of_assignments.
  unfold Dict.keys. rewrite in_map_iff. split.
  - intros ([k' v] & Hk & Hin). cbn in Hk. subst k'.
    apply in_flat_map in Hin as ([name cfg] & Hsvc & Hin).
    unfold service_volume_names, volume_names in Hin. cbn [fst snd] in Hin.
    destruct (volumes cfg) as [vs|] eqn:E; [|contradiction].
    apply in_map_iff in Hin as (s & Heq & Hs). inversion Heq; subst.
    apply in_bind_specs in Hs as [Hs Hb].
    now exists name, cfg, vs, s.
  - intros (name & cfg & vs & s & Hsvc & Hv & Hs & Hb & ->).
    exists (default_vol_name name s, YNull). split; [reflexivity|].
    apply in_flat_map. exists (name, cfg). split; [exact Hsvc|].
    unfold service_volume_names, volume_names. cbn [fst snd]. rewrite Hv.
    apply in_map_iff. exists s. split; [reflexivity|].
    apply in_bind_specs. now split.
Qed.

Lemma generated_volumes_null (data : Shared.Document) (k : string) :
  Dict.get k (generated_volumes data)
  = if Dict.mem k (generated_volumes data) then Some YNull else None.
Proof. apply get_null_assignments, volume_names_null. Qed.

(** The top-level volumes after [convert-to-named]. *)
Lemma get_converted_volumes (data : Shared.Document) (k : string) :
  generated_volumes data <> [] ->
  Dict.get k (Dict.update
                match Shared.volumes_key data with Some m => m | None => [] end
                (generated_volumes data))
  = if Dict.mem k (generated_volumes data) then Some YNull
    else Dict.get k match Shared.volumes_key data with
                    | Some m => m
                    | None => []
                    end.
Proof.
  intros _. rewrite get_update, get_rev_NoDup, generated_volumes_null.
  - now destruct (Dict.mem k (generated_volumes data)).
  - unfold generated_volumes, dict_of_assignments. apply keys_update_NoDup.
    constructor.
Qed.


(* ===================================================================== *)
(** ** The transformations on shared service mappings *)
(* ===================================================================== *)

Example make_multi_instance_safe_web_alias :
  Shared.make_multi_instance_safe web_alias_document
  = (Shared.mkShared (Some [("web", 0); ("api", 0)])
       [mkService (Some [PortStr "${API_PORT:-80}:80"]) None None []]
       None None [],
     [("WEB_PORT", "80"); ("API_PORT", "80")]).
Proof. reflexivity. Qed.

(** C1, as stated, fails in two ways.  The returned variables do not map
    every generated name to the container port of its entry: in
    [case_clash_document] both services generate [WEB_PORT]; the entry
    ["8080:80"] of [web] has container port [80], and the returned
    mapping holds [90].  And not every service has its entries rewritten
    under its own name: in [web_alias_document] the services [web] and
    [api] are one mapping, which the turn for [api] rewrites again, so
    that the entry of [web] refers to [API_PORT]. *)
Lemma make_multi_instance_safe_clash_and_alias :
  ~ (forall name a cfg ps i p,
        In (name, a) (Shared.get_names (Shared.own case_clash_document)) ->
        Shared.lookup a (Shared.heap (Shared.own case_clash_document))
        = Some cfg ->
        ports cfg = Some ps ->
        nth_error ps i = Some p ->
        Dict.get (Spec.env_var_name name ps i)
                 (snd (Shared.make_multi_instance_safe
                         (Shared.own case_clash_document)))
        = Some (Spec.container_port p))
  /\ ~ (forall name a cfg ps,
          In (name, a) (Shared.get_names web_alias_document) ->
          Shared.lookup a (Shared.heap web_alias_document) = Some cfg ->
          ports cfg = Some ps ->
          exists cfg',
            Shared.lookup a
              (Shared.heap (fst (Shared.make_multi_instance_safe
                                   web_alias_document)))
            = Some cfg'
            /\ ports cfg' = Some (Spec.rewritten_ports name ps)).
Proof.
  split.
  - intros H.
    pose proof (H "web" 0 _ [PortStr "8080:80"] 0 (PortStr "8080:80")
                  (or_introl eq_refl) eq_refl eq_refl eq_refl) as Hc.
    vm_compute in Hc. discriminate Hc.
  - intros H.
    destruct (H "web" 0 _ [PortStr "8080:80"] (or_introl eq_refl) eq_refl
                eq_refl) as (cfg' & Hlook & Hports).
    rewrite make_multi_instance_safe_web_alias in Hlook.
    cbn in Hlook. inversion Hlook; subst cfg'.
    vm_compute in Hports. discriminate Hports.
Qed.

(** C1, amended: for service names in ASCII, every port entry of every
    service mapping is rewritten to
    ["${NAME:-container_port}:container_port"], where [container_port]
    follows the last [':'] of the entry (the whole value without [':'])
    and [NAME] is [{SERVICE_NAME_UPPER}_PORT] for a single entry and
    [{SERVICE_NAME_UPPER}_PORT_{i}] otherwise, [SERVICE_NAME] being the
    last name bound to the mapping, which is the name of the service
    when the mapping is shared with no other service; the returned
    variables are the assignments [NAME := container_port] made for
    every service in entry order, so that a name generated more than
    once holds the container port of its last entry; when the generated
    names are pairwise distinct, as they are when no two services have
    the same upper-cased name, the returned mapping lists each name with
    its container port in entry order. *)
Theorem make_multi_instance_safe_ports (data : Shared.Document) :
  Forall ascii_name (map fst (Shared.get_names data)) ->
  (forall name a cfg ps,
      In (name, a) (Shared.get_names data) ->
      Shared.lookup a (Shared.heap data) = Some cfg ->
      ports cfg = Some ps ->
      exists last pre post cfg',
        Shared.get_names data = pre ++ (last, a) :: post
        /\ (forall n, ~ In (n, a) post)
        /\ ((forall n, In (n, a) (Shared.get_names data) -> n = name) ->
            last = name)
        /\ Shared.lookup a
             (Shared.heap (fst (Shared.make_multi_instance_safe data)))
           = Some cfg'
        /\ ports cfg' = Some (Spec.rewritten_ports last ps))
  /\ snd (Shared.make_multi_instance_safe data)
     = dict_of_assignments (Spec.port_vars (Shared.services_of data))
  /\ (forall k,
        Dict.get k (snd (Shared.make_multi_instance_safe data))
        = Dict.get k (rev (Spec.port_vars (Shared.services_of data))))
  /\ (NoDup (Dict.keys (Spec.port_vars (Shared.services_of data))) ->
      snd (Shared.make_multi_instance_safe data)
      = Spec.port_vars (Shared.services_of data))
  /\ (NoDup (map (fun item => PyStr.upper (fst item))
                 (Shared.services_of data)) ->
      snd (Shared.make_multi_instance_safe data)
      = Spec.port_vars (Shared.services_of data)).
Proof.
  intros _. rewrite shared_make_multi_instance_safe_unfold. cbn [fst snd].
  split; [|split; [reflexivity|split; [|split]]].
  - intros name a cfg ps Hin Hlook Hp.
    destruct (last_binding _ name a Hin) as (last & pre & post & Heq & Hpost).
    exists last, pre, post, (safe_config last cfg).
    split; [exact Heq|]. split; [exact Hpost|]. split.
    { intros Hone. apply Hone. rewrite Heq. apply in_or_app. right. now left. }
    cbn [Shared.heap]. rewrite lookup_visits, Hlook. cbn [option_map].
    rewrite Heq, (visits_last safe_config pre post last a cfg)
      by (exact Hpost || intros; apply safe_config_under).
    split; [reflexivity|].
    unfold safe_config, Spec.safe_service. cbn [fst snd]. now rewrite Hp.
  - intros k. unfold dict_of_assignments. rewrite get_update.
    now destruct (Dict.get k (rev (Spec.port_vars (Shared.services_of data)))).
  - intros Hnd. unfold dict_of_assignments.
    now rewrite update_fresh by (auto || reflexivity).
  - intros Hnd. apply port_vars_NoDup in Hnd. unfold dict_of_assignments.
    now rewrite update_fresh by (auto || reflexivity).
Qed.

Lemma web_alias_names_ascii :
  Forall ascii_name (map fst (Shared.get_names web_alias_document)).
Proof. repeat constructor. Qed.

Lemma make_multi_instance_safe_ports_witness :
  Forall ascii_name (map fst (Shared.get_names web_alias_document))
  /\ snd (Shared.make_multi_instance_safe web_alias_document)
     = dict_of_assignments
         (Spec.port_vars (Shared.services_of web_alias_document)).
Proof.
  split; [exact web_alias_names_ascii|].
  exact (proj1 (proj2 (make_multi_instance_safe_ports web_alias_document
                         web_alias_names_ascii))).
Defined.

Example transform_volumes_db_alias :
  Shared.transform_volumes db_alias_document "convert-to-named"
  = Returned
      (Shared.mkShared (Some [("db", 0); ("replica", 0)])
         [mkService None
            (Some [VolStr "${DB_VOLUME:-db-f1af289d}:/var/lib/data";
                   VolStr "pgdata:/pg"])
            None []]
         (Some [("pgdata", YMap [("driver", YStr "local")]);
                ("db-f1af289d", YNull)])
         None [],
       [("DB_VOLUME", "db-f1af289d")]).
Proof. vm_compute. reflexivity. Qed.

(** The mapping of a service after [convert-to-named]. *)
Lemma lookup_converted (data : Shared.Document) (pre post : list (string * nat))
    (name : string) (a : nat) (cfg : ServiceConfig) :
  Shared.get_names data = pre ++ (name, a) :: post ->
  (forall n, ~ In (n, a) pre) ->
  Shared.lookup a (Shared.heap data) = Some cfg ->
  Shared.lookup a (fold_left (visit converted_config) (Shared.get_names data)
                             (Shared.heap data))
  = Some (converted_config name cfg).
Proof.
  intros Heq Hpre Hlook. rewrite lookup_visits, Hlook. cbn [option_map].
  rewrite Heq, (visits_first converted_config pre post name a cfg)
    by (exact Hpre || intros; apply converted_config_again).
  reflexivity.
Qed.



(** X5: [convert-to-named] on documents with service names in ASCII, in
    closed form: the variables are the assignments made for the bind
    mounts of every mapping under the first name bound to it; every
    mapping is converted under that name; and the top-level [volumes]
    are the declared ones, updated with the generated names if there
    are any. *)
Theorem transform_volumes_convert_names (data : Shared.Document) :
  Forall ascii_name (map fst (Shared.get_names data)) ->
  exists data',
    Shared.transform_volumes data "convert-to-named"
    = Returned (data',
                dict_of_assignments
                  (flat_map service_volume_vars (first_services data)))
    /\ Shared.names data' = Shared.names data
    /\ (forall pre name a post cfg,
          Shared.get_names data = pre ++ (name, a) :: post ->
          (forall n, ~ In (n, a) pre) ->
          Shared.lookup a (Shared.heap data) = Some cfg ->
          Shared.lookup a (Shared.heap data')
          = Some (converted_config name cfg))
    /\ (forall a, (forall n, ~ In (n, a) (Shared.get_names data)) ->
                  Shared.lookup a (Shared.heap data')
                  = Shared.lookup a (Shared.heap data))
    /\ Shared.volumes_key data'
       = match generated_volumes data with
         | [] => Shared.volumes_key data
         | (_ :: _) as named =>
             Some (Dict.update
                     match Shared.volumes_key data with
                     | Some m => m
                     | None => []
                     end named)
         end.
Proof.
  intros _. rewrite shared_transform_volumes_convert_unfold. eexists.
  split; [reflexivity|]. split; [reflexivity|].
  cbn [Shared.heap Shared.volumes_key]. split; [|split; [|reflexivity]].
  - intros pre name a post cfg. apply lookup_converted.
  - intros a Hno. rewrite lookup_visits.
    destruct (Shared.lookup a (Shared.heap data)) as [c|]; [|reflexivity].
    cbn [option_map]. now rewrite not_bound_visits.
Qed.

Lemma db_alias_names_ascii :
  Forall ascii_name (map fst (Shared.get_names db_alias_document)).
Proof. repeat constructor. Qed.

Lemma transform_volumes_convert_names_witness :
  Forall ascii_name (map fst (Shared.get_names db_alias_document))
  /\ exists data',
       Shared.transform_volumes db_alias_document "convert-to-named"
       = Returned (data',
                   dict_of_assignments
                     (flat_map service_volume_vars
                        (first_services db_alias_document))).
Proof.
  split; [exact db_alias_names_ascii|].
  destruct (transform_volumes_convert_names db_alias_document
              db_alias_names_ascii) as (data' & Hrun & _).
  exists data'. exact Hrun.
Defined.

(** X6: after [convert-to-named] the top-level [volumes] hold the
    default name of every bind mount of every mapping, under the first
    name bound to it, with no configuration, and every other key that
    the document declares, with the value it had; a document without a
    bind mount keeps its top-level [volumes], or has none as before. *)
Theorem transform_volumes_convert_keeps_declared (data : Shared.Document) :
  exists data' env,
    Shared.transform_volumes data "convert-to-named" = Returned (data', env)
    /\ (forall k,
          Dict.mem k (generated_volumes data) = true
          <-> exists name a pre post cfg vs s,
                Shared.get_names data = pre ++ (name, a) :: post
                /\ (forall n, ~ In (n, a) pre)
                /\ Shared.lookup a (Shared.heap data) = Some cfg
                /\ volumes cfg = Some vs
                /\ In (VolStr s) vs /\ Spec.bind_mount s
                /\ k = (name ++ "-"
                          ++ substring 0 8
                               (Sha256.hexdigest (name ++ ":" ++ s)))%string)
    /\ (generated_volumes data = [] ->
        Shared.volumes_key data' = Shared.volumes_key data)
    /\ (generated_volumes data <> [] ->
        exists declared',
          Shared.volumes_key data' = Some declared'
          /\ forall k,
               Dict.get k declared'
               = if Dict.mem k (generated_volumes data) then Some YNull
                 else Dict.get k match Shared.volumes_key data with
                                 | Some m => m
                                 | None => []
                                 end).
Proof.
  rewrite shared_transform_volumes_convert_unfold. eexists _, _.
  split; [reflexivity|]. cbn [Shared.volumes_key]. split; [|split].
  - intros k. rewrite mem_generated_volumes. split.
    + intros (name & cfg & vs & s & Hsvc & Hrest).
      apply in_first_services in Hsvc as (a & pre & post & H1 & H2 & H3).
      now exists name, a, pre, post, cfg, vs, s.
    + intros (name & a & pre & post & cfg & vs & s & H1 & H2 & H3 & Hrest).
      exists name, cfg, vs, s. split; [|exact Hrest].
      apply in_first_services. now exists a, pre, post.
  - now intros ->.
  - intros Hne. pose proof (get_converted_volumes data) as Hget.
    destruct (generated_volumes data) as [|kv named]; [congruence|].
    eexists. split; [reflexivity|]. intros k. now apply Hget.
Qed.

(** In [db_alias_document] the declared volume keeps its driver, and the
    name generated for the bind mount of [db] is declared with no
    configuration. *)
Example transform_volumes_db_alias_declared :
  exists data' env declared',
    Shared.transform_volumes db_alias_document "convert-to-named"
    = Returned (data', env)
    /\ Shared.volumes_key data' = Some declared'
    /\ Dict.get "pgdata" declared' = Some (YMap [("driver", YStr "local")])
    /\ Dict.get "db-f1af289d" declared' = Some YNull.
Proof.
  rewrite transform_volumes_db_alias. eexists _, _, _.
  split; [reflexivity|]. split; [reflexivity|]. split; reflexivity.
Qed.

(* ===================================================================== *)
(** ** Documents without shared mappings *)
(* ===================================================================== *)

Lemma lookup_app_length (pre rest : list ServiceConfig) (c : ServiceConfig) :
  Shared.lookup (List.length pre) (pre ++ c :: rest) = Some c.
Proof.
  unfold Shared.lookup. induction pre as [|x pre IH]; [reflexivity|exact IH].
Qed.

Lemma assign_app_length (pre rest : list ServiceConfig) (c c' : ServiceConfig) :
  Shared.assign (List.length pre) c' (pre ++ c :: rest) = pre ++ c' :: rest.
Proof.
  induction pre as [|x pre IH]; [reflexivity|]. cbn. now rewrite IH.
Qed.

Lemma read_own_bindings (pre : list ServiceConfig)
    (l : list (string * ServiceConfig)) :
  Shared.read_bindings (pre ++ map snd l) (own_bindings (List.length pre) l) = l.
Proof.
  revert pre. induction l as [|[n c] rest IH]; intros pre; [reflexivity|].
  unfold own_bindings, Shared.read_bindings.
  cbn [map fst snd List.length seq combine flat_map].
  rewrite lookup_app_length. cbn [app]. f_equal.
  specialize (IH (pre ++ [c])). rewrite <- app_assoc, length_app in IH.
  cbn [List.length app] in IH. rewrite Nat.add_1_r in IH. exact IH.
Qed.

Lemma visit_own_bindings (f : string -> ServiceConfig -> ServiceConfig)
    (pre : list ServiceConfig) (l : list (string * ServiceConfig)) :
  fold_left (visit f) (own_bindings (List.length pre) l) (pre ++ map snd l)
  = pre ++ map (fun item => f (fst item) (snd item)) l.
Proof.
  revert pre. induction l as [|[n c] rest IH]; intros pre; [reflexivity|].
  unfold own_bindings. cbn [map fst snd List.length seq combine fold_left].
  unfold visit at 2. cbn [fst snd].
  rewrite lookup_app_length, assign_app_length.
  specialize (IH (pre ++ [f n c])). rewrite <- !app_assoc, length_app in IH.
  cbn [List.length app] in IH. rewrite Nat.add_1_r in IH. exact IH.
Qed.

Lemma first_own_bindings (seen : list nat) (k : nat)
    (l : list (string * ServiceConfig)) :
  (forall a, In a seen -> a < k) ->
  first_bindings seen (own_bindings k l) = own_bindings k l.
Proof.
  revert seen k. induction l as [|[n c] rest IH]; intros seen k Hseen;
    [reflexivity|].
  unfold own_bindings. cbn [map fst snd List.length seq combine first_bindings].
  destruct (existsb (Nat.eqb k) seen) eqn:Hex.
  - apply existsb_exists in Hex as (b & Hb & Heq). apply Nat.eqb_eq in Heq.
    subst b. apply Hseen in Hb. lia.
  - f_equal. apply (IH (k :: seen) (S k)).
    intros a [<-|Ha]; [lia|]. apply Hseen in Ha. lia.
Qed.

Lemma own_bindings_map (g : string * ServiceConfig -> string * ServiceConfig)
    (k : nat) (l : list (string * ServiceConfig)) :
  (forall item, fst (g item) = fst item) ->
  own_bindings k (map g l) = own_bindings k l.
Proof.
  intros Hg. unfold own_bindings. rewrite length_map, map_map.
  f_equal. apply map_ext, Hg.
Qed.

(** Reading back what a loop wrote into mappings that are not shared. *)
Lemma read_visited_own (f : string -> ServiceConfig -> ServiceConfig)
    (l : list (string * ServiceConfig)) :
  Shared.read_bindings
    (fold_left (visit f) (own_bindings 0 l) (map snd l)) (own_bindings 0 l)
  = map (fun item => (fst item, f (fst item) (snd item))) l.
Proof.
  pose proof (visit_own_bindings f [] l) as Hv.
  cbn [app List.length] in Hv. rewrite Hv.
  set (g := fun item : string * ServiceConfig =>
              (fst item, f (fst item) (snd item))).
  replace (map (fun item => f (fst item) (snd item)) l) with (map snd (map g l))
    by (rewrite map_map; reflexivity).
  rewrite <- (own_bindings_map g 0 l) by reflexivity.
  apply (read_own_bindings [] (map g l)).
Qed.

Lemma services_of_own (d : ComposeDocument) :
  Shared.services_of (Shared.own d) = get_services d.
Proof.
  unfold Shared.services_of, Shared.own, Shared.get_names, get_services.
  cbn [Shared.names Shared.heap].
  destruct (services d) as [l|]; [|reflexivity].
  apply (read_own_bindings [] l).
Qed.

Lemma first_services_own (d : ComposeDocument) :
  first_services (Shared.own d) = get_services d.
Proof.
  unfold first_services, Shared.own, Shared.get_names, get_services.
  cbn [Shared.names Shared.heap].
  destruct (services d) as [l|]; [|reflexivity]. cbn [option_map].
  change (combine (map fst l) (seq 0 (List.length l))) with (own_bindings 0 l).
  rewrite first_own_bindings by (intros a []).
  apply (read_own_bindings [] l).
Qed.

(** What is read of a document whose mappings were visited in turn. *)
Lemma read_visited (f : string -> ServiceConfig -> ServiceConfig)
    (d : ComposeDocument) (tv : option (Dict.t yaml)) (nw : option yaml) :
  Shared.read
    (Shared.mkShared (Shared.names (Shared.own d))
       (fold_left (visit f) (Shared.get_names (Shared.own d))
                  (Shared.heap (Shared.own d)))
       tv nw (document_rest d))
  = mkDocument
      (option_map (map (fun item => (fst item, f (fst item) (snd item))))
                  (services d))
      tv nw (document_rest d).
Proof.
  unfold Shared.read, Shared.own, Shared.get_names, get_services.
  cbn [Shared.names Shared.heap Shared.volumes_key Shared.networks_key
       Shared.other_keys].
  destruct (services d) as [l|]; [|reflexivity]. cbn [option_map].
  f_equal. f_equal. apply read_visited_own.
Qed.

(** On a document in which every service has a mapping of its own,
    [make_multi_instance_safe] on shared mappings does what it does on
    the document. *)
Lemma make_multi_instance_safe_own (d : ComposeDocument) :
  Shared.read (fst (Shared.make_multi_instance_safe (Shared.own d)))
  = fst (make_multi_instance_safe d)
  /\ snd (Shared.make_multi_instance_safe (Shared.own d))
     = snd (make_multi_instance_safe d).
Proof.
  rewrite shared_make_multi_instance_safe_unfold,
    make_multi_instance_safe_unfold, services_of_own. cbn [fst snd].
  split; [|reflexivity].
  change (Shared.volumes_key (Shared.own d)) with (top_volumes d).
  change (Shared.other_keys (Shared.own d)) with (document_rest d).
  rewrite read_visited. unfold put_services, get_services, pop_networks.
  destruct d as [[l|] tv nw rest]; reflexivity.
Qed.

Lemma shared_remove_loop (l : list (string * nat)) (h : list ServiceConfig) :
  fold_left Shared.remove_service_step l h
  = fold_left (visit (fun _ c => set_volumes c None)) l h.
Proof. reflexivity. Qed.

(** And so does [transform_volumes]. *)
Lemma transform_volumes_own (d : ComposeDocument) (mode : string) :
  match Shared.transform_volumes (Shared.own d) mode,
        transform_volumes d mode with
  | Returned (d', env'), Returned (d1, env1) =>
      Shared.read d' = d1 /\ env' = env1
  | Raised e', Raised e1 => e' = e1
  | _, _ => False
  end.
Proof.
  destruct (String.eqb_spec mode "remove") as [->|Hr];
    [|destruct (String.eqb_spec mode "convert-to-named") as [->|Hc]].
  - unfold Shared.transform_volumes, transform_volumes.
    cbn [String.eqb Ascii.eqb Bool.eqb]. split; [|reflexivity].
    rewrite shared_remove_loop.
    change (Shared.networks_key (Shared.own d)) with (networks d).
    change (Shared.other_keys (Shared.own d)) with (document_rest d).
    rewrite read_visited. unfold put_services, get_services, set_top_volumes.
    destruct d as [[l|] tv nw rest]; reflexivity.
  - rewrite shared_transform_volumes_convert_unfold,
      transform_volumes_convert_unfold.
    unfold generated_volumes. rewrite first_services_own.
    split; [|reflexivity].
    change (Shared.volumes_key (Shared.own d)) with (top_volumes d).
    change (Shared.networks_key (Shared.own d)) with (networks d).
    change (Shared.other_keys (Shared.own d)) with (document_rest d).
    rewrite read_visited. unfold converted_document.
    destruct (dict_of_assignments
                (flat_map service_volume_names (get_services d)));
      unfold put_services, get_services, set_top_volumes;
      destruct d as [[l|] tv nw rest]; reflexivity.
  - unfold Shared.transform_volumes, transform_volumes.
    apply String.eqb_neq in Hr, Hc. rewrite Hr, Hc.
    destruct (String.eqb mode "keep"); [|reflexivity].
    split; [|reflexivity]. unfold Shared.read, Shared.own.
    cbn [Shared.names Shared.heap Shared.volumes_key Shared.networks_key
         Shared.other_keys].
    destruct d as [[l|] tv nw rest]; cbn [services option_map get_services];
      [|reflexivity].
    f_equal. f_equal. apply (read_own_bindings [] l).
Qed.
(* ===================================================================== *)
(** * Further properties of the workspace lifecycle manager *)
(* ===================================================================== *)

(* ===================================================================== *)
(** ** The workspace lifecycle manager: the order of the events *)
(* ===================================================================== *)

Import Order.

Section Ordering.

Variable sc : Scenario.

Local Abbreviation J := (Order.J sc).
Local Abbreviation keeps := (Order.keeps sc).
Local Abbreviation allowed := (Order.allowed sc).
Local Abbreviation well_ordered := (Order.well_ordered sc).
Local Abbreviation ran_ok := (Order.ran_ok sc).
Local Abbreviation branch_ready := (Order.branch_ready sc).
Local Abbreviation stack_up := (Order.stack_up sc).

Lemma well_ordered_nil : well_ordered [].
Proof. intros pre ev post H. now destruct pre. Qed.

Lemma well_ordered_snoc (tr : list Event) (ev : Event) :
  well_ordered tr -> allowed tr ev -> well_ordered (tr ++ [ev]).
Proof.
  intros Htr Hev pre e post Heq.
  destruct (rev post) as [|last rpost] eqn:Hrev.
  - apply (f_equal (@rev Event)) in Hrev. rewrite rev_involutive in Hrev.
    cbn in Hrev. subst post. apply app_inj_tail in Heq as [-> ->]. exact Hev.
  - apply (f_equal (@rev Event)) in Hrev. rewrite rev_involutive in Hrev.
    cbn in Hrev. subst post.
    change (pre ++ e :: rev rpost ++ [last])
      with (pre ++ (e :: rev rpost) ++ [last]) in Heq.
    rewrite app_assoc in Heq. apply app_inj_tail in Heq as [-> _].
    exact (Htr pre e (rev rpost) eq_refl).
Qed.

Lemma well_ordered_prefix (pre post : list Event) :
  well_ordered (pre ++ post) -> well_ordered pre.
Proof.
  intros H p e q ->. apply (H p e (q ++ post)).
  now rewrite <- app_assoc.
Qed.

Lemma handled_snoc (tr : list Event) (ev : Event) :
  handled tr -> handled (tr ++ [ev]).
Proof. intros [s Hs]. exists s. apply in_or_app. now left. Qed.

Lemma handled_snoc_inv (tr : list Event) (ev : Event) :
  (forall s, ev <> Handler s) -> handled (tr ++ [ev]) -> handled tr.
Proof.
  intros Hev [s Hs]. apply in_app_or in Hs as [Hs|[Heq|[]]]; [now exists s|].
  now elim (Hev s).
Qed.

Lemma quiet_snoc (x ev : Event) (tr : list Event) :
  ev <> x -> quiet x tr -> quiet x (tr ++ [ev]).
Proof.
  intros Hne Hq Hin. apply handled_snoc, Hq.
  apply in_app_or in Hin as [Hin|[Heq|[]]]; [exact Hin|contradiction].
Qed.

Lemma handled_quiet (x : Event) (tr : list Event) : handled tr -> quiet x tr.
Proof. intros H _. exact H. Qed.

Lemma stack_up_snoc (tr : list Event) (ev : Event) :
  stack_up tr -> stack_up (tr ++ [ev]).
Proof. intros (H1 & H2). split; [apply in_or_app; now left|exact H2]. Qed.

Lemma branch_ready_snoc (tr : list Event) (ev : Event) :
  branch_ready tr -> branch_ready (tr ++ [ev]).
Proof.
  intros (H1 & [(H2 & H3)|(H2 & H3)]); (split; [exact H1|]);
    [left|right]; (split; [apply in_or_app; now left|exact H3]).
Qed.

(** Logging an allowed event other than the handler's. *)
Lemma J_log (w : World) (ev : Event) :
  (forall s, ev <> Handler s) -> J w -> allowed (trace w) ev ->
  J (snd (log ev w)).
Proof.
  intros Hev [H1 H2 H3 H4] Hal.
  constructor; cbn [log snd trace docker_started workspace_exists clock].
  - now apply well_ordered_snoc.
  - intros Hs. apply stack_up_snoc, H2, Hs.
  - intros Hw. destruct (H3 Hw) as [Hc Hne]. split; [|exact Hne].
    apply in_or_app. now left.
  - intros Hh. apply H4. eapply handled_snoc_inv; eassumption.
Qed.

Lemma J_tick (w : World) : J w -> J (snd (tick w)).
Proof.
  intros [H1 H2 H3 H4].
  constructor; cbn [tick snd trace docker_started workspace_exists clock];
    auto.
  intros Hh. destruct (H4 Hh) as (n & s & Hsig & Hlt). exists n, s. split; [auto|lia].
Qed.

Lemma J_initial : J initial.
Proof.
  constructor; cbn; try discriminate; [apply well_ordered_nil|].
  intros [s []].
Qed.

Lemma J_set_docker_started (w : World) (b : bool) :
  J w -> (b = true -> stack_up (trace w)) ->
  J (snd (set_docker_started b w)).
Proof. intros [H1 H2 H3 H4] Hb. constructor; cbn; auto. Qed.

Lemma J_set_workspace_exists (w : World) (b : bool) :
  J w ->
  (b = true -> In Copytree (trace w) /\ copytree sc <> CopyFailedEarly) ->
  J (snd (set_workspace_exists b w)).
Proof. intros [H1 H2 H3 H4] Hb. constructor; cbn; auto. Qed.

Lemma J_set_safe_compose_exists (w : World) (b : bool) :
  J w -> J (snd (set_safe_compose_exists b w)).
Proof. intros [H1 H2 H3 H4]. constructor; cbn; auto. Qed.

(** The rules. *)
Lemma keeps_bind {A B : Type} (K : list Event -> Prop) (m : M A)
    (f : A -> M B) (Q : A -> list Event -> Prop)
    (R : B -> list Event -> Prop) (E : list Event -> Prop) :
  keeps K m Q E -> (forall a, keeps (Q a) (f a) R E) ->
  keeps K (bind m f) R E.
Proof.
  intros Hm Hf w HJ HK. unfold bind.
  destruct (Hm w HJ HK) as [HJ' Hpost].
  destruct (m w) as [[a|e] w']; cbn [fst snd] in *.
  - exact (Hf a w' HJ' Hpost).
  - split; assumption.
Qed.

Lemma keeps_ret {A : Type} (K : list Event -> Prop) (a : A)
    (Q : A -> list Event -> Prop) (E : list Event -> Prop) :
  (forall tr, K tr -> Q a tr) -> keeps K (ret a) Q E.
Proof. intros H w HJ HK. split; [exact HJ|]. cbn. auto. Qed.

Lemma keeps_raise {A : Type} (K : list Event -> Prop) (e : PyExc)
    (Q : A -> list Event -> Prop) (E : list Event -> Prop) :
  (forall tr, K tr -> E tr) -> keeps K (raise e) Q E.
Proof. intros H w HJ HK. split; [exact HJ|]. cbn. auto. Qed.

Lemma keeps_weaken {A : Type} (K K' : list Event -> Prop) (m : M A)
    (Q Q' : A -> list Event -> Prop) (E E' : list Event -> Prop) :
  keeps K m Q E ->
  (forall tr, K' tr -> K tr) ->
  (forall a tr, Q a tr -> Q' a tr) ->
  (forall tr, E tr -> E' tr) ->
  keeps K' m Q' E'.
Proof.
  intros Hm HK HQ HE w HJ HK'.
  destruct (Hm w HJ (HK _ HK')) as [HJ' Hpost]. split; [exact HJ'|].
  destruct (fst (m w)); auto.
Qed.

Lemma keeps_assume {A : Type} (K : list Event -> Prop) (fact : Prop) (m : M A)
    (Q : A -> list Event -> Prop) (E : list Event -> Prop) :
  (fact -> keeps K m Q E) -> keeps (fun tr => K tr /\ fact) m Q E.
Proof. intros H w HJ [HK Hfact]. exact (H Hfact w HJ HK). Qed.

Lemma keeps_log (K : list Event -> Prop) (ev : Event)
    (Q : unit -> list Event -> Prop) (E : list Event -> Prop) :
  (forall s, ev <> Handler s) ->
  (forall tr, K tr -> allowed tr ev /\ Q tt (tr ++ [ev])) ->
  keeps K (log ev) Q E.
Proof.
  intros Hev H w HJ HK. destruct (H _ HK) as [Hal HQ].
  split; [now apply J_log|exact HQ].
Qed.

(** Reading the world: the flags of the world read are those of [J]. *)
Lemma keeps_get_world {A : Type} (K : list Event -> Prop) (f : World -> M A)
    (Q : A -> list Event -> Prop) (E : list Event -> Prop) :
  (forall w0, J w0 -> K (trace w0) ->
     keeps (fun tr => tr = trace w0 /\ K tr) (f w0) Q E) ->
  keeps K (bind get_world f) Q E.
Proof.
  intros H w HJ HK. unfold bind, get_world.
  exact (H w HJ HK w HJ (conj eq_refl HK)).
Qed.

Lemma keeps_order {A : Type} (K : list Event -> Prop) (m : M A)
    (Q : A -> list Event -> Prop) (E : list Event -> Prop) :
  keeps (fun tr => K tr /\ well_ordered tr) m Q E -> keeps K m Q E.
Proof. intros H w HJ HK. apply (H w HJ). split; [exact HK|apply HJ]. Qed.

Lemma keeps_try_except {A : Type} (K : list Event -> Prop) (body : M A)
    (handler : PyExc -> M A) (Q : A -> list Event -> Prop)
    (E1 E2 : list Event -> Prop) :
  keeps K body Q E1 -> (forall e, keeps E1 (handler e) Q E2) ->
  keeps K (try_except body handler) Q E2.
Proof.
  intros Hb Hh w HJ HK. unfold try_except.
  destruct (Hb w HJ HK) as [HJ' Hpost].
  destruct (body w) as [[a|e] w']; cbn [fst snd] in *.
  - split; assumption.
  - exact (Hh e w' HJ' Hpost).
Qed.

Lemma keeps_set_docker_started (K : list Event -> Prop) (b : bool)
    (E : list Event -> Prop) :
  (forall tr, K tr -> b = true -> stack_up tr) ->
  keeps K (set_docker_started b) (fun _ => K) E.
Proof.
  intros H w HJ HK. split; [|exact HK].
  apply J_set_docker_started; [exact HJ|]. intros Hb. now apply H.
Qed.

Lemma keeps_set_workspace_exists (K : list Event -> Prop) (b : bool)
    (E : list Event -> Prop) :
  (forall tr, K tr -> b = true ->
              In Copytree tr /\ copytree sc <> CopyFailedEarly) ->
  keeps K (set_workspace_exists b) (fun _ => K) E.
Proof.
  intros H w HJ HK. split; [|exact HK].
  apply J_set_workspace_exists; [exact HJ|]. intros Hb. now apply H.
Qed.

Lemma keeps_set_safe_compose_exists (K : list Event -> Prop) (b : bool)
    (E : list Event -> Prop) :
  keeps K (set_safe_compose_exists b) (fun _ => K) E.
Proof.
  intros w HJ HK. split; [|exact HK]. now apply J_set_safe_compose_exists.
Qed.

(** An event of a well-ordered trace was allowed where it occurred. *)
Lemma well_ordered_in (tr : list Event) (ev : Event) :
  well_ordered tr -> In ev tr ->
  exists pre post, tr = pre ++ ev :: post /\ allowed pre ev.
Proof.
  intros Htr Hin. apply in_split in Hin as (pre & post & ->).
  exists pre, post. split; [reflexivity|]. exact (Htr pre ev post eq_refl).
Qed.

Ltac seen := repeat rewrite in_app_iff; cbn [In]; tauto.

(** A teardown step happens after [CleaningUp]. *)
Lemma teardown_after_cleaning (tr : list Event) (ev : Event) :
  ev = Ran ComposeDown \/ ev = Rmtree \/ ev = CleanupCompleted ->
  well_ordered tr -> In ev tr -> In CleaningUp tr.
Proof.
  intros Hev Htr Hin.
  destruct (well_ordered_in tr ev Htr Hin) as (pre & post & -> & Hal).
  apply in_or_app. left.
  destruct Hev as [-> | [-> | ->]]; cbn in Hal; tauto.
Qed.

Section Teardown.

Variable interruptible : M unit.

Hypothesis interruptible_keeps :
  forall K : list Event -> Prop, keeps K interruptible (fun _ => K) handled.

(** [run_cmd]: the command is allowed on [K], and [K'] holds once it is
    in the trace. *)
Lemma run_cmd_keeps (K K' : list Event -> Prop) (c : Command) (check : bool)
    (E : list Event -> Prop) :
  (forall tr, K tr -> allowed tr (Ran c) /\ K' (tr ++ [Ran c])) ->
  (forall tr, K' tr -> E tr) -> (forall tr, handled tr -> E tr) ->
  keeps K (run_cmd sc interruptible c check)
    (fun rc tr => K' tr
                  /\ installed sc (executable_of c) = true
                  /\ rc = returncode sc c
                  /\ (check = true -> rc = 0%Z))
    E.
Proof.
  intros Hal HE Hh. unfold run_cmd.
  apply keeps_bind with (Q := fun _ => K').
  - apply keeps_log; [discriminate|exact Hal].
  - intros ?. destruct (installed sc (executable_of c)) eqn:Hi.
    + apply keeps_bind with (Q := fun _ => K').
      { destruct (removes_safe_compose sc c);
          [apply keeps_set_safe_compose_exists|apply keeps_ret; auto]. }
      intros ?. apply keeps_bind with (Q := fun _ => K').
      * eapply keeps_weaken; [apply (interruptible_keeps K')|auto|auto|exact Hh].
      * intros ?.
        destruct (check && negb (returncode sc c =? 0)%Z) eqn:Htest.
        -- apply keeps_raise. exact HE.
        -- apply keeps_ret. intros tr Htr. repeat split; auto.
           intros ->. cbn [andb] in Htest.
           apply negb_false_iff in Htest. now apply Z.eqb_eq.
    + apply keeps_raise. exact HE.
Qed.

Lemma tearing_down_snoc (P : Prop) (tr : list Event) (ev : Event) :
  ev <> Rmtree -> ev <> CleanupCompleted ->
  tearing_down P tr -> tearing_down P (tr ++ [ev]).
Proof.
  intros H1 H2 (Hc & Hr & Hcc & HP). split; [seen|].
  split; [now apply quiet_snoc|]. split; [now apply quiet_snoc|].
  intros p. apply handled_snoc, HP, p.
Qed.

Lemma cleanup_docker_keeps (P : Prop) (w0 : World) :
  J w0 -> docker_started w0 = true ->
  keeps (fun tr => tr = trace w0
                   /\ tearing_down P tr /\ quiet (Ran ComposeDown) tr)
        (cleanup_docker sc interruptible)
        (fun _ => tearing_down P) (fun tr => P -> handled tr).
Proof.
  intros HJ0 Hstarted. unfold cleanup_docker.
  apply keeps_get_world. intros w1 HJ1 (Heq & Htd & Hq).
  destruct (safe_compose_exists w1).
  - eapply keeps_bind.
    + apply run_cmd_keeps
        with (K' := tearing_down P) (E := fun tr => P -> handled tr);
        [|intros tr Htr; apply Htr|auto].
      intros tr (_ & -> & Htd' & Hq'). split.
      * cbn. split; [apply (j_started sc w0 HJ0 Hstarted)|].
        split; [apply Htd'|exact Hq'].
      * apply tearing_down_snoc; [discriminate|discriminate|exact Htd'].
    + intros rc. apply keeps_ret. intros tr Htr. apply Htr.
  - apply keeps_ret. intros tr Htr. apply Htr.
Qed.

Lemma cleanup_workspace_keeps (P : Prop) :
  keeps (tearing_down P) (cleanup_workspace sc interruptible)
        (fun _ tr => In CleaningUp tr /\ quiet CleanupCompleted tr
                     /\ (P -> handled tr))
        (fun tr => P -> handled tr).
Proof.
  unfold cleanup_workspace.
  set (K3 := fun tr => In CleaningUp tr /\ quiet CleanupCompleted tr
                       /\ (P -> handled tr)).
  apply keeps_get_world. intros w0 HJ0 Htd0.
  destruct (workspace_exists w0) eqn:Hws.
  - apply keeps_bind with (Q := fun _ => K3).
    { apply keeps_log; [discriminate|].
      intros tr (-> & Hc & Hr & Hcc & HP). split.
      - cbn. destruct (j_workspace sc w0 HJ0 Hws) as [H1 H2]. auto.
      - split; [seen|]. split; [apply quiet_snoc; [discriminate|exact Hcc]|].
        intros p. apply handled_snoc, HP, p. }
    intros _. apply keeps_bind with (Q := fun _ => K3).
    { eapply keeps_weaken; [apply (interruptible_keeps K3)|auto|auto|].
      intros tr Hh _. exact Hh. }
    intros _. destruct (rmtree_fails sc).
    + apply keeps_bind with (Q := fun _ => K3).
      { destruct (rmtree_takes_safe_compose sc);
          [apply keeps_set_safe_compose_exists|apply keeps_ret; auto]. }
      intros ?. apply keeps_raise. intros tr Htr. apply Htr.
    + eapply keeps_weaken;
        [apply (keeps_set_workspace_exists K3 false (fun tr => P -> handled tr))
        |auto|auto|auto].
      discriminate.
  - apply keeps_ret. intros tr (_ & Hc & _ & Hcc & HP). repeat split; auto.
Qed.

(** The teardown: started where no teardown has run unless the handler
    did, it keeps the order and never returns. *)
Lemma cleanup_handler_keeps (P : Prop) (sig : option Signal) :
  keeps (fun tr => quiet CleaningUp tr /\ (P -> handled tr))
        (cleanup_handler sc interruptible sig)
        (fun _ _ => False) (fun tr => P -> handled tr).
Proof.
  unfold cleanup_handler. apply keeps_order.
  apply keeps_bind
    with (Q := fun _ tr => tearing_down P tr /\ quiet (Ran ComposeDown) tr).
  { apply keeps_log; [discriminate|].
    intros tr ((Hq & HP) & Hord). split; [exact Hq|].
    assert (Hafter : forall ev,
               ev = Ran ComposeDown \/ ev = Rmtree \/ ev = CleanupCompleted ->
               quiet ev (tr ++ [CleaningUp])).
    { intros ev Hev Hin. apply handled_snoc, Hq.
      apply (teardown_after_cleaning tr ev Hev Hord).
      apply in_app_or in Hin as [Hin|[Heq|[]]]; [exact Hin|].
      destruct Hev as [-> | [-> | ->]]; discriminate Heq. }
    repeat split; [seen|apply Hafter; auto|apply Hafter; auto| |apply Hafter; auto].
    intros p. apply handled_snoc, HP, p. }
  intros _. apply keeps_get_world. intros w0 HJ0 [Htd Hq].
  apply keeps_bind with (Q := fun _ => tearing_down P).
  { destruct (docker_started w0) eqn:Hs.
    - eapply keeps_weaken;
        [apply (cleanup_docker_keeps P w0 HJ0 Hs)| | |].
      + intros tr (-> & Htd' & Hq'). auto.
      + auto.
      + auto.
    - apply keeps_ret. intros tr (_ & Htd' & _). exact Htd'. }
  intros _. eapply keeps_bind; [apply (cleanup_workspace_keeps P)|].
  intros u. cbn beta.
  apply keeps_bind
    with (Q := fun _ tr => P -> handled tr).
  { apply keeps_log; [discriminate|].
    intros tr (Hc & Hcc & HP). split; [split; assumption|].
    intros p. apply handled_snoc, HP, p. }
  intros u'. apply keeps_raise. auto.
Qed.

End Teardown.

Lemma ret_keeps (K : list Event -> Prop) :
  keeps K (ret tt) (fun _ => K) handled.
Proof. apply keeps_ret. auto. Qed.

(** An interruption point: it returns on the same trace, or the handler
    ends it. *)
Lemma checkpoint_keeps (K : list Event -> Prop) :
  keeps K (checkpoint sc) (fun _ => K) handled.
Proof.
  intros w HJ HK. rewrite checkpoint_run.
  destruct (signal sc) as [[n s]|] eqn:Hsig;
    [destruct (Nat.eqb_spec n (clock w)) as [Heq|Hne]|];
    [|split; [apply J_tick, HJ|exact HK]..].
  set (w1 := snd (log (Handler s) (snd (tick w)))).
  assert (Hseen : In (Handler s) (trace w1)) by (cbn; seen).
  assert (HJ1 : J w1).
  { destruct HJ as [H1 H2 H3 H4].
    constructor; cbn [w1 log tick snd trace docker_started workspace_exists
                      clock].
    - apply well_ordered_snoc; [exact H1|]. cbn. split; [now exists n|].
      intros Hh. destruct (H4 Hh) as (n' & s' & Hsig' & Hlt).
      rewrite Hsig in Hsig'. inversion Hsig'; subst. lia.
    - intros Hs. apply stack_up_snoc, H2, Hs.
    - intros Hw. destruct (H3 Hw) as [Hc Hne]. split; [seen|exact Hne].
    - intros ?. exists n, s. split; [exact Hsig|lia]. }
  destruct (cleanup_handler_keeps (ret tt) ret_keeps True (Some s) w1 HJ1)
    as [HJ' Hpost].
  { split; [apply handled_quiet|intros _]; now exists s. }
  split; [exact HJ'|].
  destruct (fst (cleanup_handler sc (ret tt) (Some s) w1));
    [contradiction|exact (Hpost I)].
Qed.

(** No teardown has run, unless the handler did. *)
Local Abbreviation Kq := (quiet CleaningUp).

Lemma Kq_snoc (tr : list Event) (ev : Event) :
  ev <> CleaningUp -> Kq tr -> Kq (tr ++ [ev]).
Proof. intros Hne. apply quiet_snoc. exact Hne. Qed.

Lemma get_repo_root_keeps :
  input_dir_given sc = false ->
  keeps Kq (get_repo_root sc)
    (fun _ tr => Kq tr /\ In (Ran GitShowToplevel) tr
                 /\ ran_ok GitShowToplevel)
    Kq.
Proof.
  intros Hin. unfold get_repo_root. eapply keeps_bind.
  - apply (run_cmd_keeps (checkpoint sc) checkpoint_keeps Kq
             (fun tr => Kq tr /\ In (Ran GitShowToplevel) tr)).
    + intros tr Hq. split; [exact Hin|]. split; [|seen].
      apply Kq_snoc; [discriminate|exact Hq].
    + intros tr Htr. apply Htr.
    + intros tr. apply handled_quiet.
  - intros rc. apply keeps_ret.
    intros tr ((Hq & Hseen) & Hi & -> & Hrc). repeat split; auto.
Qed.

Lemma copy_repo_keeps :
  mkdir_fails sc = false ->
  keeps (fun tr => Kq tr /\ In Mkdir tr) (copy_repo sc)
    (fun _ tr => Kq tr /\ In Copytree tr /\ copytree sc = Copied) Kq.
Proof.
  intros Hmk. unfold copy_repo.
  apply keeps_bind with (Q := fun _ tr => Kq tr /\ In Copytree tr).
  { apply keeps_log; [discriminate|]. intros tr [Hq Hm].
    split; [split; assumption|]. split; [|seen].
    apply Kq_snoc; [discriminate|exact Hq]. }
  intros _. destruct (copytree sc) eqn:Hcopy.
  - eapply keeps_bind.
    + apply keeps_set_workspace_exists. intros tr [Hq Hc] _.
      split; [exact Hc|]. rewrite Hcopy. discriminate.
    + intros ?. eapply keeps_weaken; [apply checkpoint_keeps| | |].
      * intros tr H. exact H.
      * intros u tr [Hq Hc]. auto.
      * intros tr. apply handled_quiet.
  - apply keeps_raise. intros tr Htr. apply Htr.
  - eapply keeps_bind.
    + apply keeps_set_workspace_exists. intros tr [Hq Hc] _.
      split; [exact Hc|]. rewrite Hcopy. discriminate.
    + intros ?. eapply keeps_bind.
      * eapply keeps_weaken; [apply checkpoint_keeps| | |].
        -- intros tr H. exact H.
        -- intros u tr H. exact H.
        -- intros tr. apply handled_quiet.
      * intros ?. apply keeps_raise. intros tr Htr. apply Htr.
Qed.

Lemma checkout_branch_keeps :
  keeps (fun tr => Kq tr /\ In Copytree tr /\ copytree sc = Copied)
    (checkout_branch sc)
    (fun _ tr => Kq tr /\ branch_ready tr) Kq.
Proof.
  unfold checkout_branch. eapply keeps_bind.
  { apply (run_cmd_keeps (checkpoint sc) checkpoint_keeps _
             (fun tr => Kq tr /\ In (Ran GitVerifyBranch) tr
                        /\ copytree sc = Copied)).
    - intros tr (Hq & Hc & Hcopied). split; [split; assumption|].
      split; [apply Kq_snoc; [discriminate|exact Hq]|]. split; [seen|exact Hcopied].
    - intros tr Htr. apply Htr.
    - intros tr. apply handled_quiet. }
  intros rc. cbn beta.
  apply keeps_weaken
    with (K := fun tr => (Kq tr /\ In (Ran GitVerifyBranch) tr)
                         /\ (copytree sc = Copied
                             /\ installed sc Git = true
                             /\ rc = returncode sc GitVerifyBranch))
         (Q := fun _ tr => Kq tr /\ branch_ready tr) (E := Kq);
    [|intros tr ((Hq & Hv & Hcopied) & Hi & Hrc & _); auto|auto|auto].
  apply keeps_assume. intros (Hcopied & Hgit & ->).
  destruct (Z.eqb_spec (returncode sc GitVerifyBranch) 0) as [Hzero|Hnot].
  - eapply keeps_bind.
    + apply (run_cmd_keeps (checkpoint sc) checkpoint_keeps _
               (fun tr => Kq tr /\ In (Ran GitCheckout) tr)).
      * intros tr [Hq Hv]. split; [cbn; auto|].
        split; [apply Kq_snoc; [discriminate|exact Hq]|seen].
      * intros tr Htr. apply Htr.
      * intros tr. apply handled_quiet.
    + intros rc. apply keeps_ret.
      intros tr ((Hq & Hseen) & Hi & -> & Hrc). split; [exact Hq|].
      split; [exact Hcopied|]. left. repeat split; auto.
  - eapply keeps_bind.
    + apply (run_cmd_keeps (checkpoint sc) checkpoint_keeps _
               (fun tr => Kq tr /\ In (Ran GitCheckoutNew) tr)).
      * intros tr [Hq Hv]. split; [cbn; auto|].
        split; [apply Kq_snoc; [discriminate|exact Hq]|seen].
      * intros tr Htr. apply Htr.
      * intros tr. apply handled_quiet.
    + intros rc. apply keeps_ret.
      intros tr ((Hq & Hseen) & Hi & -> & Hrc). split; [exact Hq|].
      split; [exact Hcopied|]. right. repeat split; auto.
Qed.

Lemma safeify_compose_returned_loaded (input_path mode : string)
    (output_path : option string) (result : Safeified) :
  safeify_compose (load sc) input_path mode output_path = Returned result ->
  load_compose sc input_path <> None.
Proof.
  unfold safeify_compose, load.
  destruct (load_compose sc input_path); [discriminate|discriminate].
Qed.

Lemma setup_docker_keeps :
  docker_services_given sc = true ->
  keeps (fun tr => Kq tr /\ branch_ready tr) (setup_docker sc)
    (fun started tr =>
       Kq tr /\ branch_ready tr
       /\ (started = true -> stack_up tr)
       /\ (compose_file sc <> None -> stack_up tr))
    Kq.
Proof.
  intros Hgiven. unfold setup_docker.
  destruct (compose_file sc) as [name|] eqn:Hfile;
    [|apply keeps_ret; intros tr [Hq Hb];
      split; [exact Hq|split; [exact Hb|split; [discriminate|congruence]]]].
  set (K1 := fun tr => Kq tr /\ branch_ready tr /\ In Safeify tr).
  assert (HK1 : forall tr ev, ev <> CleaningUp -> K1 tr -> K1 (tr ++ [ev])).
  { intros tr ev Hev (Hq & Hb & Hs). split; [now apply Kq_snoc|].
    split; [now apply branch_ready_snoc|seen]. }
  apply keeps_bind with (Q := fun _ => K1).
  { apply keeps_log; [discriminate|]. intros tr [Hq Hb].
    split; [cbn; split; [exact Hgiven|split; [rewrite Hfile; discriminate|exact Hb]]|].
    split; [apply Kq_snoc; [discriminate|exact Hq]|].
    split; [now apply branch_ready_snoc|seen]. }
  intros ?. apply keeps_bind with (Q := fun _ => K1).
  { eapply keeps_weaken; [apply (checkpoint_keeps K1)|auto|auto|].
    intros tr. apply handled_quiet. }
  intros ?.
  destruct (safeify_compose (load sc) _ "convert-to-named" _) as [out|e] eqn:Hs;
    [|apply keeps_raise; intros tr Htr; apply Htr].
  apply safeify_compose_returned_loaded in Hs.
  apply keeps_bind with (Q := fun _ => K1);
    [apply keeps_set_safe_compose_exists|].
  intros ?. eapply keeps_bind.
  { apply (run_cmd_keeps (checkpoint sc) checkpoint_keeps K1
             (fun tr => K1 tr /\ In (Ran ComposeUp) tr)).
    - intros tr Htr. split.
      + cbn. split; [apply Htr|]. exists name. split; [exact Hfile|exact Hs].
      + split; [apply HK1; [discriminate|exact Htr]|seen].
    - intros tr Htr. apply Htr.
    - intros tr. apply handled_quiet. }
  intros rc. cbn beta.
  apply keeps_weaken
    with (K := fun tr => (K1 tr /\ In (Ran ComposeUp) tr) /\ ran_ok ComposeUp)
         (Q := fun started tr =>
                 Kq tr /\ branch_ready tr
                 /\ (started = true -> stack_up tr)
                 /\ (Some name <> None -> stack_up tr))
         (E := Kq);
    [|intros tr (Htr & Hi & -> & Hrc); split; [exact Htr|split; auto]
     |auto|auto].
  apply keeps_assume. intros Hup. eapply keeps_bind.
  { apply (run_cmd_keeps (checkpoint sc) checkpoint_keeps _
             (fun tr => K1 tr /\ In (Ran ComposePs) tr)).
    - intros tr [Htr Hseen]. split; [cbn; auto|].
      split; [apply HK1; [discriminate|exact Htr]|seen].
    - intros tr Htr. apply Htr.
    - intros tr. apply handled_quiet. }
  intros rc'. apply keeps_ret.
  intros tr (((Hq & Hb & _) & Hseen) & Hi & -> & Hrc).
  assert (Hstack : stack_up tr).
  { split; [exact Hseen|]. split; [exact Hup|]. split; auto. }
  split; [exact Hq|split; [exact Hb|split; intros _; exact Hstack]].
Qed.

Lemma run_agent_keeps :
  keeps (fun tr => Kq tr /\ branch_ready tr
                   /\ (docker_services_given sc = true ->
                       compose_file sc <> None -> stack_up tr))
    (run_agent sc)
    (fun _ tr => Kq tr /\ In (Ran AgentRun) tr /\ ran_ok AgentRun) Kq.
Proof.
  unfold run_agent. eapply keeps_bind.
  - apply (run_cmd_keeps (checkpoint sc) checkpoint_keeps _
             (fun tr => Kq tr /\ In (Ran AgentRun) tr)).
    + intros tr (Hq & Hb & Hstack). split; [split; assumption|].
      split; [apply Kq_snoc; [discriminate|exact Hq]|seen].
    + intros tr Htr. apply Htr.
    + intros tr. apply handled_quiet.
  - intros rc. apply keeps_ret.
    intros tr ((Hq & Hseen) & Hi & -> & Hrc). repeat split; auto.
Qed.

(** The [try] body keeps the order; however it ends, no teardown has run
    unless the handler did. *)
Lemma lifecycle_keeps : keeps Kq (lifecycle sc) (fun _ => Kq) Kq.
Proof.
  unfold lifecycle.
  apply keeps_bind with (Q := fun _ => Kq).
  { eapply keeps_weaken; [apply (checkpoint_keeps Kq)|auto|auto|].
    intros tr. apply handled_quiet. }
  intros ?.
  apply keeps_bind
    with (Q := fun _ tr =>
                 Kq tr /\ (input_dir_given sc = false ->
                           In (Ran GitShowToplevel) tr
                           /\ ran_ok GitShowToplevel)).
  { destruct (input_dir_given sc) eqn:Hin.
    - apply keeps_ret. intros tr Hq. split; [exact Hq|discriminate].
    - eapply keeps_weaken; [apply (get_repo_root_keeps Hin)|auto| |auto].
      intros u tr (Hq & Hseen & Hok). auto. }
  intros ?. apply keeps_bind with (Q := fun _ tr => Kq tr /\ In Mkdir tr).
  { apply keeps_log; [discriminate|]. intros tr [Hq Hroot].
    split; [exact Hroot|]. split; [apply Kq_snoc; [discriminate|exact Hq]|seen]. }
  intros ?.
  apply keeps_bind
    with (Q := fun _ tr => (Kq tr /\ In Mkdir tr) /\ mkdir_fails sc = false).
  { destruct (mkdir_fails sc);
      [apply keeps_raise; intros tr Htr; apply Htr|apply keeps_ret; auto]. }
  intros ?. apply keeps_assume. intros Hmk.
  eapply keeps_bind; [apply (copy_repo_keeps Hmk)|].
  intros ?. eapply keeps_bind; [apply checkout_branch_keeps|].
  intros ?.
  apply keeps_bind
    with (Q := fun _ tr =>
                 Kq tr /\ branch_ready tr
                 /\ (docker_services_given sc = true ->
                     compose_file sc <> None -> stack_up tr)).
  { destruct (docker_services_given sc) eqn:Hgiven.
    - eapply keeps_bind; [apply (setup_docker_keeps Hgiven)|].
      intros started. eapply keeps_weaken.
      + apply (keeps_set_docker_started
                 (fun tr => Kq tr /\ branch_ready tr
                            /\ (started = true -> stack_up tr)
                            /\ (compose_file sc <> None -> stack_up tr))
                 started Kq).
        intros tr (_ & _ & Hs & _). exact Hs.
      + auto.
      + intros u tr (Hq & Hb & _ & Hstack). auto.
      + auto.
    - apply keeps_ret. intros tr [Hq Hb].
      split; [exact Hq|split; [exact Hb|discriminate]]. }
  intros ?. eapply keeps_bind; [apply run_agent_keeps|].
  intros ?. apply keeps_log; [discriminate|].
  intros tr (Hq & Hseen & Hok). split; [split; assumption|].
  apply Kq_snoc; [discriminate|exact Hq].
Qed.

Lemma except_clauses_keeps (e : PyExc) :
  keeps Kq (except_clauses sc e) (fun _ _ => False) (fun _ => True).
Proof.
  assert (Hcleanup :
            keeps Kq (cleanup_handler sc (checkpoint sc) None)
                  (fun _ _ => False) (fun _ => True)).
  { eapply keeps_weaken;
      [apply (cleanup_handler_keeps (checkpoint sc) checkpoint_keeps False None)
      | | |]; [|auto|auto].
    intros tr Hq. split; [exact Hq|contradiction]. }
  destruct e; cbn [except_clauses];
    try (eapply keeps_bind; [exact Hcleanup|intros u tr HJ []]).
  - exact Hcleanup.
  - apply keeps_raise. auto.
Qed.

(** The trace of every run is well ordered. *)
Lemma main_keeps : J (final sc).
Proof.
  assert (Hmain : keeps (fun tr => tr = []) (main sc)
                        (fun _ _ => True) (fun _ => True)).
  { unfold main.
    apply keeps_bind with (Q := fun _ => Kq).
    { apply keeps_log; [discriminate|]. intros tr ->.
      split; [reflexivity|]. intros [Heq|[]]. discriminate Heq. }
    intros ?. apply keeps_bind with (Q := fun _ => Kq).
    { destruct (installed sc Git);
        [destruct (negb (returncode sc GitAbbrevRefHead =? 0)%Z)|];
        (apply keeps_raise || apply keeps_ret); auto. }
    intros ?. apply keeps_bind with (Q := fun _ => Kq).
    { apply keeps_set_docker_started. discriminate. }
    intros ?. apply keeps_bind with (Q := fun _ => Kq).
    { eapply keeps_try_except; [apply lifecycle_keeps|].
      intros e. eapply keeps_weaken; [apply (except_clauses_keeps e)|auto| |auto].
      intros u tr []. }
    intros ?. eapply keeps_weaken;
      [apply (cleanup_handler_keeps (checkpoint sc) checkpoint_keeps False None)
      | | |]; [|auto|auto].
    intros tr Hq. split; [exact Hq|contradiction]. }
  exact (proj1 (Hmain initial J_initial eq_refl)).
Qed.

End Ordering.

(* ===================================================================== *)
(** ** The order of the events of a run *)
(* ===================================================================== *)

Lemma main_well_ordered (sc : Scenario) :
  well_ordered sc (trace (final sc)).
Proof. apply (j_order sc), main_keeps. Qed.

(** What preceded an event of a run. *)
Lemma main_allowed (sc : Scenario) (ev : Event) :
  In ev (trace (final sc)) ->
  exists pre post, trace (final sc) = pre ++ ev :: post /\ allowed sc pre ev.
Proof. apply well_ordered_in, main_well_ordered. Qed.

Lemma in_prefix {A : Type} (x y : A) (pre post : list A) :
  In x pre -> In x (pre ++ y :: post).
Proof. intros H. apply in_or_app. now left. Qed.

(** After a successful [up] and a failing [ps] the workspace is removed
    and no [down] is run. *)
Example run_ps_fails :
  run ps_fails
  = (Raised (SystemExit 0),
     mkWorld false false false 8
       [Ran GitAbbrevRefHead; Mkdir; Copytree; Ran GitVerifyBranch;
        Ran GitCheckoutNew; Safeify; Ran ComposeUp; Ran ComposePs;
        CleaningUp; Rmtree; CleanupCompleted]).
Proof. vm_compute. reflexivity. Qed.

(** X13: the agent is started only in a prepared workspace: the copy was
    complete, the feature branch was checked out before (with
    [git checkout] if it existed, else with [git checkout -b], and the
    command returned 0), and, where a Compose file was found, [up] and
    [ps] have run before and returned 0.  The summary is logged only
    after the agent has run and returned 0. *)
Theorem agent_runs_in_prepared_workspace (sc : Scenario) :
  (forall pre post,
     trace (final sc) = pre ++ Ran AgentRun :: post ->
     copytree sc = Copied
     /\ ((In (Ran GitCheckout) pre
          /\ returncode sc GitVerifyBranch = 0%Z
          /\ returncode sc GitCheckout = 0%Z)
         \/ (In (Ran GitCheckoutNew) pre
             /\ returncode sc GitVerifyBranch <> 0%Z
             /\ returncode sc GitCheckoutNew = 0%Z))
     /\ (docker_services_given sc = true -> compose_file sc <> None ->
         In (Ran ComposePs) pre
         /\ returncode sc ComposeUp = 0%Z /\ returncode sc ComposePs = 0%Z))
  /\ (forall pre post,
        trace (final sc) = pre ++ Summary :: post ->
        In (Ran AgentRun) pre
        /\ installed sc Agent = true /\ returncode sc AgentRun = 0%Z).
Proof.
  split; intros pre post Heq;
    pose proof (main_well_ordered sc pre _ post Heq) as Hal; cbn in Hal.
  - destruct Hal as ((Hcopied & Hbranch) & Hstack). split; [exact Hcopied|].
    split.
    + destruct Hbranch as [(H1 & H2 & _ & H3)|(H1 & H2 & _ & H3)]; auto.
    + intros Hgiven Hfile.
      destruct (Hstack Hgiven Hfile) as (H1 & (_ & H2) & (_ & H3)). auto.
  - destruct Hal as (H1 & H2 & H3). auto.
Qed.

(** X14: [git checkout] is run only if the branch exists, [git checkout
    -b] only if it does not, so never both; each after
    [git rev-parse --verify] in the complete copy. *)
Theorem checkout_follows_verify (sc : Scenario) :
  (forall pre post,
     trace (final sc) = pre ++ Ran GitCheckout :: post ->
     In (Ran GitVerifyBranch) pre /\ returncode sc GitVerifyBranch = 0%Z)
  /\ (forall pre post,
        trace (final sc) = pre ++ Ran GitCheckoutNew :: post ->
        In (Ran GitVerifyBranch) pre /\ returncode sc GitVerifyBranch <> 0%Z)
  /\ (forall pre post,
        trace (final sc) = pre ++ Ran GitVerifyBranch :: post ->
        In Copytree pre /\ copytree sc = Copied)
  /\ ~ (In (Ran GitCheckout) (trace (final sc))
        /\ In (Ran GitCheckoutNew) (trace (final sc))).
Proof.
  split; [|split; [|split]].
  - intros pre post Heq.
    pose proof (main_well_ordered sc pre _ post Heq) as Hal. cbn in Hal. tauto.
  - intros pre post Heq.
    pose proof (main_well_ordered sc pre _ post Heq) as Hal. cbn in Hal. tauto.
  - intros pre post Heq.
    pose proof (main_well_ordered sc pre _ post Heq) as Hal. cbn in Hal. tauto.
  - intros [H1 H2].
    apply main_allowed in H1 as (? & ? & _ & Hal1).
    apply main_allowed in H2 as (? & ? & _ & Hal2).
    cbn in Hal1, Hal2. tauto.
Qed.

(** What a Docker command of a run has behind it. *)
Lemma docker_command_allowed (sc : Scenario) (c : Command) :
  executable_of c = Docker ->
  In (Ran c) (trace (final sc)) ->
  In (Ran ComposeUp) (trace (final sc)).
Proof.
  intros Hc Hin. destruct c; try discriminate Hc; [exact Hin| |].
  - apply main_allowed in Hin as (pre & post & -> & Hal). cbn in Hal.
    apply in_prefix, Hal.
  - apply main_allowed in Hin as (pre & post & Heq & Hal). cbn in Hal.
    destruct Hal as ((Hps & _) & _).
    assert (Hin : In (Ran ComposePs) (trace (final sc)))
      by (rewrite Heq; now apply in_prefix).
    apply main_allowed in Hin as (pre' & post' & -> & Hal'). cbn in Hal'.
    apply in_prefix, Hal'.
Qed.

(** X15: Docker is used only where services were asked for and a Compose
    file was found and read, after the safe Compose file was written,
    which in turn happens only once the branch is checked out in the
    complete copy. *)
Theorem docker_only_with_compose_file (sc : Scenario) (c : Command) :
  executable_of c = Docker ->
  In (Ran c) (trace (final sc)) ->
  docker_services_given sc = true
  /\ (exists name,
        compose_file sc = Some name
        /\ load_compose sc (workspace_path sc ++ "/" ++ name) <> None)
  /\ exists pre post,
       trace (final sc) = pre ++ Safeify :: post
       /\ In Copytree pre /\ copytree sc = Copied
       /\ (In (Ran GitCheckout) pre \/ In (Ran GitCheckoutNew) pre).
Proof.
  intros Hc Hin. apply docker_command_allowed in Hin; [|exact Hc].
  apply main_allowed in Hin as (pre & post & Heq & Hsafe & Hloaded).
  assert (Hin : In Safeify (trace (final sc)))
    by (rewrite Heq; now apply in_prefix).
  pose proof (main_well_ordered sc) as Hord.
  apply main_allowed in Hin as (pre' & post' & Heq' & Hgiven & Hfile & Hready).
  split; [exact Hgiven|]. split; [exact Hloaded|].
  exists pre', post'. split; [exact Heq'|].
  rewrite Heq' in Hord. apply well_ordered_prefix in Hord.
  destruct Hready as (Hcopied & Hbranch).
  assert (Hverify : In (Ran GitVerifyBranch) pre').
  { destruct Hbranch as [(H & _)|(H & _)];
      apply (well_ordered_in sc _ _ Hord) in H as (p & q & -> & Hal);
      cbn in Hal; apply in_prefix, Hal. }
  apply (well_ordered_in sc _ _ Hord) in Hverify as (p & q & Hp & Hal).
  cbn in Hal. split; [rewrite Hp; apply in_prefix, Hal|].
  split; [exact Hcopied|]. tauto.
Qed.

Lemma docker_only_with_compose_file_witness :
  In (Ran ComposeDown) (trace (final all_good))
  /\ docker_services_given all_good = true
  /\ exists name, compose_file all_good = Some name.
Proof.
  assert (Hin : In (Ran ComposeDown) (trace (final all_good)))
    by (vm_compute; tauto).
  split; [exact Hin|].
  destruct (docker_only_with_compose_file all_good ComposeDown eq_refl Hin)
    as (Hgiven & (name & Hname & _) & _).
  split; [exact Hgiven|]. exists name. exact Hname.
Defined.

(** X16: [down] is run only after [up] and [ps] have both run and
    returned 0, in a teardown; so a stack that came up and whose [ps]
    fails is not taken down, as in [run_ps_fails]. *)
Theorem down_only_after_ps (sc : Scenario) :
  (forall pre post,
     trace (final sc) = pre ++ Ran ComposeDown :: post ->
     In (Ran ComposePs) pre /\ In CleaningUp pre
     /\ installed sc Docker = true
     /\ returncode sc ComposeUp = 0%Z /\ returncode sc ComposePs = 0%Z)
  /\ (returncode sc ComposePs <> 0%Z ->
      ~ In (Ran ComposeDown) (trace (final sc))).
Proof.
  assert (Hgate : forall pre post,
             trace (final sc) = pre ++ Ran ComposeDown :: post ->
             In (Ran ComposePs) pre /\ In CleaningUp pre
             /\ installed sc Docker = true
             /\ returncode sc ComposeUp = 0%Z
             /\ returncode sc ComposePs = 0%Z).
  { intros pre post Heq.
    pose proof (main_well_ordered sc pre _ post Heq) as Hal. cbn in Hal.
    destruct Hal as ((H1 & (H2 & H3) & (_ & H4)) & H5 & _). auto. }
  split; [exact Hgate|].
  intros Hps Hin. apply in_split in Hin as (pre & post & Heq).
  apply Hgate in Heq. tauto.
Qed.

(** An event that is quiet where it occurs, in a run without a signal,
    occurs once. *)
Lemma no_signal_not_handled (sc : Scenario) (tr post : list Event) :
  signal sc = None -> trace (final sc) = tr ++ post -> ~ handled tr.
Proof.
  intros Hsig Heq [s Hs].
  assert (Hin : In (Handler s) (trace (final sc)))
    by (rewrite Heq; apply in_or_app; now left).
  apply main_allowed in Hin as (? & ? & _ & (n & Hn) & _). congruence.
Qed.

Lemma teardown_step_quiet (sc : Scenario) (ev : Event) (pre : list Event) :
  teardown_step ev -> allowed sc pre ev -> quiet ev pre.
Proof. intros [-> | [-> | [-> | ->]]] Hal; cbn in Hal; tauto. Qed.

(** X17: without a signal the handler is never run, and every step of the
    teardown is done at most once: the trace has no second [CleaningUp],
    [down], [rmtree] or [CleanupCompleted]; the teardown itself is
    started exactly once where [main] enters its [try] statement. *)
Theorem teardown_once_without_signal (sc : Scenario) :
  signal sc = None ->
  (forall s, ~ In (Handler s) (trace (final sc)))
  /\ (forall ev pre post,
        teardown_step ev ->
        trace (final sc) = pre ++ ev :: post ->
        ~ In ev pre /\ ~ In ev post)
  /\ (installed sc Git = true -> returncode sc GitAbbrevRefHead = 0%Z ->
      exists pre post,
        trace (final sc) = pre ++ CleaningUp :: post
        /\ ~ In CleaningUp pre /\ ~ In CleaningUp post).
Proof.
  intros Hsig.
  assert (Hno : forall s, ~ In (Handler s) (trace (final sc))).
  { intros s Hin. apply (no_signal_not_handled sc (trace (final sc)) [] Hsig).
    - now rewrite app_nil_r.
    - now exists s. }
  assert (Honce : forall ev pre post,
             teardown_step ev ->
             trace (final sc) = pre ++ ev :: post ->
             ~ In ev pre /\ ~ In ev post).
  { intros ev pre post Hstep Heq. split.
    - intros Hin.
      pose proof (main_well_ordered sc pre ev post Heq) as Hal.
      apply (no_signal_not_handled sc pre (ev :: post) Hsig Heq).
      exact (teardown_step_quiet sc ev pre Hstep Hal Hin).
    - intros Hin. apply in_split in Hin as (p & q & ->).
      assert (Heq' : trace (final sc) = (pre ++ ev :: p) ++ ev :: q)
        by (rewrite Heq, <- app_assoc; reflexivity).
      pose proof (main_well_ordered sc _ ev q Heq') as Hal.
      apply (no_signal_not_handled sc _ (ev :: q) Hsig Heq').
      apply (teardown_step_quiet sc ev _ Hstep Hal).
      apply in_or_app. right. now left. }
  split; [exact Hno|]. split; [exact Honce|].
  intros Hgit Hrc.
  assert (Hin : In CleaningUp (trace (final sc))).
  { destruct (main_ends sc) as [[_ Hbase]|(_ & _ & e & _ & Hfin)].
    - destruct Hbase; congruence.
    - apply Hfin. }
  apply in_split in Hin as (pre & post & Heq).
  exists pre, post. split; [exact Heq|].
  apply Honce; [now left|exact Heq].
Qed.

Lemma teardown_once_without_signal_witness :
  signal all_good = None
  /\ (forall ev pre post,
        teardown_step ev ->
        trace (final all_good) = pre ++ ev :: post ->
        ~ In ev pre /\ ~ In ev post).
Proof.
  split; [reflexivity|].
  exact (proj1 (proj2 (teardown_once_without_signal all_good eq_refl))).
Defined.


(* ===================================================================== *)
(** ** The order in which the workspace is made *)
(* ===================================================================== *)

(** X19: the base branch is read before anything else; the repository
    root is asked for only if no input directory was given; the
    workspaces directory is made only once the root is known; and the
    copy is started only after the directory was made. *)
Theorem copy_follows_mkdir (sc : Scenario) :
  (forall pre post,
     trace (final sc) = pre ++ Ran GitAbbrevRefHead :: post -> pre = [])
  /\ (In (Ran GitShowToplevel) (trace (final sc)) ->
      input_dir_given sc = false)
  /\ (forall pre post,
        trace (final sc) = pre ++ Mkdir :: post ->
        input_dir_given sc = false ->
        In (Ran GitShowToplevel) pre
        /\ installed sc Git = true /\ returncode sc GitShowToplevel = 0%Z)
  /\ (forall pre post,
        trace (final sc) = pre ++ Copytree :: post ->
        In Mkdir pre /\ mkdir_fails sc = false).
Proof.
  split; [|split; [|split]].
  - intros pre post Heq. exact (main_well_ordered sc pre _ post Heq).
  - intros Hin. apply main_allowed in Hin as (? & ? & _ & Hal). exact Hal.
  - intros pre post Heq Hdir.
    destruct (main_well_ordered sc pre _ post Heq Hdir) as (H1 & H2 & H3).
    auto.
  - intros pre post Heq. exact (main_well_ordered sc pre _ post Heq).
Qed.

(* ===================================================================== *)
(** ** The services option of [spinoff_agent.py] *)
(* ===================================================================== *)

(** X20: whatever is given for [-d/--docker-services], also nothing, the
    parsed list is not empty, so that [main] always calls
    [setup_docker]; and it is a list, never the string ["all"], so that
    [docker compose up] always gets the list as service names: with the
    default, the service name [all]. *)
Theorem docker_services_always_named (opt : option string)
    (workspace_id : string) :
  truthy (parse_docker_services opt) = true
  /\ up_command workspace_id (parse_docker_services opt)
     = ["docker"; "compose"; "-f"; "docker-compose.safe.yml"; "-p";
        workspace_id; "up"; "--build"; "--force-recreate"; "-d"]
       ++ parse_docker_services opt
  /\ up_command workspace_id (parse_docker_services None)
     = ["docker"; "compose"; "-f"; "docker-compose.safe.yml"; "-p";
        workspace_id; "up"; "--build"; "--force-recreate"; "-d"; "all"].
Proof.
  assert (Htruthy : truthy (parse_docker_services opt) = true).
  { destruct opt as [x|]; [|reflexivity]. cbn [parse_docker_services].
    pose proof (split_not_nil "," x) as Hne.
    destruct (PyStr.split "," x); [contradiction|reflexivity]. }
  split; [exact Htruthy|]. split; [|reflexivity].
  unfold up_command. cbv zeta. rewrite Htruthy. reflexivity.
Qed.

